(** * search-sifter: a shallow embedding of the similarity primitives,
      the region model and the sifter pipeline.

    Source files embedded here:
    - [searchsifter/relationships/jaccard.py]
    - [searchsifter/relationships/minhash.py]
    - [searchsifter/Family.py]
    - [searchsifter/relationships/pfam.py] ([Hashes.full_hash], [Hashes.signature])
    - [searchsifter/sifter.py]

    Conventions.  Python [int] is [Z]; the quotient of two lengths computed
    by [/] is the exact rational ([Qc]); a Python [dict] is a [gmap]; a
    Python [set] of hashable values with structural equality is a [gset];
    an exception is a [Raise] in the [result] monad. *)

From Stdlib Require Import ZArith QArith Qcanon Lia.
From stdpp Require Import gmap strings list fin_maps fin_sets sorting numbers.

Set Warnings "-clear-no-such-hyp".

Local Open Scope Z_scope.

(** ** Python primitives *)

Module Py.

(** The exceptions the modelled code can raise. *)
Inductive exn : Type :=
| ZeroDivisionError
| TypeError
| KeyError
| ValueError
| AttributeError
| AssertionError
| RuntimeError.

Inductive result (A : Type) : Type :=
| Ok (a : A)
| Raise (e : exn).
Arguments Ok {A} a.
Arguments Raise {A} e.

Definition bind {A B} (m : result A) (k : A → result B) : result B :=
  match m with
  | Ok a => k a
  | Raise e => Raise e
  end.

(** [len(a) / len(b)]: true division of two lengths. *)
Definition true_div (a b : nat) : result Qc :=
  match b with
  | O => Raise ZeroDivisionError
  | S _ => Ok (Qc_of_Z (Z.of_nat a) / Qc_of_Z (Z.of_nat b))%Qc
  end.

(** [q / r] on numbers. *)
Definition num_div (q r : Qc) : result Qc :=
  if decide (r = 0%Qc) then Raise ZeroDivisionError else Ok (q / r)%Qc.

(** [functools.reduce(f, xs)] with no initial value. *)
Definition reduce {A} (f : A → A → A) (xs : list A) : result A :=
  match xs with
  | [] => Raise TypeError
  | x :: xs' => Ok (foldl f x xs')
  end.

(** [xs[:n]]: a negative [n] counts from the end. *)
Definition slice_to {A} (xs : list A) (n : Z) : list A :=
  if decide (0 ≤ n) then take (Z.to_nat n) xs
  else take (Z.to_nat (Z.of_nat (length xs) + n)) xs.

(** The decorator of [jaccard.py]: the wrapped function is called and a
    [ZeroDivisionError] it raises is turned into the result [0]. *)
Definition _zero_on_divide_by_zero {X} (func : X → result Qc) : X → result Qc :=
  λ args,
    match func args with
    | Raise ZeroDivisionError => Ok 0%Qc
    | r => r
    end.

End Py.

Import Py.

#[global] Instance result_ret : MRet result := λ _ a, Ok a.
#[global] Instance result_bind : MBind result := λ _ _ k m, Py.bind m k.

(** ** jaccard.py *)

Module Jaccard.
Section jaccard.
Context `{Countable A}.

(** The arguments are iterables; [set(s)] is [list_to_set s]. *)
Definition jaccard_body (st : list A * list A) : result Qc :=
  let s_ : gset A := list_to_set st.1 in
  let t_ : gset A := list_to_set st.2 in
  true_div (size (s_ ∩ t_)) (size (s_ ∪ t_)).

Definition jaccard (s t : list A) : result Qc :=
  _zero_on_divide_by_zero jaccard_body (s, t).

Definition jaccard_containment_body (st : list A * list A) : result Qc :=
  let s_ : gset A := list_to_set st.1 in
  let t_ : gset A := list_to_set st.2 in
  true_div (size (s_ ∩ t_)) (size s_).

Definition jaccard_containment (s t : list A) : result Qc :=
  _zero_on_divide_by_zero jaccard_containment_body (s, t).

(** The ratio of two lengths, [0] when the denominator is zero. *)
Definition ratio0 (a b : nat) : Qc :=
  if decide (b = O) then 0%Qc
  else (Qc_of_Z (Z.of_nat a) / Qc_of_Z (Z.of_nat b))%Qc.

(** The containment as the specification words it: [|s ∩ t| / |t|]. *)
Definition containment_over_t (s t : list A) : Qc :=
  let s_ : gset A := list_to_set s in
  let t_ : gset A := list_to_set t in
  ratio0 (size (s_ ∩ t_)) (size t_).

(** The containment as the code computes it: [|s ∩ t| / |s|]. *)
Definition containment_over_s (s t : list A) : Qc :=
  let s_ : gset A := list_to_set s in
  let t_ : gset A := list_to_set t in
  ratio0 (size (s_ ∩ t_)) (size s_).

End jaccard.
End Jaccard.

(** ** minhash.py *)

Module Minhash.
Section minhash.
Context `{Countable A}.
(** The order of the elements, which breaks ties between equal hashes. *)
Variable le : relation A.
Context `{!RelDecision le}.
Variable hash_function : A → Z.

(** Python's order on the tuples [(hash, element)]. *)
Definition tuple_le (p q : Z * A) : Prop :=
  p.1 < q.1 ∨ (p.1 = q.1 ∧ le p.2 q.2).

#[global] Instance tuple_le_dec : RelDecision tuple_le.
Proof. intros p q. unfold tuple_le. apply _. Defined.

Definition sorted (l : list (Z * A)) : list (Z * A) := merge_sort tuple_le l.

(** [set(sorted((hash_function(e), e) for e in s)[:n])]; [s] is the sequence
    the iterable yields. *)
Definition signature (s : list A) (n : Z) : gset (Z * A) :=
  list_to_set (slice_to (sorted ((λ e, (hash_function e, e)) <$> s)) n).

Definition set_hashes (s : list A) : gset (Z * A) :=
  list_to_set ((λ e, (hash_function e, e)) <$> s).

(** [*sets, n = args].  A set is sorted from the sequence [elements] lists
    it in; the sorted list does not depend on that sequence when [le] is a
    total order. *)
Definition union_signature (sets : list (gset (Z * A))) (n : Z)
  : result (gset (Z * A)) :=
  match sets with
  | [s0; s1] => Ok (list_to_set (slice_to (sorted (elements (s0 ∪ s1))) n))
  | _ => u ← reduce (∪) sets;
         Ok (list_to_set (slice_to (sorted (elements u)) n))
  end.

Definition intersection_signature (sets : list (gset (Z * A)))
  : result (gset (Z * A)) :=
  reduce (∩) sets.

Definition minhash_body (stn : gset (Z * A) * gset (Z * A) * Z) : result Qc :=
  let '(s, t, n) := stn in
  X ← union_signature [s; t] n;
  Y ← intersection_signature [X; s; t];
  true_div (size Y) (size X).

Definition minhash (s t : gset (Z * A)) (n : Z) : result Qc :=
  _zero_on_divide_by_zero minhash_body (s, t, n).

Definition minhash_containment_body (st : gset (Z * A) * gset (Z * A))
  : result Qc :=
  true_div (size (st.1 ∩ st.2)) (size st.1).

Definition minhash_containment (s t : gset (Z * A)) : result Qc :=
  _zero_on_divide_by_zero minhash_containment_body (s, t).

End minhash.
End Minhash.

(** ** Family.py: the interval functions *)

Module Intervals.

(** [range(start, stop)], with step 1. *)
Record range : Type := Range { start : Z; stop : Z }.

#[global] Instance range_eq_dec : EqDecision range.
Proof. solve_decision. Defined.

(** [len(r)] *)
Definition range_len (r : range) : Z := Z.max 0 (stop r - start r).

(** Python's [==] on ranges compares them as sequences: two empty ranges
    are equal whatever their bounds. *)
Definition range_eq (r1 r2 : range) : Prop :=
  (range_len r1 = 0 ∧ range_len r2 = 0) ∨ r1 = r2.

#[global] Instance range_eq_decision : RelDecision range_eq.
Proof. intros r1 r2. unfold range_eq. apply _. Defined.

(** [s.add(o)] on a set of ranges, kept as the list of its members in the
    order they were added: nothing is added when a member already equals
    [o]. *)
Definition rangeset_add (o : range) (s : list range) : list range :=
  if decide (Exists (range_eq o) s) then s else s ++ [o].

Definition overlap (start_1 end_1 start_2 end_2 : Z) : range :=
  Range (Z.max start_1 start_2) (Z.min end_1 end_2 + 1).

(** The sort key [(r.start, r.stop)], compared as a tuple. *)
Definition key_le (r1 r2 : range) : Prop :=
  start r1 < start r2 ∨ (start r1 = start r2 ∧ stop r1 ≤ stop r2).

#[global] Instance key_le_dec : RelDecision key_le.
Proof. intros r1 r2. unfold key_le. apply _. Defined.

(** One turn of the loop of [_merge_ranges]: [list.last u] is [u[-1]]. *)
Definition merge_step (u : list range) (r : range) : list range :=
  match list.last u with
  | None => u ++ [r]
  | Some r1 =>
      let r2 := r in
      if decide (0 < range_len (overlap (start r1) (stop r1 - 1)
                                        (start r2) (stop r2 - 1))
                 ∨ stop r1 = start r2)
      then removelast u
             ++ [Range (Z.min (start r1) (start r2)) (Z.max (stop r1) (stop r2))]
      else u ++ [r]
  end.

Definition _merge_ranges (ranges : list range) : list range :=
  foldl merge_step [] (merge_sort key_le ranges).

(** The points of a range and of a list of ranges. *)
Definition in_range (z : Z) (r : range) : Prop := start r ≤ z < stop r.

Definition covers (l : list range) (z : Z) : Prop := Exists (in_range z) l.

(** Sorted, pairwise disjoint and non-adjacent: every range is non-empty
    and ends strictly before each later one starts. *)
Fixpoint separated (l : list range) : Prop :=
  match l with
  | [] => True
  | r :: l' => start r < stop r ∧ Forall (λ r', stop r < start r') l' ∧ separated l'
  end.

End Intervals.

(** ** Family.py: the class *)

Module Family.
Import Intervals.

Section family.
(** The values a signature repository computes and a family memoizes. *)
Variable V : Type.

(** What [Family] uses of a signature repository ([Hashes] and its
    subclasses in [pfam.py]): the identity of the object, which is the key
    of the memo dictionaries, and the two methods, which read the regions of
    the family. *)
Record Hashes : Type := {
  hashes_id : positive;
  hashes_signature : gmap string (list (Z * Z)) → V;
  hashes_full_hash : gmap string (list (Z * Z)) → V
}.

Record Family : Type := {
  _regions : gmap string (list (Z * Z));
  _signatures : gmap positive V;
  _fhashes : gmap positive V;
  _finalised : bool
}.

(** [Family()] *)
Definition new : Family :=
  {| _regions := ∅; _signatures := ∅; _fhashes := ∅; _finalised := false |}.

(** [_regions] is a [defaultdict(list)]: a missing accession starts from
    the empty list. *)
Definition add_region (self : Family) (acc : string) (start_ end_ : Z)
  : result Family :=
  if negb (_finalised self) then
    Ok {| _regions :=
            <[acc := default [] (_regions self !! acc) ++ [(start_, end_)]]>
              (_regions self);
          _signatures := ∅;
          _fhashes := _fhashes self;
          _finalised := _finalised self |}
  else Raise RuntimeError.

(** [add_region] on a family built as [Family(_regions=d)] from a plain
    [dict] [d]: [self._regions[acc]] raises [KeyError] for an accession
    that is not a key of [d], before anything is changed. *)
Definition add_region_dict (self : Family) (acc : string) (start_ end_ : Z)
  : result Family :=
  if negb (_finalised self) then
    match _regions self !! acc with
    | Some rs =>
        Ok {| _regions := <[acc := rs ++ [(start_, end_)]]> (_regions self);
              _signatures := ∅;
              _fhashes := _fhashes self;
              _finalised := _finalised self |}
    | None => Raise KeyError
    end
  else Raise RuntimeError.

Definition finalise (self : Family) : Family :=
  {| _regions := _regions self; _signatures := _signatures self;
     _fhashes := _fhashes self; _finalised := true |}.

Definition proteins (self : Family) : gset string := dom (_regions self).

(** The methods that memoize return the value and the updated object. *)
Definition signature (self : Family) (hashes : Hashes) : V * Family :=
  match _signatures self !! hashes_id hashes with
  | Some sig => (sig, self)
  | None =>
      let sig := hashes_signature hashes (_regions self) in
      (sig, {| _regions := _regions self;
               _signatures := <[hashes_id hashes := sig]> (_signatures self);
               _fhashes := _fhashes self;
               _finalised := _finalised self |})
  end.

Definition full_hash (self : Family) (hashes : Hashes) : V * Family :=
  match _fhashes self !! hashes_id hashes with
  | Some fhash => (fhash, self)
  | None =>
      let fhash := hashes_full_hash hashes (_regions self) in
      (fhash, {| _regions := _regions self;
                 _signatures := _signatures self;
                 _fhashes := <[hashes_id hashes := fhash]> (_fhashes self);
                 _finalised := _finalised self |})
  end.

(** Python's order on the tuples [(start, end)]. *)
Definition region_le (p q : Z * Z) : Prop :=
  p.1 < q.1 ∨ (p.1 = q.1 ∧ p.2 ≤ q.2).

#[global] Instance region_le_dec : RelDecision region_le.
Proof. intros p q. unfold region_le. apply _. Defined.

(** The items [(k, v)] of a dictionary have distinct keys, so their order
    as tuples is the order of the keys. *)
Definition item_le (p q : string * list (Z * Z)) : Prop := String.le p.1 q.1.

#[global] Instance item_le_dec : RelDecision item_le.
Proof. intros p q. unfold item_le. apply _. Defined.

Definition _dict_slice (d : gmap string (list (Z * Z))) (s : gset string)
  : list (string * list (Z * Z)) :=
  merge_sort item_le (filter (λ kv, kv.1 ∈ s) (map_to_list d)).

(** The inner loop of [overlap], over what is left of [sorted_r2]; it
    stops at the first region that starts after [e1]. *)
Fixpoint overlap_inner (s1 e1 : Z) (sorted_r2 : list (Z * Z))
  (overlaps : list range) : list range :=
  match sorted_r2 with
  | [] => overlaps
  | (s2, e2) :: rest =>
      if decide (s2 > e1) then overlaps
      else
        let o := Intervals.overlap s1 e1 s2 e2 in
        overlap_inner s1 e1 rest
          (if decide (0 < range_len o) then rangeset_add o overlaps
           else overlaps)
  end.

(** The two nested loops over one protein's regions; the result is the set
    [overlaps[acc1]], empty before the loops as the accessions of the zipped
    slices are distinct. *)
Definition overlap_regions (r1 r2 : list (Z * Z)) : list range :=
  let sorted_r1 := merge_sort region_le r1 in
  let sorted_r2 := merge_sort region_le r2 in
  foldl (λ overlaps '(s1, e1), overlap_inner s1 e1 sorted_r2 overlaps)
        [] sorted_r1.

Definition overlap_step (overlaps : result (gmap string (list range)))
  (p : (string * list (Z * Z)) * (string * list (Z * Z)))
  : result (gmap string (list range)) :=
  m ← overlaps;
  let '((acc1, r1), (acc2, r2)) := p in
  if decide (acc1 = acc2)
  then Ok (<[acc1 := _merge_ranges (overlap_regions r1 r2)]> m)
  else Raise AssertionError.

Definition overlap (self other : Family) : result (gmap string (list range)) :=
  let '(f1, f2) :=
    if decide (size (proteins self) < size (proteins other))%nat
    then (self, other) else (other, self) in
  let intersection := proteins f1 ∩ proteins f2 in
  foldl overlap_step (Ok ∅)
        (zip (_dict_slice (_regions f1) intersection)
             (_dict_slice (_regions f2) intersection)).

(** The set comprehension of [union]: the ranges are added to a set in the
    order [it], the order in which the set of tuples is iterated.  The set
    is given by the list of its members; [_merge_ranges] sorts it, and the
    sorted list is the same for every order of that list
    ([merge_ranges_Permutation] below). *)
Definition range_set (it : list (Z * Z)) : list range :=
  foldl (λ rs '(s, e), rangeset_add (Range s (e + 1)) rs) [] it.

(** [reduce(operator.or_, ...)] over what [map] yields from
    [families = [self] + list(others)], here [x :: xs]: the list is never
    empty, so no [TypeError]. *)
Definition union_all `{Countable K} (x : gset K) (xs : list (gset K)) : gset K :=
  foldl (∪) x xs.

(** The two [map]s of [union] applied to one family [r]:
    [r._regions.get(protein)], then [set(x) if x is not None else set()]. *)
Definition regions_on (protein : string) (r : Family) : gset (Z * Z) :=
  match _regions r !! protein with
  | Some x => list_to_set x
  | None => ∅
  end.

(** [set_iter] gives the order in which Python iterates a set of tuples;
    the source does not determine it. *)
Definition union (set_iter : gset (Z * Z) → list (Z * Z))
  (self : Family) (others : list Family) : gmap string (list range) :=
  let proteins := union_all (proteins self) (proteins <$> others) in
  set_to_map (λ protein,
    let rs := union_all (regions_on protein self)
                        (regions_on protein <$> others) in
    let rs := range_set (set_iter rs) in
    (protein, _merge_ranges rs)) proteins.

(** [regions()]: one triple per stored region, protein by protein. *)
Definition regions (self : Family) : list (string * Z * Z) :=
  kv ← map_to_list (_regions self);
  (λ r : Z * Z, (kv.1, r.1, r.2)) <$> kv.2.

(** [jc.jaccard(self.proteins(), other.proteins())]: the key views are
    iterated into sets. *)
Definition jaccard_index (self other : Family) : result Qc :=
  Jaccard.jaccard (map_to_list (_regions self)).*1
                  (map_to_list (_regions other)).*1.

Definition jaccard_containment (self other : Family) : result Qc :=
  Jaccard.jaccard_containment (map_to_list (_regions self)).*1
                              (map_to_list (_regions other)).*1.

Definition proteins_covered (self : Family) : nat := size (proteins self).

(** [range(s, e + 1) for s, e in rs] *)
Definition region_ranges (rs : list (Z * Z)) : list range :=
  (λ r : Z * Z, Range r.1 (r.2 + 1)) <$> rs.

(** [sum(len(r) for _, rs in self._regions.items()
             for r in _merge_ranges(...))] *)
Definition residues_covered (self : Family) : Z :=
  foldl Z.add 0
    (range_len <$> (kv ← map_to_list (_regions self);
                    _merge_ranges (region_ranges kv.2))).

(** The regions of a family all satisfy [start <= end] (the invariant of a
    coordinate range). *)
Definition valid (self : Family) : Prop :=
  map_Forall (λ _ rs, Forall (λ r : Z * Z, r.1 ≤ r.2) rs) (_regions self).

#[global] Instance valid_dec (self : Family) : Decision (valid self).
Proof. unfold valid. apply _. Defined.

End family.
End Family.

(** ** pfam.py: the family-level repository *)

Module Pfam.
Section pfam.
(** [minhash._crc32_hash], the default hash function, on accessions. *)
Variable _crc32_hash : string → Z.

(** A [Hashes] object of signature length [n]; [id] is its identity.
    [family.proteins()] yields the keys of the regions. *)
Definition Hashes (id : positive) (n : Z) : Family.Hashes (gset (Z * string)) :=
  {| Family.hashes_id := id;
     Family.hashes_signature := λ regions,
       Minhash.signature String.le _crc32_hash (map_to_list regions).*1 n;
     Family.hashes_full_hash := λ regions,
       Minhash.set_hashes _crc32_hash (map_to_list regions).*1 |}.

(** [a // b]: Python rounds the quotient down, as [Z.div] does, and raises
    on a zero divisor. *)
Definition floordiv (a b : Z) : result Z :=
  if decide (b = 0) then Raise ZeroDivisionError else Ok (a `div` b).

(** [list(range(start // w, end // w + 1))] *)
Definition chunks_from_coordinates (start end_ w : Z) : result (list Z) :=
  a ← floordiv start w;
  b ← floordiv end_ w;
  Ok (seqZ a (b + 1 - a)).

(** The generator [_chunk_iterator], as the list of what it yields. *)
Definition _chunk_iterator (regions : list (string * Z * Z)) (w : Z)
  : result (list (string * Z)) :=
  Py.bind
    (mapM (M := result)
       (λ r : string * Z * Z,
          Py.bind (chunks_from_coordinates r.1.2 r.2 w)
                  (λ cs : list Z, Ok ((λ chunk : Z, (r.1.1, chunk)) <$> cs)))
       regions)
    (λ ls : list (list (string * Z)), Ok (concat ls)).

(** A [Hashes] object whose dictionary is loaded: its identity, the
    signature length [n] and the dictionary [hashes] from entry to
    signature. *)
Record Catalog : Type := {
  cat_id : positive;
  cat_n : Z;
  cat_hashes : gmap string (gset (Z * string))
}.

(** A [Hashes] object with its lazy state.  [_hashes] is [None] until the
    dictionary is given, read from a file or loaded.  [pfam] is the data
    source: [None], the default (the module sets [pfam_db = None]), or a
    module, given by the pairs of family and proteins that its [Families]
    yields. *)
Record HashesObject : Type := {
  obj_id : positive;
  obj_n : Z;
  _hashes : option (gmap string (gset (Z * string)));
  pfam : option (list (string * list string))
}.

(** The property [hashes], as the value or error and the object after the
    access.  [self._hashes = {}] comes before the data source is touched,
    so a load that fails leaves the empty dictionary behind; without a data
    source [self.pfam.Families] raises [AttributeError]. *)
Definition hashes (self : HashesObject)
  : result (gmap string (gset (Z * string))) * HashesObject :=
  match _hashes self with
  | Some h => (Ok h, self)
  | None =>
      match pfam self with
      | None =>
          (Raise AttributeError,
           {| obj_id := obj_id self; obj_n := obj_n self;
              _hashes := Some ∅; pfam := pfam self |})
      | Some families =>
          let h :=
            foldl (λ (m : gmap string (gset (Z * string)))
                     (fp : string * list string),
                     <[fp.1 := Minhash.signature String.le _crc32_hash fp.2
                                 (obj_n self)]> m) ∅ families in
          (Ok h,
           {| obj_id := obj_id self; obj_n := obj_n self;
              _hashes := Some h; pfam := pfam self |})
      end
  end.


(** [estimate_containment]: the full hash of the family, then one
    [minhash_containment] per entry. *)
Definition estimate_containment (self : HashesObject)
  (family : Family.Family (gset (Z * string)))
  : result (gmap string Qc) * HashesObject
    * Family.Family (gset (Z * string)) :=
  let '(B, family') :=
    Family.full_hash _ family (Hashes (obj_id self) (obj_n self)) in
  let '(r, self') := hashes self in
  (Py.bind r
     (λ h : gmap string (gset (Z * string)),
        Py.bind
          (mapM (M := result)
             (λ kv : string * gset (Z * string),
                Py.bind (Minhash.minhash_containment kv.2 B)
                        (λ c : Qc, Ok (kv.1, c)))
             (map_to_list h))
          (λ l : list (string * Qc), Ok (list_to_map l))),
   self', family').

(** One turn of the loop of [_clan_hashes], for the clan and the members
    that the data source yields. *)
Definition clan_hashes_step (self : Catalog)
  (chs : result (gmap string (gset (Z * string))))
  (cm : string * list string) : result (gmap string (gset (Z * string))) :=
  m ← chs;
  let hs := omap (λ f, cat_hashes self !! f) cm.2 in
  match hs with
  | [] => Ok m
  | [h] => Ok (<[cm.1 := h]> m)
  | _ => u ← Minhash.union_signature String.le hs (cat_n self);
         Ok (<[cm.1 := u]> m)
  end.

(** [_clan_hashes], over the sequence [self.pfam.Clans(...)] yields. *)
Definition _clan_hashes (self : Catalog) (clans : list (string * list string))
  : result (gmap string (gset (Z * string))) :=
  foldl (clan_hashes_step self) (Ok ∅) clans.

End pfam.
End Pfam.

(** ** sifter.py *)

Module Sifter.

Definition SIFTS : string := "sifts".
Definition SEARCH : string := "search".
Definition ID : string := "id".
Definition FAMILY_HASH_SCORES : string := "family_hash_scores".
Definition NORMALISED_FAMILY_HASH_SCORES : string := "normalised_family_hash_scores".
Definition CLANS : string := "clans".
Definition ABSOLUTE_SIZES : string := "absolute_sizes".
Definition RELATIVE_SIZES : string := "relative_sizes".
Definition SEARCH_SIZE : string := "search_size".

(** References to the mutable objects: the packets (dictionaries) and their
    audit trails (lists). *)
Definition loc : Type := positive.

Section sifter.
(** The query family carried by a packet, and the repository object given
    to the scoring method. *)
Variable Search : Type.
Variable HashesT : Type.
(** [Clans().clan_for_family]: the clan of a family, or [None]. *)
Variable clan_for_family : string → option string.

(** The values of the fields of a packet.  The audit trail is a reference
    to a list; the dictionaries of scores, sizes and clans are built once
    and not updated afterwards. *)
Inductive value : Type :=
| VSearch (q : Search)
| VId (i : string)
| VRef (l : loc)
| VScores (m : gmap string Qc)
| VSizes (m : gmap string Z)
| VClans (m : gmap string (option string))
| VInt (z : Z).

(** A list holds the identities of the stages appended to it. *)
Inductive obj : Type :=
| ODict (d : gmap string value)
| OList (l : list positive).

(** The store of objects and, per [Terminator], its [results]. *)
Record state : Type := {
  heap : gmap loc obj;
  results : gmap positive (gmap string loc)
}.

Definition M (A : Type) : Type := state → result (A * state).

#[global] Instance M_ret : MRet M := λ _ a σ, Ok (a, σ).
#[global] Instance M_bind : MBind M := λ _ _ k m σ,
  match m σ with
  | Ok (a, σ') => k a σ'
  | Raise e => Raise e
  end.

Definition raise {A} (e : exn) : M A := λ _, Raise e.

Definition lift {A} (r : result A) : M A := λ σ,
  match r with
  | Ok a => Ok (a, σ)
  | Raise e => Raise e
  end.

Definition alloc (o : obj) : M loc := λ σ,
  let l := fresh (dom (heap σ)) in
  Ok (l, {| heap := <[l := o]> (heap σ); results := results σ |}).

Definition get_dict (data : loc) : M (gmap string value) := λ σ,
  match heap σ !! data with
  | Some (ODict d) => Ok (d, σ)
  | _ => Raise TypeError
  end.

(** [data[key]] *)
Definition getitem (data : loc) (key : string) : M value :=
  d ← get_dict data;
  match d !! key with
  | Some v => mret v
  | None => raise KeyError
  end.

(** [data[key] = v] *)
Definition setitem (data : loc) (key : string) (v : value) : M unit := λ σ,
  match heap σ !! data with
  | Some (ODict d) =>
      Ok ((), {| heap := <[data := ODict (<[key := v]> d)]> (heap σ);
                 results := results σ |})
  | _ => Raise TypeError
  end.

(** [v.append(x)] *)
Definition append (v : value) (x : positive) : M unit := λ σ,
  match v with
  | VRef l =>
      match heap σ !! l with
      | Some (OList xs) =>
          Ok ((), {| heap := <[l := OList (xs ++ [x])]> (heap σ);
                     results := results σ |})
      | _ => Raise AttributeError
      end
  | _ => Raise AttributeError
  end.

Definition as_search (v : value) : M Search :=
  match v with VSearch q => mret q | _ => raise TypeError end.

Definition as_scores (v : value) : M (gmap string Qc) :=
  match v with VScores m => mret m | _ => raise AttributeError end.

(** [package(search, id_)] *)
Definition package (search : Search) (id_ : string) : M loc :=
  sifts ← alloc (OList []);
  alloc (ODict (<[SEARCH := VSearch search]>
                 (<[ID := VId id_]> (<[SIFTS := VRef sifts]> ∅)))).

(** The base class: the identity of the stage and its sinks by name; a sink
    is the [sift] method of another stage. *)
Record Sifter : Type := {
  self_id : positive;
  sinks : gmap string (loc → M unit)
}.

Definition _distribute_results (self : Sifter) (kwargs : list (string * loc))
  : M unit :=
  foldl (λ (m : M unit) '(sink, data),
           m;;
           match sinks self !! sink with
           | Some sift => sift data
           | None => raise KeyError
           end) (mret ()) kwargs.

(** [Sifter.sift]: [copy.copy(data)] is a new dictionary with the same
    values, so [out_data[SIFTS]] is the list [data[SIFTS]] refers to. *)
Definition Sifter_sift (self : Sifter) (data : loc) : M loc :=
  d ← get_dict data;
  out_data ← alloc (ODict d);
  sifts ← getitem out_data SIFTS;
  append sifts (self_id self);;
  mret out_data.

(** [sum(...)] of booleans. *)
Definition sum_bool (l : list bool) : nat :=
  sum_list ((λ b : bool, if b then 1%nat else 0%nat) <$> l).

(** [d.values()] *)
Definition values {B} (d : gmap string B) : list B := (map_to_list d).*2.

(** [{k: f(k, v) for k, v in d.items()}], where [f] may raise. *)
Definition dict_comp {B C} (f : string → B → result C) (d : gmap string B)
  : result (gmap string C) :=
  l ← mapM (λ kv : string * B, c ← f kv.1 kv.2; mret (kv.1, c)) (map_to_list d);
  mret (list_to_map l).

(** *** HashSifter *)

Record HashSifter : Type := {
  hs_base : Sifter;
  hashes : HashesT;
  sift_method : Search → HashesT → gmap string Qc;
  low_threshold : Qc;
  high_threshold : Qc
}.

Definition HashSifter_init (hashes : HashesT) (low_threshold high_threshold : Qc)
  (self : positive) (low_sink high_sink other_sink : loc → M unit)
  (sift_method : option (Search → HashesT → gmap string Qc))
  : result HashSifter :=
  match sift_method with
  | None => Raise RuntimeError
  | Some m =>
      Ok {| hs_base := {| self_id := self;
                          sinks := <["low_sink" := low_sink]>
                                     (<["high_sink" := high_sink]>
                                        (<["other_sink" := other_sink]> ∅)) |};
            hashes := hashes;
            sift_method := m;
            low_threshold := low_threshold;
            high_threshold := high_threshold |}
  end.

(** The name of the sink the [if]/[elif]/[else] of [HashSifter.sift] hands
    [out_data] to. *)
Definition HashSifter_route (self : HashSifter) (scores : gmap string Qc)
  : result string :=
  all_low ← reduce andb
    ((λ v, bool_decide (v ≤ low_threshold self)%Qc) <$> values scores);
  if all_low : bool then Ok "low_sink"
  else
    any_high ← reduce orb
      ((λ v, bool_decide (high_threshold self ≤ v)%Qc) <$> values scores);
    if (any_high : bool)
       && bool_decide (sum_bool ((λ v, bool_decide (low_threshold self ≤ v)%Qc)
                                   <$> values scores) = 1%nat)
    then Ok "high_sink"
    else Ok "other_sink".

(** The routing rule in the words of the specification: [low_sink] if every
    catalog score is [<= low]; else [high_sink] if at least one score is
    [>= high] and exactly one catalog entry has a score [>= low]; otherwise
    [other_sink]. *)
Definition HashSifter_route_spec (low high : Qc) (scores : gmap string Qc)
  : string :=
  if decide (map_Forall (λ _ v, (v ≤ low)%Qc) scores) then "low_sink"
  else if decide (map_Exists (λ _ v, (high ≤ v)%Qc) scores
                  ∧ size (filter (λ fs, (low ≤ fs.2)%Qc) scores) = 1%nat)
  then "high_sink"
  else "other_sink".

Definition HashSifter_sift (self : HashSifter) (data : loc) : M unit :=
  out_data ← Sifter_sift (hs_base self) data;
  search ← getitem data SEARCH ≫= as_search;
  let scores := sift_method self search (hashes self) in
  setitem out_data FAMILY_HASH_SCORES
    (VScores (filter (λ fs, (0 < fs.2)%Qc) scores));;
  sink ← lift (HashSifter_route self scores);
  _distribute_results (hs_base self) [(sink, out_data)].

(** *** Terminator *)

(** [self.results[k] = out_data] *)
Definition store_result (self : Sifter) (k : string) (out_data : loc) : M unit :=
  λ σ,
    Ok ((), {| heap := heap σ;
               results := <[self_id self :=
                              <[k := out_data]>
                                (default ∅ (results σ !! self_id self))]>
                            (results σ) |}).

(** The identifiers of the packets are strings. *)
Definition Terminator_sift (self : Sifter) (data : loc) : M unit :=
  out_data ← Sifter_sift self data;
  i ← getitem data ID;
  match i with
  | VId k => store_result self k out_data
  | _ => raise TypeError
  end.

Definition Terminator (self : positive) : Sifter :=
  {| self_id := self; sinks := ∅ |}.

(** *** ClanSifter *)

Record ClanSifter : Type := {
  cs_base : Sifter;
  threshold : Qc
}.

Definition ClanSifter_init (threshold : Qc) (self : positive)
  (same_sink different_sink : loc → M unit) : ClanSifter :=
  {| cs_base := {| self_id := self;
                   sinks := <["same_sink" := same_sink]>
                              (<["different_sink" := different_sink]> ∅) |};
     threshold := threshold |}.

(** [None not in clans]: [in] looks among the keys of the dictionary, which
    are accessions. *)
Definition not_in_keys {B} (k : option string) (d : gmap string B) : bool :=
  match k with
  | None => true
  | Some k' => bool_decide (k' ∉ dom d)
  end.

Definition ClanSifter_sift (self : ClanSifter) (data : loc) : M unit :=
  out_data ← Sifter_sift (cs_base self) data;
  scores ← getitem data FAMILY_HASH_SCORES ≫= as_scores;
  let threshold_families := filter (λ fs, (threshold self < fs.2)%Qc) scores in
  (if decide (size threshold_families ≤ 1)%nat
   then _distribute_results (cs_base self) [("same_sink", out_data)]
   else mret ());;
  let clans := map_imap (λ f _, Some (clan_for_family f)) threshold_families in
  setitem out_data CLANS (VClans clans);;
  if bool_decide (size (list_to_set (values clans) : gset (option string)) = 1%nat)
     && not_in_keys None clans
  then _distribute_results (cs_base self) [("same_sink", out_data)]
  else _distribute_results (cs_base self) [("different_sink", out_data)].

(** *** SizeSifter *)

(** A [Sizes] object: the size of every catalog entry and the method that
    measures a query. *)
Record Sizes : Type := {
  sizes : gmap string Z;
  size_method : Search → Z
}.

Record SizeSifter : Type := {
  ss_base : Sifter;
  abs_threshold : option Qc;
  rel_threshold : option Qc;
  ss_sizes : Sizes
}.

Definition SizeSifter_init (sizes : Sizes) (self : positive)
  (bigger_sink smaller_sink : loc → M unit)
  (abs_threshold rel_threshold : option Qc) : result SizeSifter :=
  match abs_threshold, rel_threshold with
  | None, None => Raise ValueError
  | _, _ =>
      Ok {| ss_base := {| self_id := self;
                          sinks := <["bigger_sink" := bigger_sink]>
                                     (<["smaller_sink" := smaller_sink]> ∅) |};
            abs_threshold := abs_threshold;
            rel_threshold := rel_threshold;
            ss_sizes := sizes |}
  end.

(** [sizes[f]] *)
Definition size_of (s : Sizes) (f : string) : result Z :=
  match sizes s !! f with
  | Some z => Ok z
  | None => Raise KeyError
  end.

(** The value of [bigger] when the [if] on it is reached. *)
Definition SizeSifter_bigger (self : SizeSifter)
  (abs_sizes : gmap string Z) (rel_sizes : gmap string Qc) : bool :=
  let bigger := true in
  let bigger :=
    match abs_threshold self with
    | Some th =>
        if decide (0 < sum_bool ((λ s, bool_decide (Qc_of_Z s < th)%Qc)
                                   <$> values abs_sizes))%nat
        then bigger || false else bigger
    | None => bigger
    end in
  match rel_threshold self with
  | Some th =>
      if decide (0 < sum_bool ((λ r, bool_decide (r < th)%Qc)
                                 <$> values rel_sizes))%nat
      then bigger || false else bigger
  | None => bigger
  end.

Definition SizeSifter_sift (self : SizeSifter) (data : loc) : M unit :=
  out_data ← Sifter_sift (ss_base self) data;
  scores ← getitem data FAMILY_HASH_SCORES ≫= as_scores;
  abs_sizes ← lift (dict_comp (λ f _, size_of (ss_sizes self) f) scores);
  setitem out_data ABSOLUTE_SIZES (VSizes abs_sizes);;
  search ← getitem data SEARCH ≫= as_search;
  let search_size := size_method (ss_sizes self) search in
  setitem out_data SEARCH_SIZE (VInt search_size);;
  rel_sizes ← lift (dict_comp (λ _ s, num_div (Qc_of_Z search_size) (Qc_of_Z s))
                              abs_sizes);
  setitem out_data RELATIVE_SIZES (VScores rel_sizes);;
  normalised_scores ← lift (dict_comp
    (λ f s, z ← size_of (ss_sizes self) f;
            num_div (s * Qc_of_Z z)%Qc (Qc_of_Z search_size))
    (filter (λ fs, (0 < fs.2)%Qc) scores));
  setitem out_data NORMALISED_FAMILY_HASH_SCORES (VScores normalised_scores);;
  if SizeSifter_bigger self abs_sizes rel_sizes
  then _distribute_results (ss_base self) [("bigger_sink", out_data)]
  else _distribute_results (ss_base self) [("smaller_sink", out_data)].

(** *** NewFamilySifter *)

Record NewFamilySifter : Type := {
  nf_base : Sifter;
  nf_abs_threshold : Qc;
  nf_rel_threshold : Qc
}.

Definition NewFamilySifter_init (self : positive)
  (new_sink other_sink : loc → M unit) (abs_threshold rel_threshold : Qc)
  : NewFamilySifter :=
  {| nf_base := {| self_id := self;
                   sinks := <["new_sink" := new_sink]>
                              (<["other_sink" := other_sink]> ∅) |};
     nf_abs_threshold := abs_threshold;
     nf_rel_threshold := rel_threshold |}.

Definition as_int (v : value) : M Z :=
  match v with VInt z => mret z | _ => raise TypeError end.

Definition NewFamilySifter_sift (self : NewFamilySifter) (data : loc) : M unit :=
  out_data ← Sifter_sift (nf_base self) data;
  search_size ← getitem data SEARCH_SIZE ≫= as_int;
  normalised_scores ← getitem data NORMALISED_FAMILY_HASH_SCORES ≫= as_scores;
  if decide (Qc_of_Z search_size < nf_abs_threshold self)%Qc
  then _distribute_results (nf_base self) [("other_sink", out_data)]
  else if decide (0 < length (filter (λ s, (nf_rel_threshold self < s)%Qc)
                                     (values normalised_scores)))%nat
  then _distribute_results (nf_base self) [("other_sink", out_data)]
  else _distribute_results (nf_base self) [("new_sink", out_data)].

(** *** BiggerBetterSifter *)

Definition BiggerBetterSifter_sift (self : Sifter) (data : loc) : M unit :=
  out_data ← Sifter_sift self data;
  mret ().

End sifter.
End Sifter.

(** * Properties *)

(** Membership in a list given by its members. *)
Ltac list_in := rewrite ?elem_of_app, ?elem_of_cons; intuition auto.

(** ** The interval functions *)

Section intervals_facts.
Import Intervals.

#[local] Instance key_le_total : Total key_le.
Proof. intros [s1 t1] [s2 t2]. unfold key_le; simpl. lia. Qed.

#[local] Instance key_le_trans : Transitive key_le.
Proof. intros [s1 t1] [s2 t2] [s3 t3]. unfold key_le; simpl. lia. Qed.

#[local] Instance key_le_antisymm : AntiSymm (=) key_le.
Proof.
  intros [s1 t1] [s2 t2]. unfold key_le; simpl. intros ??.
  f_equal; lia.
Qed.

Lemma snoc_cases {A} (l : list A) : l = [] ∨ ∃ l' x, l = l' ++ [x].
Proof. induction l using rev_ind; eauto. Qed.

Lemma merge_step_nil r : merge_step [] r = [r].
Proof. reflexivity. Qed.

Lemma merge_step_snoc u r1 r2 :
  merge_step (u ++ [r1]) r2 =
  if decide (0 < range_len (overlap (start r1) (stop r1 - 1)
                                    (start r2) (stop r2 - 1))
             ∨ stop r1 = start r2)
  then u ++ [Range (Z.min (start r1) (start r2)) (Z.max (stop r1) (stop r2))]
  else u ++ [r1; r2].
Proof.
  unfold merge_step. rewrite last_snoc, removelast_last.
  case_decide; [done|]. by rewrite <-app_assoc.
Qed.

(** The sorted sequence of ranges does not depend on the order in which
    the collection is iterated. *)
Lemma sorted_ranges_Permutation l1 l2 :
  l1 ≡ₚ l2 → merge_sort key_le l1 = merge_sort key_le l2.
Proof.
  intros Hp. apply (Sorted_unique key_le).
  - apply Sorted_merge_sort, _.
  - apply Sorted_merge_sort, _.
  - by rewrite !merge_sort_Permutation.
Qed.

Lemma merge_ranges_Permutation l1 l2 :
  l1 ≡ₚ l2 → _merge_ranges l1 = _merge_ranges l2.
Proof. intros Hp. unfold _merge_ranges. by rewrite (sorted_ranges_Permutation l1 l2). Qed.

Lemma covers_app l1 l2 z : covers (l1 ++ l2) z ↔ covers l1 z ∨ covers l2 z.
Proof. apply list.Exists_app. Qed.

Lemma covers_cons r l z : covers (r :: l) z ↔ in_range z r ∨ covers l z.
Proof. apply Exists_cons. Qed.

Lemma covers_nil z : ¬ covers [] z.
Proof. unfold covers. intros Hc. by inversion Hc. Qed.

Lemma covers_singleton r z : covers [r] z ↔ in_range z r.
Proof. rewrite covers_cons. pose proof (covers_nil z). tauto. Qed.

Lemma separated_snoc u r :
  separated (u ++ [r]) ↔
  separated u ∧ start r < stop r ∧ Forall (λ x, stop x < start r) u.
Proof.
  induction u as [|x u IH]; simpl.
  - pose proof (Forall_nil_2 (λ x, stop x < start r)).
    pose proof (Forall_nil_2 (λ r', stop r < start r')). tauto.
  - rewrite IH, list.Forall_app, Forall_singleton, list.Forall_cons. tauto.
Qed.

(** The loop keeps the points: on a sequence sorted by start, one turn of
    [merge_step] adds exactly the points of the range it consumes. *)
Lemma merge_step_covers u r z :
  (∀ x, x ∈ u → start x ≤ start r) →
  covers (merge_step u r) z ↔ covers u z ∨ in_range z r.
Proof.
  intros Hle. destruct (snoc_cases u) as [->|(u' & r1 & ->)].
  - rewrite merge_step_nil, covers_singleton. pose proof (covers_nil z). tauto.
  - rewrite merge_step_snoc.
    assert (Hr1 : start r1 ≤ start r) by (apply Hle; list_in).
    case_decide as Hc.
    + rewrite !covers_app, !covers_singleton.
      assert (in_range z (Range (Z.min (start r1) (start r))
                                (Z.max (stop r1) (stop r)))
              ↔ in_range z r1 ∨ in_range z r) as ->; [|tauto].
      destruct r1 as [s1 t1], r as [s2 t2].
      unfold in_range, range_len, overlap in *; simpl in *. lia.
    + rewrite !covers_app, !covers_cons.
      pose proof (covers_nil z). tauto.
Qed.

Lemma merge_step_starts u r (b : Z) :
  (∀ x, x ∈ u → start x ≤ b) → start r ≤ b →
  ∀ x, x ∈ merge_step u r → start x ≤ b.
Proof.
  intros Hu Hr x. destruct (snoc_cases u) as [->|(u' & r1 & ->)].
  - rewrite merge_step_nil, list_elem_of_singleton. by intros ->.
  - rewrite merge_step_snoc.
    assert (Hr1 : start r1 ≤ b) by (apply Hu; list_in).
    case_decide.
    + rewrite elem_of_app, list_elem_of_singleton. intros [?| ->].
      * apply Hu; list_in.
      * simpl. lia.
    + rewrite elem_of_app, !elem_of_cons. intros [?|[->|[->|?%elem_of_nil]]];
        [apply Hu; list_in|done..].
Qed.

Lemma foldl_merge_step_covers l : ∀ u z,
  StronglySorted key_le l →
  (∀ x r, x ∈ u → r ∈ l → start x ≤ start r) →
  covers (foldl merge_step u l) z ↔ covers u z ∨ covers l z.
Proof.
  induction l as [|r l IH]; intros u z Hs Hu; simpl.
  - pose proof (covers_nil z). tauto.
  - apply StronglySorted_inv in Hs as [Hs Hr].
    rewrite IH; [|done|].
    + rewrite merge_step_covers, covers_cons; [tauto|].
      intros x Hx. apply Hu; list_in.
    + intros x r' Hx Hr'. revert x Hx. apply merge_step_starts.
      * intros x Hx. apply Hu; list_in.
      * apply (proj1 (list.Forall_forall _ _) Hr) in Hr'.
        unfold key_le in Hr'. lia.
Qed.

Lemma merge_ranges_covers ranges z :
  covers (_merge_ranges ranges) z ↔ covers ranges z.
Proof.
  unfold _merge_ranges. rewrite foldl_merge_step_covers.
  - pose proof (covers_nil z). unfold covers at 2 3.
    rewrite (merge_sort_Permutation key_le ranges). unfold covers in *. tauto.
  - apply StronglySorted_merge_sort; apply _.
  - by intros x r ?%elem_of_nil.
Qed.


Lemma separated_elem r u x : separated (r :: u) → x ∈ u → stop r < start x.
Proof. intros (_ & Hf & _) Hx. by apply (proj1 (list.Forall_forall _ _) Hf). Qed.

Lemma separated_nonempty u x : separated u → x ∈ u → start x < stop x.
Proof.
  induction u as [|r u IH]; simpl.
  - by intros _ ?%elem_of_nil.
  - intros (? & _ & ?) [->|?]%elem_of_cons; auto.
Qed.

(** One turn of the loop keeps the result so far sorted, disjoint and
    non-adjacent, when the range it consumes is not empty and starts no
    earlier than the ranges seen before. *)
Lemma merge_step_separated u r :
  separated u → start r < stop r →
  (∀ x, x ∈ u → start x ≤ start r) →
  separated (merge_step u r).
Proof.
  intros Hsep Hne Hle. destruct (snoc_cases u) as [->|(u' & r1 & ->)].
  - rewrite merge_step_nil. simpl. auto.
  - rewrite merge_step_snoc.
    assert (Hr1 : start r1 ≤ start r) by (apply Hle; list_in).
    apply separated_snoc in Hsep as (Hu' & Hne1 & Hlt).
    case_decide as Hc.
    + apply separated_snoc. split; [done|]. simpl. split; [lia|].
      eapply list.Forall_impl; [exact Hlt|]. simpl. intros; lia.
    + change (u' ++ [r1; r]) with (u' ++ [r1] ++ [r]). rewrite app_assoc.
      assert (Hgap : stop r1 < start r).
      { destruct r1 as [s1 t1], r as [s2 t2].
        unfold range_len, overlap in *; simpl in *. lia. }
      apply separated_snoc. split; [by apply separated_snoc|]. split; [done|].
      apply list.Forall_app. split.
      * eapply list.Forall_impl; [exact Hlt|]. simpl. intros; lia.
      * by apply Forall_singleton.
Qed.

Lemma foldl_merge_step_separated l : ∀ u,
  StronglySorted key_le l →
  Forall (λ r, start r < stop r) l →
  separated u →
  (∀ x r, x ∈ u → r ∈ l → start x ≤ start r) →
  separated (foldl merge_step u l).
Proof.
  induction l as [|r l IH]; intros u Hs Hne Hsep Hu; simpl; [done|].
  apply StronglySorted_inv in Hs as [Hs Hr].
  apply list.Forall_cons in Hne as [Hner Hne].
  apply IH; [done..| |].
  - apply merge_step_separated; [done..|]. intros x Hx. apply Hu; list_in.
  - intros x r' Hx Hr'. revert x Hx. apply merge_step_starts.
    + intros x Hx. apply Hu; list_in.
    + apply (proj1 (list.Forall_forall _ _) Hr) in Hr'.
      unfold key_le in Hr'. lia.
Qed.

Lemma merge_ranges_separated ranges :
  Forall (λ r, start r < stop r) ranges → separated (_merge_ranges ranges).
Proof.
  intros Hne. unfold _merge_ranges. apply foldl_merge_step_separated.
  - apply StronglySorted_merge_sort; apply _.
  - by rewrite (merge_sort_Permutation key_le ranges).
  - done.
  - by intros x r ?%elem_of_nil.
Qed.

(** A separated list is the shortest list of ranges with its points. *)
Lemma separated_minimal u : ∀ l',
  separated u → (∀ z, covers l' z ↔ covers u z) →
  (length u ≤ length l')%nat.
Proof.
  induction u as [|r u IH]; intros l' Hsep Hcov; simpl; [lia|].
  pose proof Hsep as (Hne & Hgap & Hsep').
  set (l'' := filter (λ r', stop r ≤ start r') l').
  assert (Hlt : (length l'' < length l')%nat).
  { assert (Hc : covers l' (start r)).
    { apply Hcov, covers_cons. left. unfold in_range. lia. }
    apply list.Exists_exists in Hc as (r' & Hin & Hr').
    apply (length_filter_lt _ _ r'); [done|]. unfold in_range in Hr'. lia. }
  enough (length u ≤ length l'')%nat by lia.
  apply IH; [done|]. intros z. split.
  - intros Hc. apply list.Exists_exists in Hc as (r' & Hin & Hr').
    apply list_elem_of_filter in Hin as [Hge Hin].
    assert (Hz : covers (r :: u) z).
    { apply Hcov, list.Exists_exists. eauto. }
    apply covers_cons in Hz as [Hz|Hz]; [|done].
    unfold in_range in *. lia.
  - intros Hc. pose proof Hc as Hc0.
    apply list.Exists_exists in Hc as (x & Hin & Hx).
    pose proof (separated_elem _ _ _ Hsep Hin) as Hxr.
    assert (Hz : covers l' z) by (apply Hcov, covers_cons; auto).
    apply list.Exists_exists in Hz as (r' & Hin' & Hr').
    apply list.Exists_exists. exists r'. split; [|done].
    apply list_elem_of_filter. split; [|done].
    destruct (decide (stop r ≤ start r')) as [|Hn]; [done|]. exfalso.
    assert (Hs : covers (r :: u) (stop r)).
    { apply Hcov, list.Exists_exists. exists r'. split; [done|].
      unfold in_range in *. lia. }
    apply covers_cons in Hs as [Hs|Hs].
    + unfold in_range in Hs. lia.
    + apply list.Exists_exists in Hs as (y & Hy & Hys).
      pose proof (separated_elem _ _ _ Hsep Hy). unfold in_range in Hys. lia.
Qed.

Lemma separated_sorted u : separated u → StronglySorted key_le u.
Proof.
  induction u as [|r u IH]; [constructor|].
  intros Hsep. pose proof Hsep as (Hne & Hgap & Hsep').
  constructor; [auto|].
  apply list.Forall_forall. intros x Hx.
  pose proof (separated_elem _ _ _ Hsep Hx). unfold key_le. lia.
Qed.

Lemma foldl_merge_step_id u : ∀ p r,
  separated (r :: u) → foldl merge_step (p ++ [r]) u = p ++ r :: u.
Proof.
  induction u as [|r2 u IH]; intros p r Hsep; simpl; [done|].
  pose proof Hsep as (Hne & Hgap & Hsep').
  pose proof Hsep' as (Hne2 & _ & _).
  apply list.Forall_cons in Hgap as [Hgap _].
  rewrite merge_step_snoc. rewrite decide_False.
  - change (p ++ [r; r2]) with (p ++ [r] ++ [r2]). rewrite app_assoc.
    rewrite IH by done. by rewrite <-app_assoc.
  - destruct r as [s1 t1], r2 as [s2 t2].
    unfold range_len, overlap in *; simpl in *. lia.
Qed.

(** [_merge_ranges] leaves a separated list as it is. *)
Lemma merge_ranges_separated_id u : separated u → _merge_ranges u = u.
Proof.
  intros Hsep. unfold _merge_ranges.
  assert (merge_sort key_le u = u) as ->.
  { apply (Sorted_unique key_le).
    - apply Sorted_merge_sort, _.
    - by apply StronglySorted_Sorted, separated_sorted.
    - apply merge_sort_Permutation. }
  destruct u as [|r u]; [done|]. simpl. rewrite merge_step_nil.
  apply (foldl_merge_step_id u [] r Hsep).
Qed.

End intervals_facts.

(** C5 (amended).  For every finite collection of non-empty ranges,
    [_merge_ranges] returns a list that covers the same points as the input,
    is sorted by [(start, stop)], whose ranges are non-empty, pairwise
    disjoint and non-adjacent (each ends strictly before every later one
    starts), that no list of ranges with the same points is shorter than,
    and that [_merge_ranges] maps to itself. *)
Theorem merge_ranges_nonempty_correct (ranges : list Intervals.range)
  (Hne : Forall (λ r, Intervals.start r < Intervals.stop r) ranges) :
  (∀ z, Intervals.covers (Intervals._merge_ranges ranges) z
        ↔ Intervals.covers ranges z) ∧
  StronglySorted Intervals.key_le (Intervals._merge_ranges ranges) ∧
  Intervals.separated (Intervals._merge_ranges ranges) ∧
  (∀ l', (∀ z, Intervals.covers l' z ↔ Intervals.covers ranges z) →
         (length (Intervals._merge_ranges ranges) ≤ length l')%nat) ∧
  Intervals._merge_ranges (Intervals._merge_ranges ranges)
    = Intervals._merge_ranges ranges.
Proof.
  pose proof (merge_ranges_separated ranges Hne) as Hsep.
  split; [apply merge_ranges_covers|].
  split; [by apply separated_sorted|].
  split; [done|]. split.
  - intros l' Hcov. apply separated_minimal; [done|].
    intros z. by rewrite Hcov, merge_ranges_covers.
  - by apply merge_ranges_separated_id.
Qed.

Lemma merge_ranges_nonempty_correct_witness :
  let ranges := [Intervals.Range 8 10; Intervals.Range 0 5; Intervals.Range 3 6] in
  Intervals._merge_ranges ranges = [Intervals.Range 0 6; Intervals.Range 8 10] ∧
  Intervals._merge_ranges (Intervals._merge_ranges ranges)
    = Intervals._merge_ranges ranges.
Proof.
  intros ranges. split; [reflexivity|].
  apply (merge_ranges_nonempty_correct ranges).
  unfold ranges. repeat constructor; simpl; lia.
Defined.

(** C5 as worded fails on collections with zero-length ranges.  For
    [[range(0, 0), range(0, 0)]] the result is [[range(0, 0)]], as the last
    row of [test_overlap] has it: the empty list has the same points and is
    shorter, so the result is not minimal, and its only range is empty. *)
Lemma merge_ranges_zero_length_kept :
  let ranges := [Intervals.Range 0 0; Intervals.Range 0 0] in
  Intervals._merge_ranges ranges = [Intervals.Range 0 0] ∧
  ¬ (∀ l', (∀ z, Intervals.covers l' z ↔ Intervals.covers ranges z) →
           (length (Intervals._merge_ranges ranges) ≤ length l')%nat) ∧
  ¬ Intervals.separated (Intervals._merge_ranges ranges).
Proof.
  intros ranges.
  assert (H1 : Intervals._merge_ranges ranges = [Intervals.Range 0 0])
    by reflexivity.
  split; [done|]. split.
  - intros Hmin. specialize (Hmin []). rewrite H1 in Hmin. simpl in Hmin.
    assert (1 ≤ 0)%nat; [|lia]. apply Hmin.
    intros z. unfold Intervals.covers, ranges.
    rewrite !List.Exists_cons, !List.Exists_nil. unfold Intervals.in_range.
    simpl. lia.
  - rewrite H1. simpl. lia.
Qed.

(** A zero-length range between two overlapping ranges keeps them apart,
    against the comment of [_merge_ranges] (the fewest range objects
    possible): for [[range(0, 10), range(3, 3), range(3, 8)]] the result
    [[range(0, 10), range(3, 8)]] is not disjoint, and merging it again
    gives [[range(0, 10)]]. *)
Lemma merge_ranges_zero_length_not_idempotent :
  let ranges := [Intervals.Range 0 10; Intervals.Range 3 3; Intervals.Range 3 8] in
  Intervals._merge_ranges ranges = [Intervals.Range 0 10; Intervals.Range 3 8] ∧
  Intervals._merge_ranges (Intervals._merge_ranges ranges) = [Intervals.Range 0 10] ∧
  ¬ Intervals.separated (Intervals._merge_ranges ranges) ∧
  Intervals._merge_ranges (Intervals._merge_ranges ranges)
    ≠ Intervals._merge_ranges ranges.
Proof.
  intros ranges.
  assert (H1 : Intervals._merge_ranges ranges
               = [Intervals.Range 0 10; Intervals.Range 3 8]) by reflexivity.
  assert (H2 : Intervals._merge_ranges (Intervals._merge_ranges ranges)
               = [Intervals.Range 0 10]) by reflexivity.
  split; [done|]. split; [done|]. split.
  - rewrite H1. simpl. intros (_ & Hf & _).
    apply list.Forall_cons in Hf as [Hf _]. simpl in Hf. lia.
  - rewrite H2, H1. discriminate.
Qed.

(** ** Exact Jaccard index and containment *)

Section jaccard_facts.
Context `{Countable A}.
Import Jaccard.

Lemma zero_on_divide_true_div {X} (f g : X → nat) x :
  _zero_on_divide_by_zero (λ x, true_div (f x) (g x)) x = Ok (ratio0 (f x) (g x)).
Proof.
  unfold _zero_on_divide_by_zero, true_div, ratio0.
  destruct (g x); by case_decide.
Qed.

Lemma jaccard_ratio (s t : list A) :
  jaccard s t =
  Ok (ratio0 (size (list_to_set s ∩ list_to_set t : gset A))
             (size (list_to_set s ∪ list_to_set t : gset A))).
Proof.
  unfold jaccard, jaccard_body.
  apply (zero_on_divide_true_div
           (λ st, size (list_to_set st.1 ∩ list_to_set st.2 : gset A))
           (λ st, size (list_to_set st.1 ∪ list_to_set st.2 : gset A)) (s, t)).
Qed.

End jaccard_facts.

(** C1 (amended).  [jaccard_containment s t] never raises; it returns
    [|s ∩ t| / |s|], the share of [s] found in [t], and [0] when [s] is
    empty. *)
Theorem jaccard_containment_over_s `{Countable A} (s t : list A) :
  Jaccard.jaccard_containment s t = Ok (Jaccard.containment_over_s s t).
Proof.
  unfold Jaccard.jaccard_containment, Jaccard.jaccard_containment_body,
    Jaccard.containment_over_s.
  apply (zero_on_divide_true_div
           (λ st, size (list_to_set st.1 ∩ list_to_set st.2 : gset A))
           (λ st, size (list_to_set st.1 : gset A)) (s, t)).
Qed.

(** C1 as worded fails: for [s = {1, 2}] and [t = {2}] the code returns
    [1/2] (the first row of [test_jaccard_containment]), while
    [|s ∩ t| / |t|] is [1]. *)
Lemma jaccard_containment_not_over_t :
  Jaccard.jaccard_containment [1; 2] [2] = Ok (Qc_of_Z 1 / Qc_of_Z 2)%Qc ∧
  Jaccard.containment_over_t [1; 2] [2] = 1%Qc ∧
  Jaccard.jaccard_containment [1; 2] [2]
    ≠ Ok (Jaccard.containment_over_t [1; 2] [2]).
Proof.
  assert (H1 : Jaccard.jaccard_containment [1; 2] [2]
               = Ok (Qc_of_Z 1 / Qc_of_Z 2)%Qc) by (by vm_compute).
  assert (H2 : Jaccard.containment_over_t [1; 2] [2] = 1%Qc) by (by vm_compute).
  split; [done|]. split; [done|].
  rewrite H1, H2. by intros [=].
Qed.

(** ** MinHash *)

Section minhash_facts.
Context `{Countable A}.
Variable le : relation A.
Context `{!RelDecision le}.
Variable hash_function : A → Z.
Import Minhash.

Abbreviation tag := (λ e : A, (hash_function e, e)).

#[local] Instance tag_inj : Inj (=) (=) tag.
Proof. by intros x y [= _ ->]. Qed.

Lemma slice_to_all {B} (l : list B) (n : Z) :
  Z.of_nat (length l) ≤ n → slice_to l n = l.
Proof.
  intros Hn. unfold slice_to. rewrite decide_True by lia.
  apply take_ge. lia.
Qed.

(** A signature at least as long as the set keeps every tagged element. *)
Lemma signature_all (s : list A) (n : Z) :
  Z.of_nat (length s) ≤ n →
  signature le hash_function s n = list_to_set (tag <$> s).
Proof.
  intros Hn. unfold signature, sorted.
  rewrite slice_to_all.
  - apply set_eq. intros p. rewrite !elem_of_list_to_set.
    by rewrite merge_sort_Permutation.
  - by rewrite merge_sort_Permutation, length_fmap.
Qed.

Lemma tagged_set (s : list A) :
  (list_to_set (tag <$> s) : gset (Z * A)) = set_map tag (list_to_set s : gset A).
Proof.
  apply set_eq. intros p.
  rewrite elem_of_list_to_set, elem_of_map, list_elem_of_fmap.
  setoid_rewrite elem_of_list_to_set. naive_solver.
Qed.

Lemma size_tagged (X : gset A) : size (set_map tag X : gset (Z * A)) = size X.
Proof.
  unfold set_map. rewrite size_list_to_set, length_fmap; [done|].
  apply (NoDup_fmap_2 _), NoDup_elements.
Qed.

Lemma tagged_union (X Y : gset A) :
  (set_map tag X ∪ set_map tag Y : gset (Z * A)) = set_map tag (X ∪ Y).
Proof. by rewrite set_map_union_L. Qed.

Lemma tagged_intersection (X Y : gset A) :
  (set_map tag X ∩ set_map tag Y : gset (Z * A)) = set_map tag (X ∩ Y).
Proof.
  apply set_eq. intros p. rewrite elem_of_intersection, !elem_of_map.
  setoid_rewrite elem_of_intersection. split.
  - intros [(x & -> & Hx) (y & [= _ <-] & Hy)]. by exists x.
  - intros (x & -> & Hx & Hy). split; by exists x.
Qed.

Lemma union_signature_all (s t : gset (Z * A)) (n : Z) :
  Z.of_nat (size (s ∪ t)) ≤ n → union_signature le [s; t] n = Ok (s ∪ t).
Proof.
  intros Hn. unfold union_signature, sorted. f_equal.
  rewrite slice_to_all.
  - apply set_eq. intros p. rewrite elem_of_list_to_set.
    by rewrite merge_sort_Permutation, elem_of_elements.
  - by rewrite merge_sort_Permutation.
Qed.

Lemma minhash_ratio (s t X : gset (Z * A)) (n : Z) :
  union_signature le [s; t] n = Ok X →
  minhash le s t n = Ok (Jaccard.ratio0 (size (X ∩ s ∩ t)) (size X)).
Proof.
  intros HX. unfold minhash, minhash_body, _zero_on_divide_by_zero.
  rewrite HX. simpl. unfold true_div, Jaccard.ratio0.
  destruct (size X); by case_decide.
Qed.

Lemma length_le_size_union (S T : list A) :
  NoDup S →
  (length S ≤ size (list_to_set S ∪ list_to_set T : gset A))%nat.
Proof.
  intros HS. rewrite <-(size_list_to_set (C:=gset A) S HS).
  apply subseteq_size, union_subseteq_l.
Qed.

End minhash_facts.

(** C7.  For finite sets [S] and [T] (given by the sequences of their
    distinct members) whose union has at most [n] members, the MinHash
    estimate computed from the two signatures of length [n] is the exact
    Jaccard index of [S] and [T]; and [minhash] returns [0] whenever the
    union signature is empty. *)
Theorem minhash_exact_jaccard `{Countable A} (le : relation A)
  `{!RelDecision le} (hash_function : A → Z) (S T : list A) (n : Z)
  (HS : NoDup S) (HT : NoDup T)
  (Hn : Z.of_nat (size (list_to_set S ∪ list_to_set T : gset A)) ≤ n) :
  Minhash.minhash le (Minhash.signature le hash_function S n)
                     (Minhash.signature le hash_function T n) n
    = Jaccard.jaccard S T
  ∧ (∀ (s t : gset (Z * A)) (m : Z),
       Minhash.union_signature le [s; t] m = Ok ∅ →
       Minhash.minhash le s t m = Ok 0%Qc).
Proof.
  split.
  - pose proof (length_le_size_union S T HS) as HlS.
    pose proof (length_le_size_union T S HT) as HlT.
    rewrite (comm_L (∪)) in HlT.
    rewrite !signature_all by lia. rewrite !tagged_set.
    set (s := set_map _ (list_to_set S : gset A) : gset (Z * A)).
    set (t := set_map _ (list_to_set T : gset A) : gset (Z * A)).
    assert (Hsz : size (s ∪ t) = size (list_to_set S ∪ list_to_set T : gset A)).
    { unfold s, t. by rewrite tagged_union, size_tagged. }
    assert (HX : Minhash.union_signature le [s; t] n = Ok (s ∪ t)).
    { apply union_signature_all. by rewrite Hsz. }
    rewrite (minhash_ratio le s t _ n HX), jaccard_ratio, Hsz.
    do 3 f_equal. replace ((s ∪ t) ∩ s ∩ t) with (s ∩ t) by set_solver.
    unfold s, t. by rewrite tagged_intersection, size_tagged.
  - intros s t m HX. rewrite (minhash_ratio le s t ∅ m HX).
    by rewrite size_empty.
Qed.

Lemma minhash_exact_jaccard_witness :
  Minhash.minhash Z.le (Minhash.signature Z.le (λ e, e * 7 mod 5) [1; 2] 5)
                       (Minhash.signature Z.le (λ e, e * 7 mod 5) [2; 3] 5) 5
    = Jaccard.jaccard [1; 2] [2; 3].
Proof.
  apply (minhash_exact_jaccard Z.le (λ e, e * 7 mod 5) [1; 2] [2; 3] 5).
  - exact (bool_decide_unpack (NoDup [1; 2]) I).
  - exact (bool_decide_unpack (NoDup [2; 3]) I).
  - by vm_compute.
Defined.

(** ** Family: the memoized signature and full hash *)

Section family_memo_facts.
Context {V : Type}.
Implicit Types (f : Family.Family V) (h : Family.Hashes V).

(** [add_region] empties [_signatures]: the next [signature] is computed
    from the regions the family has then. *)
Lemma add_region_signature_fresh f h acc s e f' :
  Family.add_region V f acc s e = Ok f' →
  (Family.signature V f' h).1 = Family.hashes_signature V h (Family._regions V f').
Proof.
  unfold Family.add_region. destruct (negb _); [|done].
  intros [= <-]. unfold Family.signature. simpl. by rewrite lookup_empty.
Qed.

(** [add_region] leaves [_fhashes] as it is: a full hash memoized before
    the call is what [full_hash] returns after it. *)
Lemma add_region_full_hash_kept f h v acc s e f' :
  Family._fhashes V f !! Family.hashes_id V h = Some v →
  Family.add_region V f acc s e = Ok f' →
  (Family.full_hash V f' h).1 = v.
Proof.
  intros Hv. unfold Family.add_region. destruct (negb _); [|done].
  intros [= <-]. unfold Family.full_hash. simpl. by rewrite Hv.
Qed.

Lemma full_hash_memoizes f h :
  Family._fhashes V (Family.full_hash V f h).2 !! Family.hashes_id V h
  = Some (Family.full_hash V f h).1.
Proof.
  unfold Family.full_hash.
  destruct (Family._fhashes V f !! Family.hashes_id V h) eqn:Hl; simpl; [done|].
  by rewrite lookup_insert_eq.
Qed.

End family_memo_facts.

(** C8 fails on the code.  With a [Hashes] repository [h]: a family gets
    the region [("a1", 10, 20)], [full_hash(h)] is called, the region
    [("a2", 10, 20)] is added, and [full_hash(h)] is called again.  The
    second call returns the set memoized by the first, which has the hash of
    ["a1"] only, while the full hash of the current regions has the hashes
    of ["a1"] and ["a2"].  [signature(h)] after the same steps is the fresh
    one. *)
Theorem full_hash_stale_after_add_region (crc : string → Z) :
  let h := Pfam.Hashes crc 1 100 in
  let V := gset (Z * string) in
  ∃ f1 f3 : Family.Family V,
    Family.add_region V (Family.new V) "a1" 10 20 = Ok f1 ∧
    Family.add_region V (Family.full_hash V (Family.signature V f1 h).2 h).2
                      "a2" 10 20 = Ok f3 ∧
    (Family.full_hash V f3 h).1 = {[ (crc "a1", "a1") ]} ∧
    Family.hashes_full_hash V h (Family._regions V f3)
      = {[ (crc "a1", "a1"); (crc "a2", "a2") ]} ∧
    (Family.full_hash V f3 h).1
      ≠ Family.hashes_full_hash V h (Family._regions V f3) ∧
    (Family.signature V f3 h).1
      = Family.hashes_signature V h (Family._regions V f3).
Proof.
  intros h V. subst V.
  set (m1 := <["a1" := [(10, 20)]]> ∅ : gmap string (list (Z * Z))).
  set (m2 := <["a2" := [(10, 20)]]> m1).
  set (f1 := {| Family._regions := m1; Family._signatures := ∅;
                Family._fhashes := ∅; Family._finalised := false |}
             : Family.Family (gset (Z * string))).
  set (f3 := {| Family._regions := m2; Family._signatures := ∅;
                Family._fhashes :=
                  <[1%positive := Family.hashes_full_hash _ h m1]> ∅;
                Family._finalised := false |}
             : Family.Family (gset (Z * string))).
  assert (H1 : Family.hashes_full_hash _ h m1 = {[ (crc "a1", "a1") ]}).
  { unfold h, Pfam.Hashes, Minhash.set_hashes, m1.
    cbn [Family.hashes_full_hash].
    rewrite insert_empty, map_to_list_singleton.
    apply set_eq. intros p.
    rewrite elem_of_list_to_set, !fmap_cons, !fmap_nil, list_elem_of_singleton.
    by rewrite elem_of_singleton. }
  assert (H2 : Family.hashes_full_hash _ h m2
               = {[ (crc "a1", "a1"); (crc "a2", "a2") ]}).
  { unfold h, Pfam.Hashes, Minhash.set_hashes.
    cbn [Family.hashes_full_hash].
    assert (Hk : (map_to_list m2).*1 ≡ₚ ["a2"; "a1"]).
    { unfold m2, m1. rewrite map_to_list_insert by done.
      by rewrite insert_empty, map_to_list_singleton. }
    apply set_eq. intros p. rewrite elem_of_list_to_set, Hk.
    rewrite !fmap_cons, fmap_nil, !elem_of_cons, elem_of_nil.
    rewrite elem_of_union, !elem_of_singleton. tauto. }
  assert (H3 : (Family.full_hash _ f3 h).1 = Family.hashes_full_hash _ h m1).
  { reflexivity. }
  exists f1, f3. split; [reflexivity|]. split; [reflexivity|].
  rewrite H3, H1. cbn [Family._regions f3]. rewrite H2.
  split; [done|]. split; [done|]. split.
  - intros Heq.
    assert (Hin : (crc "a2", "a2") ∈ ({[ (crc "a1", "a1") ]} : gset (Z * string))).
    { rewrite Heq, elem_of_union, !elem_of_singleton. by right. }
    apply elem_of_singleton in Hin. by injection Hin.
  - reflexivity.
Qed.

(** ** Family: the residue-level overlap *)

Section family_overlap_facts.
Import Intervals.

#[local] Instance region_le_total : Total Family.region_le.
Proof. intros [s1 e1] [s2 e2]. unfold Family.region_le; simpl. lia. Qed.

#[local] Instance region_le_trans : Transitive Family.region_le.
Proof. intros [s1 e1] [s2 e2] [s3 e3]. unfold Family.region_le; simpl. lia. Qed.

(** On a non-empty range, Python's equality of ranges is the equality of
    their bounds. *)
Lemma range_eq_nonempty o x : 0 < range_len o → range_eq o x ↔ o = x.
Proof. unfold range_eq. intros Ho. split; [|auto]. intros [[? _]|?]; [lia|done]. Qed.

Lemma elem_of_rangeset_add o s x :
  0 < range_len o → x ∈ rangeset_add o s ↔ x = o ∨ x ∈ s.
Proof.
  intros Ho. unfold rangeset_add. case_decide as He.
  - apply list.Exists_exists in He as (y & Hy & Hoy).
    apply range_eq_nonempty in Hoy as <-; [|done]. naive_solver.
  - rewrite elem_of_app, list_elem_of_singleton. tauto.
Qed.

Lemma NoDup_rangeset_add o s : NoDup s → NoDup (rangeset_add o s).
Proof.
  intros Hs. unfold rangeset_add. case_decide as He; [done|].
  apply list.NoDup_app. split; [done|]. split; [|apply NoDup_singleton].
  intros x Hx ->%list_elem_of_singleton. apply He.
  apply list.Exists_exists. exists o. split; [done|]. by right.
Qed.

(** The regions the inner loop does not reach have no overlap with
    [(s1, e1)]. *)
Lemma elem_of_overlap_inner s1 e1 l : ∀ acc x,
  StronglySorted Family.region_le l →
  x ∈ Family.overlap_inner s1 e1 l acc ↔
  x ∈ acc ∨ ∃ p2, p2 ∈ l ∧ x = overlap s1 e1 p2.1 p2.2 ∧ 0 < range_len x.
Proof.
  induction l as [|[s2 e2] l IH]; intros acc x Hs; simpl.
  - split; [auto|]. intros [?|(p2 & ?%elem_of_nil & _)]; done.
  - apply StronglySorted_inv in Hs as [Hs Hall].
    case_decide as Hbreak.
    + split; [auto|]. intros [?|(p2 & Hp2 & -> & Hlen)]; [done|]. exfalso.
      assert (Hge : s2 ≤ p2.1).
      { apply elem_of_cons in Hp2 as [->|Hp2]; [done|].
        apply (proj1 (list.Forall_forall _ _) Hall) in Hp2.
        unfold Family.region_le in Hp2; simpl in Hp2. lia. }
      unfold range_len, overlap in Hlen; simpl in Hlen. lia.
    + rewrite IH by done. case_decide as Hlen.
      * rewrite elem_of_rangeset_add by done. split.
        -- intros [[->|?]|(p2 & Hp2 & ? & ?)]; [|by left|].
           ++ right. exists (s2, e2). split; [list_in|done].
           ++ right. exists p2. split; [list_in|done].
        -- intros [?|(p2 & Hp2 & Hx & ?)]; [by left; right|].
           apply elem_of_cons in Hp2 as [->|Hp2].
           ++ left; left. done.
           ++ right. by exists p2.
      * split.
        -- intros [?|(p2 & Hp2 & ? & ?)]; [by left|].
           right. exists p2. split; [list_in|done].
        -- intros [?|(p2 & Hp2 & Hx & Hx')]; [by left|].
           apply elem_of_cons in Hp2 as [->|Hp2].
           ++ subst x. done.
           ++ right. by exists p2.
Qed.

Lemma NoDup_overlap_inner s1 e1 l : ∀ acc,
  NoDup acc → NoDup (Family.overlap_inner s1 e1 l acc).
Proof.
  induction l as [|[s2 e2] l IH]; intros acc Hacc; simpl; [done|].
  case_decide; [done|]. apply IH. case_decide; [|done].
  by apply NoDup_rangeset_add.
Qed.

Lemma elem_of_overlap_outer L l : ∀ acc x,
  StronglySorted Family.region_le L →
  x ∈ foldl (λ overlaps '(s1, e1), Family.overlap_inner s1 e1 L overlaps) acc l ↔
  x ∈ acc ∨ ∃ p1 p2, p1 ∈ l ∧ p2 ∈ L ∧
                     x = overlap p1.1 p1.2 p2.1 p2.2 ∧ 0 < range_len x.
Proof.
  intros acc x HL. revert acc.
  induction l as [|[s1 e1] l IH]; intros acc; simpl.
  - split; [auto|]. intros [?|(p1 & p2 & ?%elem_of_nil & _)]; done.
  - rewrite IH, elem_of_overlap_inner by done. split.
    + intros [[?|(p2 & ? & ? & ?)]|(p1 & p2 & ? & ?)]; [by left|..].
      * right. exists (s1, e1), p2. split; [list_in|done].
      * right. exists p1, p2. split; [list_in|done].
    + intros [?|(p1 & p2 & Hp1 & ? & ? & ?)]; [by left; left|].
      apply elem_of_cons in Hp1 as [->|Hp1].
      * left; right. by exists p2.
      * right. by exists p1, p2.
Qed.

Lemma NoDup_overlap_outer L l : ∀ acc,
  NoDup acc →
  NoDup (foldl (λ overlaps '(s1, e1), Family.overlap_inner s1 e1 L overlaps) acc l).
Proof.
  induction l as [|[s1 e1] l IH]; intros acc Hacc; simpl; [done|].
  by apply IH, NoDup_overlap_inner.
Qed.

(** The set [overlaps[acc1]] holds the non-empty overlaps of all pairs of
    regions, the pairs skipped by [break] included. *)
Lemma elem_of_overlap_regions r1 r2 x :
  x ∈ Family.overlap_regions r1 r2 ↔
  ∃ p1 p2, p1 ∈ r1 ∧ p2 ∈ r2 ∧
           x = overlap p1.1 p1.2 p2.1 p2.2 ∧ 0 < range_len x.
Proof.
  unfold Family.overlap_regions. rewrite elem_of_overlap_outer.
  - setoid_rewrite (merge_sort_Permutation Family.region_le r1).
    setoid_rewrite (merge_sort_Permutation Family.region_le r2).
    split; [|auto]. by intros [?%elem_of_nil|?].
  - apply StronglySorted_merge_sort; apply _.
Qed.

Lemma overlap_comm s1 e1 s2 e2 : overlap s1 e1 s2 e2 = overlap s2 e2 s1 e1.
Proof. unfold overlap. by rewrite Z.max_comm, Z.min_comm. Qed.

Lemma overlap_regions_comm r1 r2 :
  Family.overlap_regions r1 r2 ≡ₚ Family.overlap_regions r2 r1.
Proof.
  apply NoDup_Permutation.
  - apply NoDup_overlap_outer, NoDup_nil_2.
  - apply NoDup_overlap_outer, NoDup_nil_2.
  - intros x. rewrite !elem_of_overlap_regions.
    split; intros (p1 & p2 & ? & ? & -> & ?); exists p2, p1;
      by rewrite (overlap_comm p2.1).
Qed.

End family_overlap_facts.

Section family_overlap_dict.
Context {V : Type}.
Import Intervals.

#[local] Instance item_le_total : Total Family.item_le.
Proof. intros p q. unfold Family.item_le. apply total, _. Qed.

#[local] Instance item_le_trans : Transitive Family.item_le.
Proof. intros p q r. unfold Family.item_le. apply transitivity. Qed.

(** The item of a key of the dictionary. *)
Abbreviation item d :=
  (λ k : string, (k, default [] ((d : gmap string (list (Z * Z))) !! k))).

(** The sorted slice lists the keys of [s] in order, each with its
    value. *)
Lemma dict_slice_items (d : gmap string (list (Z * Z))) (s : gset string) :
  s ⊆ dom d →
  Family._dict_slice d s = item d <$> merge_sort String.le (elements s).
Proof.
  intros Hs. unfold Family._dict_slice.
  apply (StronglySorted_unique_strong Family.item_le).
  - intros [k1 v1] [k2 v2] H1 H2 Hle1 Hle2.
    rewrite merge_sort_Permutation in H1.
    apply list_elem_of_filter in H1 as [_ H1%elem_of_map_to_list].
    apply list_elem_of_fmap in H2 as (k & [= -> ->] & _).
    unfold Family.item_le in *; simpl in *.
    assert (k1 = k) as -> by (by apply (anti_symm String.le)).
    by rewrite H1.
  - apply StronglySorted_merge_sort; apply _.
  - apply (StronglySorted_fmap _ String.le); [by intros x y|].
    apply StronglySorted_merge_sort; apply _.
  - rewrite !merge_sort_Permutation. apply NoDup_Permutation.
    + apply list.NoDup_filter, NoDup_map_to_list.
    + apply NoDup_fmap_2; [by intros k1 k2 [= ->]|apply NoDup_elements].
    + intros [k v]. rewrite list_elem_of_filter, elem_of_map_to_list,
        list_elem_of_fmap. simpl. split.
      * intros [Hk Hv]. exists k. rewrite Hv.
        by rewrite elem_of_elements.
      * intros (k' & [= -> ->] & Hk%elem_of_elements). split; [done|].
        apply Hs, elem_of_dom in Hk as [v Hv]. by rewrite Hv.
Qed.

(** What the loop of [overlap] stores for the key [k]. *)
Abbreviation entry d1 d2 :=
  (λ k : string,
     _merge_ranges
       (Family.overlap_regions
          (default [] ((d1 : gmap string (list (Z * Z))) !! k))
          (default [] ((d2 : gmap string (list (Z * Z))) !! k)))).

Lemma overlap_loop_items d1 d2 (ks : list string) : ∀ m,
  foldl Family.overlap_step (Ok m) (zip (item d1 <$> ks) (item d2 <$> ks))
  = Ok (foldl (λ m k, <[k := entry d1 d2 k]> m) m ks).
Proof.
  induction ks as [|k ks IH]; intros m; simpl; [done|].
  rewrite decide_True by done. apply IH.
Qed.

Lemma lookup_foldl_insert {B} (F : string → B) (ks : list string) :
  ∀ (m : gmap string B) (k : string),
    foldl (λ (m : gmap string B) k, <[k := F k]> m) m ks !! k
    = if decide (k ∈ ks) then Some (F k) else m !! k.
Proof.
  induction ks as [|k' ks IH]; intros m k.
  - simpl. destruct (decide (k ∈ [])) as [Hin|_]; [|done].
    by apply elem_of_nil in Hin.
  - simpl. rewrite IH.
    destruct (decide (k ∈ ks)) as [Hin|Hnin];
      destruct (decide (k ∈ k' :: ks)) as [Hin'|Hnin']; try done.
    + exfalso. apply Hnin'. list_in.
    + apply elem_of_cons in Hin' as [->|?]; [|done].
      by rewrite lookup_insert_eq.
    + rewrite lookup_insert_ne; [done|]. intros ->. apply Hnin'. list_in.
Qed.

Lemma entry_comm d1 d2 k : entry d1 d2 k = entry d2 d1 k.
Proof. apply merge_ranges_Permutation, overlap_regions_comm. Qed.

(** The loop of [overlap] over two dictionaries of regions ends without an
    assertion error, with an entry for every key they share, and the two
    dictionaries can be swapped. *)
Lemma overlap_loop_comm (d1 d2 : gmap string (list (Z * Z))) :
  ∃ m,
    foldl Family.overlap_step (Ok ∅)
      (zip (Family._dict_slice d1 (dom d1 ∩ dom d2))
           (Family._dict_slice d2 (dom d1 ∩ dom d2))) = Ok m ∧
    foldl Family.overlap_step (Ok ∅)
      (zip (Family._dict_slice d2 (dom d2 ∩ dom d1))
           (Family._dict_slice d1 (dom d2 ∩ dom d1))) = Ok m ∧
    dom m = dom d1 ∩ dom d2.
Proof.
  rewrite (comm_L (∩) (dom d2) (dom d1)).
  rewrite !dict_slice_items
    by (apply intersection_subseteq_l || apply intersection_subseteq_r).
  rewrite !overlap_loop_items. eexists. split; [reflexivity|]. split.
  - f_equal. apply map_eq. intros k. rewrite !lookup_foldl_insert.
    case_decide; [|done]. by rewrite entry_comm.
  - apply set_eq. intros k. rewrite elem_of_dom, lookup_foldl_insert.
    case_decide as Hk; rewrite merge_sort_Permutation, elem_of_elements in Hk.
    + split; [done|]. by intros _; eexists.
    + rewrite lookup_empty. split; [by intros [? ?]|done].
Qed.

End family_overlap_dict.

(** C10.  [Family.overlap] is commutative: for all families [A] and [B],
    [A.overlap(B)] and [B.overlap(A)] return (without an error) the same
    mapping from protein to merged range list, whose keys are the proteins
    the two families share. *)
Theorem family_overlap_comm {V : Type} (A B : Family.Family V) :
  ∃ m,
    Family.overlap V A B = Ok m ∧
    Family.overlap V B A = Ok m ∧
    dom m = Family.proteins V A ∩ Family.proteins V B.
Proof.
  unfold Family.overlap, Family.proteins.
  destruct (overlap_loop_comm (Family._regions V A) (Family._regions V B))
    as (m & HAB & HBA & Hdom).
  destruct (decide (size (dom (Family._regions V A))
                    < size (dom (Family._regions V B)))%nat) as [Hlt|Hge].
  - rewrite (decide_False (P := (size (dom (Family._regions V B))
                                 < size (dom (Family._regions V A)))%nat)) by lia.
    exists m. by rewrite HAB.
  - destruct (decide (size (dom (Family._regions V B))
                      < size (dom (Family._regions V A)))%nat) as [Hlt'|Hge'].
    + exists m. by rewrite HBA.
    + exists m. by rewrite HAB, HBA.
Qed.

(** ** Family: the residue-level union *)

Section family_union_facts.
Context {V : Type}.
Import Intervals.

Abbreviation to_range := (λ p : Z * Z, Range p.1 (p.2 + 1)).

Lemma elem_of_union_all `{Countable K} (xs : list (gset K)) : ∀ (x : gset K) p,
  p ∈ Family.union_all x xs ↔ ∃ y, y ∈ x :: xs ∧ p ∈ y.
Proof.
  unfold Family.union_all.
  induction xs as [|x' xs IH]; intros x p; simpl.
  - split; [intros ?; exists x; split; [list_in|done]|].
    by intros (y & ->%list_elem_of_singleton & ?).
  - rewrite IH. split.
    + intros (y & [->|Hy]%elem_of_cons & Hp).
      * apply elem_of_union in Hp as [?|?]; [exists x|exists x']; split;
          (list_in || done).
      * exists y. split; [list_in|done].
    + intros (y & Hy & Hp). rewrite !elem_of_cons in Hy.
      destruct Hy as [->|[->|Hy]].
      * exists (x ∪ x'). split; [list_in|]. apply elem_of_union; auto.
      * exists (x ∪ x'). split; [list_in|]. apply elem_of_union; auto.
      * exists y. split; [list_in|done].
Qed.

(** The union of the sets of a list does not depend on their order. *)
Lemma union_all_Permutation `{Countable K} (x x' : gset K) xs xs' :
  x :: xs ≡ₚ x' :: xs' → Family.union_all x xs = Family.union_all x' xs'.
Proof.
  intros Hp. apply set_eq. intros p. rewrite !elem_of_union_all.
  by setoid_rewrite Hp.
Qed.

(** When every tuple has [start <= end], the ranges are non-empty and
    pairwise different, and the set comprehension keeps them all. *)
Lemma elem_of_range_set_acc (l : list (Z * Z)) : ∀ acc x,
  Forall (λ p, p.1 ≤ p.2) l →
  x ∈ foldl (λ rs '(s, e), rangeset_add (Range s (e + 1)) rs) acc l
  ↔ x ∈ acc ∨ x ∈ to_range <$> l.
Proof.
  induction l as [|[s e] l IH]; intros acc x Hv; simpl.
  - rewrite elem_of_nil. tauto.
  - apply list.Forall_cons in Hv as [Hse Hv]. simpl in Hse.
    rewrite IH by done. rewrite elem_of_rangeset_add, elem_of_cons.
    + tauto.
    + unfold range_len; simpl. lia.
Qed.

Lemma NoDup_range_set_acc (l : list (Z * Z)) : ∀ acc,
  NoDup acc →
  NoDup (foldl (λ rs '(s, e), rangeset_add (Range s (e + 1)) rs) acc l).
Proof.
  induction l as [|[s e] l IH]; intros acc Hacc; simpl; [done|].
  by apply IH, NoDup_rangeset_add.
Qed.

Lemma range_set_valid (it : list (Z * Z)) (X : gset (Z * Z)) :
  it ≡ₚ elements X →
  (∀ p, p ∈ X → p.1 ≤ p.2) →
  Family.range_set it ≡ₚ to_range <$> elements X.
Proof.
  intros Hit Hv. apply NoDup_Permutation.
  - apply NoDup_range_set_acc, NoDup_nil_2.
  - apply NoDup_fmap_2; [|apply NoDup_elements].
    intros [s1 e1] [s2 e2] [= -> He]. f_equal. lia.
  - intros x. unfold Family.range_set. rewrite elem_of_range_set_acc.
    + rewrite elem_of_nil, Hit. tauto.
    + apply list.Forall_forall. intros p Hp. apply Hv.
      by rewrite Hit, elem_of_elements in Hp.
Qed.

Lemma regions_on_valid (f : Family.Family V) protein p :
  Family.valid V f → p ∈ Family.regions_on V protein f → p.1 ≤ p.2.
Proof.
  intros Hv. unfold Family.regions_on. destruct (Family._regions V f !! protein) as [l|] eqn:Hl.
  - rewrite elem_of_list_to_set. intros Hp.
    by apply (proj1 (list.Forall_forall _ _) (Hv _ _ Hl)).
  - by intros ?%not_elem_of_empty.
Qed.

(** What [union] stores for a protein, from any iteration order. *)
Lemma union_lookup (it : gset (Z * Z) → list (Z * Z))
  (self : Family.Family V) (others : list (Family.Family V)) protein u :
  Family.union V it self others !! protein = Some u ↔
  protein ∈ Family.union_all (Family.proteins V self)
                             (Family.proteins V <$> others) ∧
  u = _merge_ranges
        (Family.range_set
           (it (Family.union_all (Family.regions_on V protein self)
                                 (Family.regions_on V protein <$> others)))).
Proof.
  unfold Family.union. rewrite lookup_set_to_map by (by intros ?? _ _ ?).
  split.
  - by intros (y & Hy & [= -> <-]).
  - intros [Hy ->]. by exists protein.
Qed.

(** On valid families the result of [union] depends neither on the order in
    which the sets of tuples are iterated nor on the order of the
    families. *)
Lemma union_Permutation (it it' : gset (Z * Z) → list (Z * Z))
  (self self' : Family.Family V) (others others' : list (Family.Family V)) :
  (∀ X, it X ≡ₚ elements X) →
  (∀ X, it' X ≡ₚ elements X) →
  Forall (Family.valid V) (self :: others) →
  self :: others ≡ₚ self' :: others' →
  Family.union V it self others = Family.union V it' self' others'.
Proof.
  intros Hit Hit' Hv Hp. apply map_eq. intros protein. apply option_eq.
  intros u. rewrite !union_lookup.
  assert (Hprot : Family.union_all (Family.proteins V self)
                                   (Family.proteins V <$> others)
                  = Family.union_all (Family.proteins V self')
                                     (Family.proteins V <$> others')).
  { apply union_all_Permutation.
    change (Family.proteins V <$> (self :: others)
            ≡ₚ Family.proteins V <$> (self' :: others')).
    by rewrite Hp. }
  assert (Hreg : Family.union_all (Family.regions_on V protein self)
                                  (Family.regions_on V protein <$> others)
                 = Family.union_all (Family.regions_on V protein self')
                                    (Family.regions_on V protein <$> others')).
  { apply union_all_Permutation.
    change (Family.regions_on V protein <$> (self :: others)
            ≡ₚ Family.regions_on V protein <$> (self' :: others')).
    by rewrite Hp. }
  rewrite <-Hprot, <-Hreg.
  set (X := Family.union_all _ (Family.regions_on V protein <$> others)).
  assert (HX : ∀ p, p ∈ X → p.1 ≤ p.2).
  { intros p HpX. apply elem_of_union_all in HpX as (Y & HY & HpY).
    change (Y ∈ Family.regions_on V protein <$> (self :: others)) in HY.
    apply list_elem_of_fmap in HY as (f & -> & Hf).
    apply (regions_on_valid f protein); [|done].
    by apply (proj1 (list.Forall_forall _ _) Hv). }
  rewrite (merge_ranges_Permutation (Family.range_set (it X)) _
             (range_set_valid _ X (Hit X) HX)).
  rewrite (merge_ranges_Permutation (Family.range_set (it' X)) _
             (range_set_valid _ X (Hit' X) HX)).
  done.
Qed.

End family_union_facts.

(** C6 (amended).  [Family.union] is commutative and associative across
    argument order: for all families [A], [B], [C] whose regions satisfy
    [start <= end], and in whatever order Python iterates the sets of
    tuples in each call, [A.union(B, C)], [B.union(A, C)] and
    [C.union(B, A)] are the same mapping from protein to merged range
    list. *)
Theorem family_union_comm_assoc {V : Type}
  (it1 it2 it3 : gset (Z * Z) → list (Z * Z)) (A B C : Family.Family V)
  (Hit1 : ∀ X, it1 X ≡ₚ elements X)
  (Hit2 : ∀ X, it2 X ≡ₚ elements X)
  (Hit3 : ∀ X, it3 X ≡ₚ elements X)
  (HA : Family.valid V A) (HB : Family.valid V B) (HC : Family.valid V C) :
  Family.union V it1 A [B; C] = Family.union V it2 B [A; C] ∧
  Family.union V it2 B [A; C] = Family.union V it3 C [B; A].
Proof.
  split.
  - apply union_Permutation; [done..| |].
    + by repeat constructor.
    + apply perm_swap.
  - apply union_Permutation; [done..| |].
    + by repeat constructor.
    + change ([B; A] ++ [C] ≡ₚ [C] ++ [B; A]). apply Permutation_app_comm.
Qed.

Lemma family_union_comm_assoc_witness :
  let mk := λ d, {| Family._regions := d; Family._signatures := ∅;
                    Family._fhashes := ∅; Family._finalised := false |}
                 : Family.Family unit in
  let f1 := mk (<["a1" := [(10, 20)]]> (<["a2" := [(10, 20)]]> ∅)) in
  let f2 := mk (<["a1" := [(15, 20); (30, 40)]]> ∅) in
  let f3 := mk (<["a1" := [(21, 50); (5, 9)]]> ∅) in
  Family.union unit elements f1 [f2; f3] = Family.union unit elements f2 [f1; f3] ∧
  Family.union unit elements f2 [f1; f3] = Family.union unit elements f3 [f2; f1].
Proof.
  intros mk f1 f2 f3.
  apply (family_union_comm_assoc elements elements elements f1 f2 f3);
    [by intros X..| | |];
    apply (bool_decide_unpack _); vm_compute; exact I.
Defined.

(** Without [start <= end] the result of [union] is not determined by the
    families: the empty ranges are equal as Python values, the set keeps
    the one it meets first, and which one that is changes what is merged. *)
Lemma family_union_iteration_order :
  let f := {| Family._regions := <["p" := [(0, 9); (3, 2); (10, 9); (10, 19)]]> ∅;
              Family._signatures := ∅; Family._fhashes := ∅;
              Family._finalised := false |} : Family.Family unit in
  let it1 := λ X : gset (Z * Z), [(0, 9); (3, 2); (10, 9); (10, 19)] in
  let it2 := λ X : gset (Z * Z), [(0, 9); (10, 9); (3, 2); (10, 19)] in
  it1 (list_to_set [(0, 9); (3, 2); (10, 9); (10, 19)])
    ≡ₚ it2 (list_to_set [(0, 9); (3, 2); (10, 9); (10, 19)]) ∧
  Family.union unit it1 f [] !! "p"
    = Some [Intervals.Range 0 10; Intervals.Range 3 3; Intervals.Range 10 20] ∧
  Family.union unit it2 f [] !! "p" = Some [Intervals.Range 0 20].
Proof.
  intros f it1 it2. split; [|split].
  - unfold it1, it2. by rewrite (perm_swap (10, 9) (3, 2)).
  - by vm_compute.
  - by vm_compute.
Qed.

(** C6 as worded fails on families with a region whose end is before its
    start.  [A] has the regions [(0, 9)] and [(10, 19)] of a protein, [B]
    the region [(1, 0)] and [C] the region [(10, 9)].  In [A.union(B, C)]
    the set of tuples is iterated with [(1, 0)] before [(10, 9)], so the
    set of ranges keeps [range(1, 1)], which is merged with nothing; in
    [C.union(B, A)] it is iterated with [(10, 9)] first, the set keeps
    [range(10, 10)], and that range joins [range(0, 10)] to
    [range(10, 20)]. *)
Lemma family_union_not_comm_invalid :
  let mk := λ d, {| Family._regions := d; Family._signatures := ∅;
                    Family._fhashes := ∅; Family._finalised := false |}
                 : Family.Family unit in
  let A := mk (<["p" := [(0, 9); (10, 19)]]> ∅) in
  let B := mk (<["p" := [(1, 0)]]> ∅) in
  let C := mk (<["p" := [(10, 9)]]> ∅) in
  let X : gset (Z * Z) := list_to_set [(0, 9); (10, 19); (1, 0); (10, 9)] in
  let it1 := λ Y : gset (Z * Z),
    if decide (Y = X) then [(1, 0); (0, 9); (10, 9); (10, 19)] else elements Y in
  let it3 := λ Y : gset (Z * Z),
    if decide (Y = X) then [(10, 9); (1, 0); (0, 9); (10, 19)] else elements Y in
  (∀ Y, it1 Y ≡ₚ elements Y) ∧
  (∀ Y, it3 Y ≡ₚ elements Y) ∧
  Family.union unit it1 A [B; C] !! "p"
    = Some [Intervals.Range 0 10; Intervals.Range 1 1; Intervals.Range 10 20] ∧
  Family.union unit it3 C [B; A] !! "p" = Some [Intervals.Range 0 20] ∧
  Family.union unit it1 A [B; C] ≠ Family.union unit it3 C [B; A].
Proof.
  intros mk A B C X it1 it3.
  assert (Hperm : ∀ l : list (Z * Z),
            NoDup l → (∀ x, x ∈ l ↔ x ∈ X) → l ≡ₚ elements X).
  { intros l Hnd Hl. apply NoDup_Permutation; [done|apply NoDup_elements|].
    intros x. by rewrite elem_of_elements. }
  assert (HX : ∀ x, x ∈ X ↔ x ∈ [(0, 9); (10, 19); (1, 0); (10, 9)])
    by (intros x; apply elem_of_list_to_set).
  assert (H1 : Family.union unit it1 A [B; C] !! "p"
               = Some [Intervals.Range 0 10; Intervals.Range 1 1;
                       Intervals.Range 10 20]) by (by vm_compute).
  assert (H3 : Family.union unit it3 C [B; A] !! "p"
               = Some [Intervals.Range 0 20]) by (by vm_compute).
  split; [|split; [|split; [done|split; [done|]]]].
  - intros Y. unfold it1. case_decide as HY; [|done]. rewrite HY.
    apply Hperm.
    + apply (bool_decide_unpack _). by vm_compute.
    + intros x. rewrite HX, !elem_of_cons, !elem_of_nil. tauto.
  - intros Y. unfold it3. case_decide as HY; [|done]. rewrite HY.
    apply Hperm.
    + apply (bool_decide_unpack _). by vm_compute.
    + intros x. rewrite HX, !elem_of_cons, !elem_of_nil. tauto.
  - intros Heq. rewrite Heq, H3 in H1. discriminate H1.
Qed.

(** ** The sifter pipeline *)

Section sifter_route_facts.
Context {Search HashesT : Type}.
Import Sifter.

Lemma foldl_andb b bs : foldl andb b bs = b && forallb id bs.
Proof.
  revert b. induction bs as [|b' bs IH]; intros b; simpl.
  - by rewrite andb_true_r.
  - by rewrite IH, andb_assoc.
Qed.

Lemma foldl_orb b bs : foldl orb b bs = b || existsb id bs.
Proof.
  revert b. induction bs as [|b' bs IH]; intros b; simpl.
  - by rewrite orb_false_r.
  - by rewrite IH, orb_assoc.
Qed.

Lemma forallb_bool_decide {A} (P : A → Prop) `{!∀ x, Decision (P x)} (l : list A) :
  forallb id ((λ v, bool_decide (P v)) <$> l) = bool_decide (Forall P l).
Proof.
  induction l as [|x l IH].
  - symmetry. by apply bool_decide_eq_true_2.
  - rewrite fmap_cons. cbn [forallb id]. rewrite IH. apply eq_true_iff_eq.
    rewrite andb_true_iff, !bool_decide_eq_true, list.Forall_cons. done.
Qed.

Lemma existsb_bool_decide {A} (P : A → Prop) `{!∀ x, Decision (P x)} (l : list A) :
  existsb id ((λ v, bool_decide (P v)) <$> l) = bool_decide (Exists P l).
Proof.
  induction l as [|x l IH].
  - symmetry. apply bool_decide_eq_false_2. intros Hex. by inversion Hex.
  - rewrite fmap_cons. cbn [existsb id]. rewrite IH. apply eq_true_iff_eq.
    rewrite orb_true_iff, !bool_decide_eq_true, List.Exists_cons. done.
Qed.

(** [reduce(operator.and_, ...)] over a non-empty sequence of comparisons
    is their conjunction, and [reduce(operator.or_, ...)] their
    disjunction. *)
Lemma reduce_andb_Forall {A} (P : A → Prop) `{!∀ x, Decision (P x)} (l : list A) :
  l ≠ [] →
  reduce andb ((λ v, bool_decide (P v)) <$> l) = Ok (bool_decide (Forall P l)).
Proof.
  destruct l as [|x l]; [done|]. intros _.
  rewrite <-forallb_bool_decide. simpl. by rewrite foldl_andb.
Qed.

Lemma reduce_orb_Exists {A} (P : A → Prop) `{!∀ x, Decision (P x)} (l : list A) :
  l ≠ [] →
  reduce orb ((λ v, bool_decide (P v)) <$> l) = Ok (bool_decide (Exists P l)).
Proof.
  destruct l as [|x l]; [done|]. intros _.
  rewrite <-existsb_bool_decide. simpl. by rewrite foldl_orb.
Qed.

Lemma sum_bool_filter {A} (P : A → Prop) `{!∀ x, Decision (P x)} (l : list A) :
  sum_bool ((λ v, bool_decide (P v)) <$> l) = length (filter P l).
Proof.
  unfold sum_bool. induction l as [|x l IH]; [done|].
  rewrite !fmap_cons, filter_cons. cbn [sum_list_with]. rewrite IH.
  destruct (decide (P x)).
  - by rewrite bool_decide_true.
  - by rewrite bool_decide_false.
Qed.

Lemma values_Forall {B} (P : B → Prop) (m : gmap string B) :
  map_Forall (λ _ v, P v) m ↔ Forall P (values m).
Proof.
  unfold values. rewrite map_Forall_to_list, list.Forall_fmap.
  apply Forall_proper; [|done]. by intros [k v].
Qed.

Lemma values_Exists {B} (P : B → Prop) (m : gmap string B) :
  map_Exists (λ _ v, P v) m ↔ Exists P (values m).
Proof.
  unfold values. rewrite map_Exists_to_list, list.Exists_fmap.
  apply Exists_proper; [|done]. by intros [k v].
Qed.

Lemma filter_snd_length {B} (P : B → Prop) `{!∀ x, Decision (P x)}
  (l : list (string * B)) :
  length (filter P l.*2) = length (filter (λ kv, P kv.2) l).
Proof.
  induction l as [|[k v] l IH]; [done|].
  rewrite fmap_cons, !filter_cons. cbn [snd].
  destruct (decide (P v)); cbn [length]; by rewrite IH.
Qed.

Lemma values_filter_size {B} (P : B → Prop) `{!∀ x, Decision (P x)}
  (m : gmap string B) :
  length (filter P (values m)) = size (filter (λ kv, P kv.2) m).
Proof.
  unfold values. rewrite filter_snd_length, map_filter_alt.
  rewrite map_size_list_to_map; [done|].
  eapply NoDup_fmap_fst.
  - intros k v1 v2 [_ H1%elem_of_map_to_list]%list_elem_of_filter
                   [_ H2%elem_of_map_to_list]%list_elem_of_filter. congruence.
  - apply list.NoDup_filter, NoDup_map_to_list.
Qed.

(** On a catalog with at least one entry the [if]/[elif]/[else] of
    [HashSifter.sift] picks the sink the specification names. *)
Lemma HashSifter_route_nonempty (self : HashSifter Search HashesT)
  (scores : gmap string Qc) :
  scores ≠ ∅ →
  HashSifter_route Search HashesT self scores
  = Ok (HashSifter_route_spec (low_threshold Search HashesT self)
                              (high_threshold Search HashesT self) scores).
Proof.
  intros Hne. unfold HashSifter_route, HashSifter_route_spec.
  assert (Hv : values scores ≠ []).
  { unfold values. intros Hnil%fmap_nil_inv. by apply map_to_list_empty_iff in Hnil. }
  rewrite (reduce_andb_Forall (λ v, (v ≤ low_threshold Search HashesT self)%Qc)) by done.
  rewrite (reduce_orb_Exists (λ v, (high_threshold Search HashesT self ≤ v)%Qc)) by done.
  rewrite (sum_bool_filter (λ v, (low_threshold Search HashesT self ≤ v)%Qc)).
  rewrite (values_filter_size (λ v, (low_threshold Search HashesT self ≤ v)%Qc)).
  simpl.
  destruct (decide (map_Forall _ scores)) as [Hall|Hall].
  - rewrite bool_decide_true; [done|]. by apply values_Forall.
  - rewrite bool_decide_false; [|by rewrite <-values_Forall]. simpl.
    destruct (decide (map_Exists _ scores ∧ _)) as [[Hex Hone]|Hno].
    + rewrite bool_decide_true by (by apply values_Exists).
      by rewrite bool_decide_true.
    + destruct (bool_decide (Exists _ _)) eqn:Hb; simpl; [|done].
      apply bool_decide_eq_true in Hb. apply values_Exists in Hb.
      rewrite bool_decide_false; [done|]. tauto.
Qed.

(** On the empty catalog [reduce] has nothing to start from. *)
Lemma HashSifter_route_empty (self : HashSifter Search HashesT) :
  HashSifter_route Search HashesT self ∅ = Raise TypeError.
Proof. unfold HashSifter_route, values. by rewrite map_to_list_empty. Qed.

(** A query that scores [0] against every entry of a non-empty catalog goes
    to [low_sink] when [low_threshold >= 0]. *)
Lemma HashSifter_route_all_zero (self : HashSifter Search HashesT)
  (scores : gmap string Qc) :
  scores ≠ ∅ →
  map_Forall (λ _ v, v = 0%Qc) scores →
  (0 ≤ low_threshold Search HashesT self)%Qc →
  HashSifter_route Search HashesT self scores = Ok "low_sink".
Proof.
  intros Hne Hz Hlow. rewrite HashSifter_route_nonempty by done.
  unfold HashSifter_route_spec. rewrite decide_True; [done|].
  intros k v Hk. by rewrite (Hz k v Hk).
Qed.

End sifter_route_facts.

Section sifter_sift_facts.
Context {Search : Type}.
Import Sifter.
Implicit Types (σ : state Search) (self : Sifter Search).

Lemma distribute_results_single self sink data σ :
  _distribute_results Search self [(sink, data)] σ =
  match sinks Search self !! sink with
  | Some sift => sift data σ
  | None => Raise KeyError
  end.
Proof.
  unfold _distribute_results. simpl. unfold mbind, M_bind, mret, M_ret.
  by destruct (sinks Search self !! sink).
Qed.

(** What [Sifter.sift] does to the store: the new dictionary [out_data] has
    the values of [data], the dictionary [data] is left as it is, and the
    list that [data[SIFTS]] refers to gets the stage appended. *)
Lemma Sifter_sift_store self data σ d l xs :
  heap Search σ !! data = Some (ODict Search d) →
  d !! SIFTS = Some (VRef Search l) →
  heap Search σ !! l = Some (OList Search xs) →
  let out_data := fresh (dom (heap Search σ)) in
  Sifter_sift Search self data σ =
  Ok (out_data,
      {| heap := <[l := OList Search (xs ++ [self_id Search self])]>
                   (<[out_data := ODict Search d]> (heap Search σ));
         results := results Search σ |}).
Proof.
  intros Hdata Hsifts Hl out_data.
  assert (Hfresh : out_data ∉ dom (heap Search σ)) by apply is_fresh.
  assert (Hne : out_data ≠ l).
  { intros ->. apply Hfresh, elem_of_dom. eauto. }
  unfold Sifter_sift, mbind, M_bind, get_dict, alloc, getitem, mbind, M_bind,
    get_dict, append, mret, M_ret.
  rewrite Hdata. cbn [heap results]. fold out_data.
  rewrite lookup_insert_eq, Hsifts. cbn [heap results].
  rewrite lookup_insert_ne by done. by rewrite Hl.
Qed.

(** The caller's packet after [Sifter.sift]: its dictionary is unchanged,
    its audit trail is not. *)
Lemma Sifter_sift_caller_packet self data σ d l xs out_data σ' :
  heap Search σ !! data = Some (ODict Search d) →
  d !! SIFTS = Some (VRef Search l) →
  heap Search σ !! l = Some (OList Search xs) →
  Sifter_sift Search self data σ = Ok (out_data, σ') →
  heap Search σ' !! data = Some (ODict Search d) ∧
  heap Search σ' !! l = Some (OList Search (xs ++ [self_id Search self])) ∧
  heap Search σ' !! l ≠ heap Search σ !! l.
Proof.
  intros Hdata Hsifts Hl. rewrite (Sifter_sift_store self data σ d l xs) by done.
  intros [= <- <-]. cbn [heap].
  assert (Hfresh : fresh (dom (heap Search σ)) ∉ dom (heap Search σ))
    by apply is_fresh.
  split; [|split].
  - rewrite !lookup_insert_ne; [done|..].
    + intros Heq. apply Hfresh. rewrite Heq. apply elem_of_dom. eauto.
    + intros ->. congruence.
  - by rewrite lookup_insert_eq.
  - rewrite lookup_insert_eq, Hl. intros [= Heq].
    apply (f_equal length) in Heq. rewrite length_app in Heq. simpl in Heq. lia.
Qed.

(** The accumulator [bigger] starts as [True] and is only ever or-ed with
    [False]. *)
Lemma SizeSifter_bigger_true (ss : SizeSifter Search) abs_sizes rel_sizes :
  SizeSifter_bigger Search ss abs_sizes rel_sizes = true.
Proof.
  unfold SizeSifter_bigger.
  destruct (abs_threshold Search ss), (rel_threshold Search ss);
    repeat case_decide; done.
Qed.

(** [SizeSifter.sift] never uses [smaller_sink]: replacing that sink by any
    other leaves every run as it is. *)
Lemma SizeSifter_sift_ignores_smaller_sink (ss : SizeSifter Search)
  (other : loc → M Search ()) data σ :
  SizeSifter_sift Search
    {| ss_base := {| self_id := self_id Search (ss_base Search ss);
                     sinks := <["smaller_sink" := other]>
                                (sinks Search (ss_base Search ss)) |};
       abs_threshold := abs_threshold Search ss;
       rel_threshold := rel_threshold Search ss;
       ss_sizes := ss_sizes Search ss |} data σ
  = SizeSifter_sift Search ss data σ.
Proof.
  unfold SizeSifter_sift, mbind, M_bind. cbn [ss_base abs_threshold
    rel_threshold ss_sizes].
  assert (Hs : ∀ σ0,
    Sifter_sift Search
      {| self_id := self_id Search (ss_base Search ss);
         sinks := <["smaller_sink" := other]> (sinks Search (ss_base Search ss)) |}
      data σ0
    = Sifter_sift Search (ss_base Search ss) data σ0) by done.
  rewrite Hs. destruct (Sifter_sift Search (ss_base Search ss) data σ)
    as [[out σ1]|]; [|done].
  repeat match goal with
         | |- context [match ?m ?s with Ok _ => _ | Raise _ => _ end] =>
             lazymatch m with
             | _distribute_results _ _ _ => fail
             | _ => destruct (m s) as [[? ?]|]; [|done]
             end
         end.
  rewrite !SizeSifter_bigger_true, !distribute_results_single. cbn [sinks].
  by rewrite lookup_insert_ne.
Qed.

End sifter_sift_facts.

(** C9 fails on the code.  A packet made by [package] is handed to a
    [Terminator]: [copy.copy] copies the dictionary only, so the list that
    the caller's [data[SIFTS]] refers to, empty before the call, holds the
    stage after it. *)
Theorem Terminator_sift_mutates_caller_trail :
  let σ0 := {| Sifter.heap := ∅; Sifter.results := ∅ |} : Sifter.state unit in
  ∃ (data sifts : Sifter.loc) (σ1 σ2 : Sifter.state unit),
    Sifter.package unit () "query" σ0 = Ok (data, σ1) ∧
    Sifter.getitem unit data Sifter.SIFTS σ1 = Ok (Sifter.VRef unit sifts, σ1) ∧
    Sifter.heap unit σ1 !! sifts = Some (Sifter.OList unit []) ∧
    Sifter.Terminator_sift unit (Sifter.Terminator unit 7) data σ1 = Ok ((), σ2) ∧
    Sifter.heap unit σ2 !! data = Sifter.heap unit σ1 !! data ∧
    Sifter.heap unit σ2 !! sifts = Some (Sifter.OList unit [7%positive]).
Proof.
  intros σ0. eexists 2%positive, 1%positive, _, _.
  split; [reflexivity|]. split; [reflexivity|]. split; [reflexivity|].
  split; [reflexivity|]. split; reflexivity.
Qed.

(** C3 fails on the code.  A packet with no family score is handed to a
    [ClanSifter] whose two sinks are [Terminator]s: after [same_sink] has
    been called for the at most one family above the threshold, the method
    goes on and calls [different_sink] too, so both terminators hold the
    packet, and the audit trail lists the clan sifter and both of them. *)
Theorem ClanSifter_sift_forwards_twice (threshold : Qc)
  (clan_for_family : string → option string) :
  let σ0 := {| Sifter.heap := ∅; Sifter.results := ∅ |} : Sifter.state unit in
  let same_sink := Sifter.Terminator_sift unit (Sifter.Terminator unit 1) in
  let different_sink := Sifter.Terminator_sift unit (Sifter.Terminator unit 2) in
  let clan_sifter :=
    Sifter.ClanSifter_init unit threshold 9 same_sink different_sink in
  let run : Sifter.M unit () :=
    data ← Sifter.package unit () "query";
    Sifter.setitem unit data Sifter.FAMILY_HASH_SCORES (Sifter.VScores unit ∅);;
    Sifter.ClanSifter_sift unit clan_for_family clan_sifter data in
  ∃ σ : Sifter.state unit,
    run σ0 = Ok ((), σ) ∧
    is_Some (Sifter.results unit σ !! 1%positive ≫= (.!! "query")) ∧
    is_Some (Sifter.results unit σ !! 2%positive ≫= (.!! "query")) ∧
    Sifter.heap unit σ !! 1%positive
      = Some (Sifter.OList unit [9%positive; 1%positive; 2%positive]).
Proof.
  intros σ0 same_sink different_sink clan_sifter run.
  assert (Hrun : match run σ0 with
                 | Ok (_, σ) =>
                     (Sifter.results unit σ !! 1%positive ≫= (.!! "query"))
                       = Some 4%positive ∧
                     (Sifter.results unit σ !! 2%positive ≫= (.!! "query"))
                       = Some 5%positive ∧
                     Sifter.heap unit σ !! 1%positive
                       = Some (Sifter.OList unit [9%positive; 1%positive; 2%positive])
                 | Raise _ => False
                 end) by (by vm_compute).
  destruct (run σ0) as [[[] σ]|]; [|done].
  destruct Hrun as (H1 & H2 & H3). exists σ.
  split; [done|]. split; [by eexists|]. split; [by eexists|done].
Qed.

(** C4 fails on the code.  The only matched entry has the absolute size
    [5], below the absolute threshold [10]; the packet goes to
    [bigger_sink], and [smaller_sink] gets nothing. *)
Theorem SizeSifter_sift_small_entry_to_bigger_sink :
  let σ0 := {| Sifter.heap := ∅; Sifter.results := ∅ |} : Sifter.state unit in
  let bigger_sink := Sifter.Terminator_sift unit (Sifter.Terminator unit 1) in
  let smaller_sink := Sifter.Terminator_sift unit (Sifter.Terminator unit 2) in
  let sizes := {| Sifter.sizes := {[ "PF00042" := 5 ]};
                  Sifter.size_method := λ _ : unit, 3 |} in
  let run : Sifter.M unit () :=
    size_sifter ← Sifter.lift unit
      (Sifter.SizeSifter_init unit sizes 9 bigger_sink smaller_sink
         (Some (Qc_of_Z 10)) None);
    data ← Sifter.package unit () "query";
    Sifter.setitem unit data Sifter.FAMILY_HASH_SCORES
      (Sifter.VScores unit {[ "PF00042" := (Qc_of_Z 1 / Qc_of_Z 2)%Qc ]});;
    Sifter.SizeSifter_sift unit size_sifter data in
  ∃ σ : Sifter.state unit,
    run σ0 = Ok ((), σ) ∧
    is_Some (Sifter.results unit σ !! 1%positive ≫= (.!! "query")) ∧
    Sifter.results unit σ !! 2%positive = None.
Proof.
  intros σ0 bigger_sink smaller_sink sizes run.
  assert (Hrun : match run σ0 with
                 | Ok (_, σ) =>
                     (Sifter.results unit σ !! 1%positive ≫= (.!! "query"))
                       = Some 4%positive ∧
                     Sifter.results unit σ !! 2%positive = None
                 | Raise _ => False
                 end) by (by vm_compute).
  destruct (run σ0) as [[[] σ]|]; [|done].
  destruct Hrun as (H1 & H2). exists σ.
  split; [done|]. split; [by eexists|done].
Qed.

(** C2 fails on the code at the empty catalog.  Every score of the empty
    mapping is [<= low_threshold], so the claim sends the packet to
    [low_sink]; [reduce] over the empty sequence raises [TypeError] and no
    sink is called. *)
Theorem HashSifter_sift_empty_catalog_raises (low_threshold high_threshold : Qc) :
  let σ0 := {| Sifter.heap := ∅; Sifter.results := ∅ |} : Sifter.state unit in
  let low_sink := Sifter.Terminator_sift unit (Sifter.Terminator unit 1) in
  let high_sink := Sifter.Terminator_sift unit (Sifter.Terminator unit 2) in
  let other_sink := Sifter.Terminator_sift unit (Sifter.Terminator unit 3) in
  let run : Sifter.M unit () :=
    hash_sifter ← Sifter.lift unit
      (Sifter.HashSifter_init unit unit () low_threshold high_threshold 9
         low_sink high_sink other_sink (Some (λ _ _, ∅)));
    data ← Sifter.package unit () "query";
    Sifter.HashSifter_sift unit unit hash_sifter data in
  Sifter.HashSifter_route_spec low_threshold high_threshold ∅ = "low_sink" ∧
  run σ0 = Raise TypeError.
Proof.
  intros σ0 low_sink high_sink other_sink run. split.
  - unfold Sifter.HashSifter_route_spec. rewrite decide_True; [done|].
    apply map_Forall_empty.
  - by vm_compute.
Qed.

Section hash_sifter_sift_facts.
Context {Search HashesT : Type}.
Import Sifter.

(** [HashSifter.sift] on a well-formed packet and a catalog with at least
    one entry: the enriched copy [out_data], with the strictly positive
    scores, is handed to the sink that the routing rule of the
    specification names, and to no other. *)
Lemma HashSifter_sift_routes (self : HashSifter Search HashesT)
  (data : loc) (σ : state Search) d l xs q :
  heap Search σ !! data = Some (ODict Search d) →
  d !! SIFTS = Some (VRef Search l) →
  heap Search σ !! l = Some (OList Search xs) →
  d !! SEARCH = Some (VSearch Search q) →
  let scores := sift_method Search HashesT self q (hashes Search HashesT self) in
  scores ≠ ∅ →
  let out_data := fresh (dom (heap Search σ)) in
  let σ' :=
    {| heap :=
         <[out_data :=
             ODict Search
               (<[FAMILY_HASH_SCORES :=
                    VScores Search (filter (λ fs, (0 < fs.2)%Qc) scores)]> d)]>
           (<[l := OList Search
                     (xs ++ [self_id Search (hs_base Search HashesT self)])]>
              (<[out_data := ODict Search d]> (heap Search σ)));
       results := results Search σ |} in
  HashSifter_sift Search HashesT self data σ =
  match sinks Search (hs_base Search HashesT self)
          !! HashSifter_route_spec (low_threshold Search HashesT self)
                                   (high_threshold Search HashesT self) scores with
  | Some sift => sift out_data σ'
  | None => Raise KeyError
  end.
Proof.
  intros Hdata Hsifts Hl Hq scores Hne out_data σ'.
  assert (Hfresh : out_data ∉ dom (heap Search σ)) by apply is_fresh.
  assert (Hol : out_data ≠ l).
  { intros ->. apply Hfresh, elem_of_dom. eauto. }
  assert (Hod : out_data ≠ data).
  { intros Heq. apply Hfresh. rewrite Heq. apply elem_of_dom. eauto. }
  assert (Hld : l ≠ data) by (intros ->; congruence).
  unfold HashSifter_sift, mbind, M_bind.
  rewrite (Sifter_sift_store _ data σ d l xs) by done. fold out_data.
  unfold getitem, mbind, M_bind, get_dict. cbn [heap results].
  rewrite (lookup_insert_ne _ l data) by done.
  rewrite (lookup_insert_ne _ out_data data) by done. rewrite Hdata, Hq.
  unfold as_search, setitem. unfold mret, M_ret. cbn [heap results].
  rewrite lookup_insert_ne by done. rewrite lookup_insert_eq.
  fold scores. unfold lift.
  rewrite (HashSifter_route_nonempty self scores Hne).
  by rewrite distribute_results_single.
Qed.

End hash_sifter_sift_facts.

(** * Further properties of the code *)

(** ** Ratios of two lengths *)

Section ratio_facts.
Import Jaccard.
Local Open Scope Qc_scope.

Lemma Qc_of_nat_pos (b : nat) : b ≠ O → 0 < Qc_of_Z (Z.of_nat b).
Proof. intros Hb. rewrite <-Z2Qc_inj_0. apply (proj1 (Z2Qc_inj_lt _ _)). lia. Qed.

Lemma Qc_of_nat_ne0 (b : nat) : b ≠ O → Qc_of_Z (Z.of_nat b) ≠ 0.
Proof.
  intros Hb Heq. pose proof (Qc_of_nat_pos b Hb) as Hlt.
  rewrite Heq in Hlt. by apply (irreflexivity Qclt) in Hlt.
Qed.

Lemma ratio0_mult (a b : nat) :
  b ≠ O → ratio0 a b * Qc_of_Z (Z.of_nat b) = Qc_of_Z (Z.of_nat a).
Proof.
  intros Hb. unfold ratio0. rewrite decide_False by done.
  rewrite (comm_L Qcmult). apply Qcmult_div_r. by apply Qc_of_nat_ne0.
Qed.

Lemma ratio0_bounds (a b : nat) : (a ≤ b)%nat → 0 ≤ ratio0 a b ≤ 1.
Proof.
  intros Hab. destruct (decide (b = O)) as [->|Hb].
  - unfold ratio0. by rewrite decide_True.
  - pose proof (Qc_of_nat_pos b Hb) as Hpos. split.
    + apply (Qcmult_le_mono_pos_r _ _ _ Hpos).
      rewrite ratio0_mult, Qcmult_0_l by done.
      rewrite <-Z2Qc_inj_0. apply (proj1 (Z2Qc_inj_le _ _)). lia.
    + apply (Qcmult_le_mono_pos_r _ _ _ Hpos).
      rewrite ratio0_mult, Qcmult_1_l by done. apply (proj1 (Z2Qc_inj_le _ _)). lia.
Qed.

Lemma ratio0_one (a b : nat) : ratio0 a b = 1 ↔ a = b ∧ b ≠ O.
Proof.
  destruct (decide (b = O)) as [->|Hb].
  - unfold ratio0. rewrite decide_True by done. split; [done|]. by intros [_ ?].
  - split.
    + intros Heq. split; [|done].
      pose proof (ratio0_mult a b Hb) as Hm. rewrite Heq, Qcmult_1_l in Hm.
      apply Z2Qc_inj in Hm. lia.
    + intros [-> _]. unfold ratio0. rewrite decide_False by done.
      unfold Qcdiv. apply Qcmult_inv_r. by apply Qc_of_nat_ne0.
Qed.

Lemma ratio0_zero (a b : nat) : ratio0 a b = 0 ↔ a = O ∨ b = O.
Proof.
  destruct (decide (b = O)) as [->|Hb].
  - unfold ratio0. rewrite decide_True by done. split; auto.
  - split.
    + intros Heq. left.
      pose proof (ratio0_mult a b Hb) as Hm. rewrite Heq, Qcmult_0_l in Hm.
      rewrite <-Z2Qc_inj_0 in Hm. apply Z2Qc_inj in Hm. lia.
    + intros [->|?]; [|done]. unfold ratio0. rewrite decide_False by done.
      change (Qc_of_Z (Z.of_nat 0)) with (Qc_of_Z 0). rewrite Z2Qc_inj_0.
      unfold Qcdiv. apply Qcmult_0_l.
Qed.

End ratio_facts.

(** ** Exact similarity: further properties *)

Section jaccard_extra.
Context `{Countable A}.
Implicit Types s t : list A.

Lemma list_to_set_empty_iff s : (list_to_set s : gset A) = ∅ ↔ s = [].
Proof.
  split; [|by intros ->]. destruct s as [|x s]; [done|].
  intros Heq. assert (Hx : x ∈ (list_to_set (x :: s) : gset A)).
  { apply elem_of_list_to_set. list_in. }
  rewrite Heq in Hx. by apply not_elem_of_empty in Hx.
Qed.

Lemma size_intersection_union_eq (S T : gset A) :
  size (S ∩ T) = size (S ∪ T) ↔ S = T.
Proof.
  split; [|intros ->; f_equal; set_solver].
  intros Hsz.
  assert (Hsub : S ∩ T ⊆ S ∪ T) by set_solver.
  assert (Hle : (size (S ∪ T) ≤ size (S ∩ T))%nat) by lia.
  pose proof (set_subseteq_size_eq _ _ Hsub Hle) as Heq.
  apply set_eq. intros x.
  assert (Hx : x ∈ S ∩ T ↔ x ∈ S ∪ T) by (by rewrite Heq).
  set_solver.
Qed.

(** X1.  The Jaccard index is symmetric. *)
Theorem jaccard_symmetric s t : Jaccard.jaccard s t = Jaccard.jaccard t s.
Proof.
  rewrite !jaccard_ratio.
  by rewrite (comm_L (∩) (list_to_set s : gset A)),
             (comm_L (∪) (list_to_set s : gset A)).
Qed.

(** X2.  [jaccard] never raises, and its result lies between 0 and 1. *)
Theorem jaccard_total_bounded s t :
  ∃ q, Jaccard.jaccard s t = Ok q ∧ (0 ≤ q ≤ 1)%Qc.
Proof.
  rewrite jaccard_ratio. eexists. split; [done|].
  apply ratio0_bounds, subseteq_size. set_solver.
Qed.

(** The Jaccard index is 1 exactly for two equal, non-empty sets. *)
Lemma jaccard_one_iff s t :
  Jaccard.jaccard s t = Ok 1%Qc ↔
  (list_to_set s : gset A) = list_to_set t ∧ s ≠ [].
Proof.
  rewrite jaccard_ratio. split.
  - intros [= Hr]. apply ratio0_one in Hr as [Heq Hne].
    apply size_intersection_union_eq in Heq. split; [done|].
    intros ->. apply Hne. rewrite <-Heq. apply size_empty_iff. set_solver.
  - intros [Heq Hne]. f_equal. apply ratio0_one. rewrite <-Heq. split.
    + f_equal. set_solver.
    + rewrite (idemp_L (∪)). intros Hsz. apply size_empty_inv in Hsz.
      apply leibniz_equiv in Hsz. by apply list_to_set_empty_iff in Hsz.
Qed.

(** The Jaccard index is 0 exactly for two sets with no common member
    (two empty sets included). *)
Lemma jaccard_zero_iff s t :
  Jaccard.jaccard s t = Ok 0%Qc ↔
  (list_to_set s : gset A) ## list_to_set t.
Proof.
  rewrite jaccard_ratio. split.
  - intros [= Hr]. apply ratio0_zero in Hr as [Hz|Hz];
      apply size_empty_inv in Hz; set_solver.
  - intros Hd. f_equal. apply ratio0_zero. left.
    apply size_empty_iff. set_solver.
Qed.

(** X3.  The extreme values of the Jaccard index: it is 1 exactly for two
    equal, non-empty sets, and 0 exactly for two sets with no common member
    (two empty sets included). *)
Theorem jaccard_extremes s t :
  (Jaccard.jaccard s t = Ok 1%Qc ↔
   (list_to_set s : gset A) = list_to_set t ∧ s ≠ []) ∧
  (Jaccard.jaccard s t = Ok 0%Qc ↔
   (list_to_set s : gset A) ## list_to_set t).
Proof. split; [apply jaccard_one_iff|apply jaccard_zero_iff]. Qed.

(** X4.  [jaccard_containment] never raises, its result lies between 0 and
    1, and it is 1 exactly when the first set is non-empty and included in
    the second. *)
Theorem jaccard_containment_total_bounded s t :
  ∃ q, Jaccard.jaccard_containment s t = Ok q ∧ (0 ≤ q ≤ 1)%Qc ∧
       (q = 1%Qc ↔ s ≠ [] ∧ (list_to_set s : gset A) ⊆ list_to_set t).
Proof.
  unfold Jaccard.jaccard_containment, Jaccard.jaccard_containment_body.
  rewrite (zero_on_divide_true_div
             (λ st : list A * list A,
                size (list_to_set st.1 ∩ list_to_set st.2 : gset A))
             (λ st : list A * list A, size (list_to_set st.1 : gset A)) (s, t)).
  eexists. split; [done|]. cbn [fst snd]. split.
  - apply ratio0_bounds, subseteq_size. set_solver.
  - rewrite ratio0_one. split.
    + intros [Hsz Hne]. split.
      * intros ->. by apply Hne.
      * assert (Hsub : (list_to_set s ∩ list_to_set t : gset A) ⊆ list_to_set s)
          by set_solver.
        assert (Hle : (size (list_to_set s : gset A)
                       ≤ size (list_to_set s ∩ list_to_set t : gset A))%nat)
          by lia.
        pose proof (set_subseteq_size_eq _ _ Hsub Hle) as Heq.
        intros x Hx. rewrite <-Heq in Hx. set_solver.
    + intros [Hne Hsub]. split.
      * f_equal. set_solver.
      * intros Hsz. apply size_empty_inv in Hsz. apply leibniz_equiv in Hsz.
        by apply list_to_set_empty_iff in Hsz.
Qed.

End jaccard_extra.

(** ** MinHash: further properties *)

Section minhash_extra.
Context `{Countable A}.
Variable le : relation A.
Context `{!RelDecision le}.
Variable hash_function : A → Z.
Import Minhash.

Abbreviation tag' := (λ e : A, (hash_function e, e)).

(** A slice [xs[:n]] is a prefix of [xs]. *)
Lemma slice_to_take {B} (xs : list B) (n : Z) :
  ∃ k : nat, slice_to xs n = take k xs ∧ (0 ≤ n → k = Z.to_nat n).
Proof.
  unfold slice_to. case_decide; eexists; (split; [done|]); [done|lia].
Qed.

Lemma size_list_to_set_le `{Countable B} (l : list B) :
  (size (list_to_set l : gset B) ≤ length l)%nat.
Proof.
  induction l as [|x l IH].
  - rewrite list_to_set_nil, size_empty. simpl. lia.
  - rewrite list_to_set_cons, size_union_alt, size_singleton. simpl.
    pose proof (subseteq_size (list_to_set l ∖ {[x]}) (list_to_set l : gset B)
                  ltac:(set_solver)). lia.
Qed.

Lemma foldl_union_union_list `{Countable B} (xs : list (gset B)) : ∀ x,
  foldl (∪) x xs = x ∪ ⋃ xs.
Proof.
  induction xs as [|x' xs IH]; intros x; simpl.
  - by rewrite (right_id_L ∅ (∪)).
  - by rewrite IH, (assoc_L (∪)).
Qed.

(** The general formula of [union_signature], which the two-set branch
    agrees with. *)
Lemma union_signature_cons (s0 : gset (Z * A)) sets n :
  union_signature le (s0 :: sets) n
  = Ok (list_to_set (slice_to (sorted le (elements (⋃ (s0 :: sets)))) n)).
Proof.
  unfold union_signature.
  destruct sets as [|s1 [|s2 sets]]; simpl.
  - by rewrite (right_id_L ∅ (∪)).
  - by rewrite (right_id_L ∅ (∪)).
  - rewrite foldl_union_union_list. by rewrite !(assoc_L (∪)).
Qed.

End minhash_extra.

(** X5.  For a signature length [n >= 0], [signature(s, n)] has at most
    [n] pairs, each the pair [(hash(e), e)] of a member [e] of [s]. *)
Theorem signature_bounded `{Countable A} (le : relation A) `{!RelDecision le}
  (hash_function : A → Z) (s : list A) (n : Z) (Hn : 0 ≤ n) :
  (Z.of_nat (size (Minhash.signature le hash_function s n)) ≤ n) ∧
  Minhash.signature le hash_function s n ⊆ Minhash.set_hashes hash_function s.
Proof.
  unfold Minhash.signature, Minhash.set_hashes.
  destruct (slice_to_take
              (Minhash.sorted le ((λ e, (hash_function e, e)) <$> s)) n)
    as (k & -> & Hk).
  split.
  - pose proof (size_list_to_set_le
                  (take k (Minhash.sorted le ((λ e, (hash_function e, e)) <$> s)))).
    pose proof (firstn_le_length k
                  (Minhash.sorted le ((λ e, (hash_function e, e)) <$> s))).
    specialize (Hk Hn). lia.
  - intros p. rewrite !elem_of_list_to_set, elem_of_take.
    intros (i & Hi & _). apply list_elem_of_lookup_2 in Hi.
    unfold Minhash.sorted in Hi. by rewrite merge_sort_Permutation in Hi.
Qed.

Lemma signature_bounded_witness :
  (Z.of_nat (size (Minhash.signature Z.le (λ e, e * 7 mod 5) [1; 2; 3] 2)) ≤ 2) ∧
  Minhash.signature Z.le (λ e, e * 7 mod 5) [1; 2; 3] 2
    ⊆ Minhash.set_hashes (λ e, e * 7 mod 5) [1; 2; 3].
Proof. apply (signature_bounded Z.le (λ e, e * 7 mod 5) [1; 2; 3] 2). lia. Defined.


Section minhash_extra_2.
Context `{Countable A}.
Variable le : relation A.
Context `{!RelDecision le}.
Variable hash_function : A → Z.
Import Minhash.

Lemma union_signature_two_comm (s t : gset (Z * A)) n :
  union_signature le [s; t] n = union_signature le [t; s] n.
Proof. unfold union_signature. by rewrite (comm_L (∪) s t). Qed.

Lemma union_signature_subseteq (s t X : gset (Z * A)) n :
  union_signature le [s; t] n = Ok X → X ⊆ s ∪ t.
Proof.
  unfold union_signature. intros [= <-]. intros p.
  destruct (slice_to_take (sorted le (elements (s ∪ t))) n) as (k & -> & _).
  rewrite elem_of_list_to_set, elem_of_take. intros (i & Hi & _).
  apply list_elem_of_lookup_2 in Hi. unfold sorted in Hi.
  by rewrite merge_sort_Permutation, elem_of_elements in Hi.
Qed.

Lemma union_signature_two_ok (s t : gset (Z * A)) n :
  ∃ X, union_signature le [s; t] n = Ok X.
Proof. by eexists. Qed.

Lemma union_list_Permutation `{Countable B} (l1 l2 : list (gset B)) :
  l1 ≡ₚ l2 → ⋃ l1 = ⋃ l2.
Proof.
  intros Hp. apply set_eq. intros x. rewrite !elem_of_union_list.
  by setoid_rewrite Hp.
Qed.

Lemma foldl_intersection_elem (sets : list (gset (Z * A))) : ∀ s0 p,
  p ∈ foldl (∩) s0 sets ↔ ∀ s, s ∈ s0 :: sets → p ∈ s.
Proof.
  induction sets as [|s1 sets IH]; intros s0 p; simpl.
  - split; [by intros ? s ->%list_elem_of_singleton|].
    intros Hall. apply Hall. list_in.
  - rewrite IH. split.
    + intros Hall s. rewrite !elem_of_cons. intros [->|[->|Hs]].
      * specialize (Hall (s0 ∩ s1) ltac:(list_in)). set_solver.
      * specialize (Hall (s0 ∩ s1) ltac:(list_in)). set_solver.
      * apply Hall. list_in.
    + intros Hall s. rewrite elem_of_cons. intros [->|Hs].
      * apply elem_of_intersection. split; apply Hall; list_in.
      * apply Hall. list_in.
Qed.

End minhash_extra_2.

(** The MinHash estimate is symmetric in the two signatures. *)
Lemma minhash_symmetric `{Countable A} (le : relation A) `{!RelDecision le}
  (s t : gset (Z * A)) (n : Z) :
  Minhash.minhash le s t n = Minhash.minhash le t s n.
Proof.
  destruct (union_signature_two_ok le s t n) as [X HX].
  rewrite (minhash_ratio le s t X n HX).
  rewrite union_signature_two_comm in HX.
  rewrite (minhash_ratio le t s X n HX).
  do 3 f_equal. set_solver.
Qed.

(** [minhash] never raises, and its estimate lies between 0 and 1. *)
Lemma minhash_total_bounded `{Countable A} (le : relation A)
  `{!RelDecision le} (s t : gset (Z * A)) (n : Z) :
  ∃ q, Minhash.minhash le s t n = Ok q ∧ (0 ≤ q ≤ 1)%Qc.
Proof.
  destruct (union_signature_two_ok le s t n) as [X HX].
  rewrite (minhash_ratio le s t X n HX). eexists. split; [done|].
  apply ratio0_bounds, subseteq_size. set_solver.
Qed.

(** X6.  [minhash] never raises (an empty union signature gives 0), its
    estimate lies between 0 and 1, and it is symmetric in the two
    signatures. *)
Theorem minhash_symmetric_bounded `{Countable A} (le : relation A)
  `{!RelDecision le} (s t : gset (Z * A)) (n : Z) :
  Minhash.minhash le s t n = Minhash.minhash le t s n ∧
  ∃ q, Minhash.minhash le s t n = Ok q ∧ (0 ≤ q ≤ 1)%Qc.
Proof. split; [apply minhash_symmetric|apply minhash_total_bounded]. Qed.

(** X7.  When the signature of [S] is not truncated ([S] has at most [n]
    members, given once each), [minhash_containment] of that signature in
    the full hash set of [T] is the exact containment of [S] in [T]. *)
Theorem minhash_containment_exact `{Countable A} (le : relation A)
  `{!RelDecision le} (hash_function : A → Z) (S T : list A) (n : Z)
  (HS : NoDup S) (Hn : Z.of_nat (length S) ≤ n) :
  Minhash.minhash_containment (Minhash.signature le hash_function S n)
                              (Minhash.set_hashes hash_function T)
  = Jaccard.jaccard_containment S T.
Proof.
  rewrite signature_all by done. unfold Minhash.set_hashes.
  rewrite !tagged_set.
  unfold Jaccard.jaccard_containment, Jaccard.jaccard_containment_body.
  rewrite (zero_on_divide_true_div
             (λ st : list A * list A,
                size (list_to_set st.1 ∩ list_to_set st.2 : gset A))
             (λ st : list A * list A, size (list_to_set st.1 : gset A)) (S, T)).
  unfold Minhash.minhash_containment, Minhash.minhash_containment_body.
  rewrite (zero_on_divide_true_div
             (λ st : gset (Z * A) * gset (Z * A), size (st.1 ∩ st.2))
             (λ st : gset (Z * A) * gset (Z * A), size st.1)).
  cbn [fst snd]. unfold Jaccard.containment_over_s.
  by rewrite tagged_intersection, !size_tagged.
Qed.

Lemma minhash_containment_exact_witness :
  Minhash.minhash_containment (Minhash.signature Z.le (λ e, e * 7 mod 5) [1; 2] 5)
                              (Minhash.set_hashes (λ e, e * 7 mod 5) [2; 3])
  = Jaccard.jaccard_containment [1; 2] [2; 3].
Proof.
  apply (minhash_containment_exact Z.le (λ e, e * 7 mod 5) [1; 2] [2; 3] 5).
  - exact (bool_decide_unpack (NoDup [1; 2]) I).
  - simpl. lia.
Defined.

(** X8.  [intersection_signature] of no sets raises [TypeError]; of one or
    more sets it returns the pairs that are in every one of them, whatever
    their order or grouping. *)
Theorem intersection_signature_spec `{Countable A} :
  Minhash.intersection_signature ([] : list (gset (Z * A))) = Raise TypeError ∧
  ∀ (s0 : gset (Z * A)) (sets : list (gset (Z * A))),
    ∃ X, Minhash.intersection_signature (s0 :: sets) = Ok X ∧
         ∀ p, p ∈ X ↔ ∀ s, s ∈ s0 :: sets → p ∈ s.
Proof.
  split; [done|]. intros s0 sets. eexists. split; [done|].
  apply foldl_intersection_elem.
Qed.

(** X9.  [union_signature] of no sets raises [TypeError]; of one or more
    sets it returns the [n] first pairs, in sorted order, of the union of
    all the sets, whichever branch is taken, so that on two sets the
    special branch returns what the general branch, [reduce] with [|],
    returns on them; and the result does not depend on the order of the
    sets. *)
Theorem union_signature_order `{Countable A} (le : relation A)
  `{!RelDecision le} (sets sets' : list (gset (Z * A))) (n : Z)
  (Hp : sets ≡ₚ sets') :
  Minhash.union_signature le [] n = Raise TypeError ∧
  (∀ s0 rest,
     Minhash.union_signature le (s0 :: rest) n
     = Ok (list_to_set
             (Py.slice_to (Minhash.sorted le (elements (⋃ (s0 :: rest)))) n))) ∧
  (∀ s t,
     Minhash.union_signature le [s; t] n
     = Py.bind (Py.reduce (∪) [s; t])
               (λ u, Ok (list_to_set
                           (Py.slice_to (Minhash.sorted le (elements u)) n)))) ∧
  Minhash.union_signature le sets n = Minhash.union_signature le sets' n.
Proof.
  split; [done|]. split; [intros s0 rest; apply union_signature_cons|].
  split; [done|].
  destruct sets as [|s0 sets], sets' as [|s0' sets'].
  - done.
  - by apply Permutation_nil_l in Hp.
  - by apply Permutation_nil_r in Hp.
  - rewrite !union_signature_cons. by rewrite (union_list_Permutation _ _ Hp).
Qed.

Lemma union_signature_order_witness :
  Minhash.union_signature Z.le [{[ (1, 1) ]}; {[ (2, 2) ]}; {[ (0, 3) ]}] 2
  = Minhash.union_signature Z.le [{[ (0, 3) ]}; {[ (1, 1) ]}; {[ (2, 2) ]}] 2.
Proof.
  apply (union_signature_order Z.le
           [{[ (1, 1) ]}; {[ (2, 2) ]}; {[ (0, 3) ]}]
           [{[ (0, 3) ]}; {[ (1, 1) ]}; {[ (2, 2) ]}] 2).
  change ([{[ (1, 1) ]}; {[ (2, 2) ]}] ++ [{[ (0, 3) ]}]
          ≡ₚ [({[ (0, 3) ]} : gset (Z * Z))] ++ [{[ (1, 1) ]}; {[ (2, 2) ]}]).
  apply Permutation_app_comm.
Defined.

(** ** MinHash: the [n] smallest pairs *)

Section smallest_facts.
Context `{Countable A}.
Variable le : relation A.
Context `{!RelDecision le} `{!PartialOrder le} `{!Total le}.
Variable hash_function : A → Z.
Import Minhash.

#[local] Instance tuple_le_total : Total (tuple_le le).
Proof.
  intros [h1 e1] [h2 e2]. unfold tuple_le; simpl.
  destruct (Z.lt_trichotomy h1 h2) as [?|[->|?]].
  - by left; left.
  - destruct (total le e1 e2); [left|right]; by right.
  - by right; left.
Qed.

#[local] Instance tuple_le_trans : Transitive (tuple_le le).
Proof.
  intros [h1 e1] [h2 e2] [h3 e3]. unfold tuple_le; simpl.
  intros [?|[? ?]] [?|[? ?]]; try (left; lia).
  right. split; [lia|]. by etrans.
Qed.

#[local] Instance tuple_le_antisymm : AntiSymm (=) (tuple_le le).
Proof.
  intros [h1 e1] [h2 e2]. unfold tuple_le; simpl.
  intros [?|[? ?]] [?|[? ?]]; try lia.
  f_equal; [lia|]. by apply (anti_symm le).
Qed.

(** The sorted sequence of a set of pairs. *)
Abbreviation sorted_set X := (sorted le (elements (X : gset (Z * A)))).

Lemma sorted_set_sorted X : StronglySorted (tuple_le le) (sorted_set X).
Proof. apply StronglySorted_merge_sort; apply _. Qed.

Lemma sorted_set_NoDup X : NoDup (sorted_set X).
Proof. unfold sorted. rewrite merge_sort_Permutation. apply NoDup_elements. Qed.

Lemma elem_of_sorted_set X p : p ∈ sorted_set X ↔ p ∈ X.
Proof. unfold sorted. by rewrite merge_sort_Permutation, elem_of_elements. Qed.

Lemma length_sorted_set X : length (sorted_set X) = size X.
Proof. unfold sorted. by rewrite merge_sort_Permutation. Qed.

Lemma NoDup_take_of {B} (l : list B) n : NoDup l → NoDup (take n l).
Proof. intros Hl. exact (sublist_NoDup _ _ Hl (sublist_take l n)). Qed.

(** In a sorted list without repetition, what comes before a position is
    what is below its element. *)
Lemma sorted_before (l : list (Z * A)) i p q :
  StronglySorted (tuple_le le) l → NoDup l →
  l !! i = Some p → q ∈ l → tuple_le le q p → q ≠ p → q ∈ take i l.
Proof.
  intros Hs Hnd Hi Hq Hqp Hne.
  rewrite <-(take_drop_middle l i p Hi) in Hq, Hs.
  apply elem_of_app in Hq as [Hq|Hq]; [done|].
  apply elem_of_cons in Hq as [->|Hq]; [done|].
  apply StronglySorted_app_1_r, StronglySorted_inv in Hs as [_ Hall].
  apply (proj1 (list.Forall_forall _ _) Hall) in Hq.
  destruct Hne. by apply (anti_symm (tuple_le le)).
Qed.

Lemma sorted_prefix_below (l : list (Z * A)) j p q :
  StronglySorted (tuple_le le) l → NoDup l →
  l !! j = Some p → q ∈ take j l → tuple_le le q p ∧ q ≠ p.
Proof.
  intros Hs Hnd Hj Hq.
  rewrite <-(take_drop_middle l j p Hj) in Hs, Hnd. split.
  - apply (StronglySorted_app_1_elem_of _ _ _ q p Hs Hq). list_in.
  - intros ->. apply list.NoDup_app in Hnd as (_ & Hdis & _).
    apply (Hdis p Hq). list_in.
Qed.

(** A pair among the [n] smallest of a set is among the [n] smallest of
    every subset it belongs to. *)
Lemma smallest_down (Y Z' : gset (Z * A)) (n : nat) p :
  Z' ⊆ Y → p ∈ take n (sorted_set Y) → p ∈ Z' → p ∈ take n (sorted_set Z').
Proof.
  intros Hsub Hp HpZ.
  apply elem_of_take in Hp as (i & Hi & Hin).
  assert (HpL : p ∈ sorted_set Z') by (by apply elem_of_sorted_set).
  apply list_elem_of_lookup_1 in HpL as [j Hj].
  apply elem_of_take. exists j. split; [done|].
  enough (j ≤ i)%nat by lia.
  assert (Hlen : (length (take j (sorted_set Z')) ≤ length (take i (sorted_set Y)))%nat).
  { apply submseteq_length, NoDup_submseteq.
    - apply NoDup_take_of, sorted_set_NoDup.
    - intros q Hq.
      destruct (sorted_prefix_below _ j p q (sorted_set_sorted Z')
                  (sorted_set_NoDup Z') Hj Hq) as [Hqp Hne].
      apply (sorted_before _ i p q (sorted_set_sorted Y) (sorted_set_NoDup Y) Hi);
        [|done..].
      apply elem_of_sorted_set, Hsub, elem_of_sorted_set.
      apply elem_of_take in Hq as (k & Hk & _).
      by apply list_elem_of_lookup_2 in Hk. }
  apply lookup_lt_Some in Hj, Hi.
  rewrite !length_take in Hlen. lia.
Qed.

Lemma size_smallest (X : gset (Z * A)) (n : nat) :
  size (list_to_set (take n (sorted_set X)) : gset (Z * A))
  = (n `min` size X)%nat.
Proof.
  rewrite size_list_to_set.
  - by rewrite length_take, length_sorted_set.
  - apply NoDup_take_of, sorted_set_NoDup.
Qed.

(** If the [n] smallest pairs of [Y] all lie in a subset [X] of [Y], they
    are the [n] smallest pairs of [X]. *)
Lemma smallest_subset (X Y : gset (Z * A)) (n : nat) :
  X ⊆ Y →
  (list_to_set (take n (sorted_set Y)) : gset (Z * A)) ⊆ X →
  (list_to_set (take n (sorted_set X)) : gset (Z * A))
  = list_to_set (take n (sorted_set Y)).
Proof.
  intros Hsub Hin. symmetry.
  assert (Hsub' : (list_to_set (take n (sorted_set Y)) : gset (Z * A))
                  ⊆ list_to_set (take n (sorted_set X))).
  { intros p Hp. pose proof (Hin p Hp) as HpX.
    rewrite elem_of_list_to_set in Hp |- *. by apply (smallest_down Y X). }
  apply (set_subseteq_size_eq _ _ Hsub').
  rewrite !size_smallest. pose proof (subseteq_size X Y Hsub). lia.
Qed.


Abbreviation tagged l :=
  (list_to_set ((λ e : A, (hash_function e, e)) <$> l) : gset (Z * A)).

(** The sorted sequence [signature] takes its slice from, for a set given
    by its distinct members. *)
Lemma sorted_tagged (S : list A) :
  NoDup S →
  sorted le ((λ e : A, (hash_function e, e)) <$> S) = sorted_set (tagged S).
Proof.
  intros HS. unfold sorted. apply (Sorted_unique (tuple_le le)).
  - apply Sorted_merge_sort, _.
  - apply Sorted_merge_sort, _.
  - rewrite !merge_sort_Permutation. symmetry. apply elements_list_to_set.
    apply NoDup_fmap_2; [|done]. by intros x y [= _ ->].
Qed.

Lemma signature_smallest_set (S : list A) (n : Z) :
  0 ≤ n → NoDup S →
  signature le hash_function S n
  = list_to_set (take (Z.to_nat n) (sorted_set (tagged S))).
Proof.
  intros Hn HS. unfold signature, slice_to.
  rewrite decide_True by done. by rewrite sorted_tagged.
Qed.

(** X10.  [signature] keeps the smallest pairs: every pair it keeps is
    below, in the order of the tuples [(hash, element)], every pair of a
    member that it leaves out. *)
Theorem signature_keeps_smallest (S : list A) (n : Z) (p q : Z * A)
  (Hp : p ∈ signature le hash_function S n)
  (Hq : q ∈ set_hashes hash_function S)
  (Hout : q ∉ signature le hash_function S n) :
  tuple_le le p q.
Proof.
  unfold signature, set_hashes in *.
  destruct (slice_to_take
              (sorted le ((λ e : A, (hash_function e, e)) <$> S)) n)
    as (k & Hk & _).
  rewrite Hk in Hp, Hout. rewrite elem_of_list_to_set in Hp, Hq, Hout.
  set (l := sorted le ((λ e : A, (hash_function e, e)) <$> S)) in *.
  assert (Hs : StronglySorted (tuple_le le) l)
    by (apply StronglySorted_merge_sort; apply _).
  assert (Hql : q ∈ l) by (unfold l, sorted; by rewrite merge_sort_Permutation).
  rewrite <-(take_drop k l) in Hs, Hql.
  apply elem_of_app in Hql as [?|Hql]; [done|].
  by apply (StronglySorted_app_1_elem_of _ _ _ p q Hs).
Qed.

(** X11.  The signature of a union from the signatures: for sets [S] and
    [T] given by their distinct members and [n >= 0], [union_signature] of
    [signature(S, n)] and [signature(T, n)] is the signature of length [n]
    of the union of [S] and [T]. *)
Theorem union_signature_of_signatures (S T : list A) (n : Z)
  (Hn : 0 ≤ n) (HS : NoDup S) (HT : NoDup T) :
  union_signature le [signature le hash_function S n;
                      signature le hash_function T n] n
  = Ok (signature le hash_function
          (elements (list_to_set S ∪ list_to_set T : gset A)) n).
Proof.
  rewrite !signature_smallest_set by (done || apply NoDup_elements).
  set (k := Z.to_nat n).
  assert (HU : tagged (elements (list_to_set S ∪ list_to_set T : gset A))
               = tagged S ∪ tagged T).
  { apply set_eq. intros p.
    rewrite elem_of_union, !elem_of_list_to_set, !list_elem_of_fmap.
    setoid_rewrite elem_of_elements. setoid_rewrite elem_of_union.
    setoid_rewrite elem_of_list_to_set. naive_solver. }
  rewrite HU. unfold union_signature, slice_to.
  rewrite decide_True by done. fold k. f_equal.
  assert (Hsub : ∀ X, (list_to_set (take k (sorted_set X)) : gset (Z * A)) ⊆ X).
  { intros X p. rewrite elem_of_list_to_set, elem_of_take.
    intros (i & Hi & _). apply list_elem_of_lookup_2 in Hi.
    by apply elem_of_sorted_set in Hi. }
  apply smallest_subset.
  - pose proof (Hsub (tagged S)). pose proof (Hsub (tagged T)). set_solver.
  - intros p Hp. pose proof (Hsub _ p Hp) as HpU.
    rewrite elem_of_list_to_set in Hp.
    apply elem_of_union in HpU as [HpS|HpT].
    + apply elem_of_union_l, elem_of_list_to_set.
      apply (smallest_down (tagged S ∪ tagged T)); [set_solver|done..].
    + apply elem_of_union_r, elem_of_list_to_set.
      apply (smallest_down (tagged S ∪ tagged T)); [set_solver|done..].
Qed.

End smallest_facts.

Lemma signature_keeps_smallest_witness :
  Minhash.tuple_le Z.le (1, 3) (4, 2).
Proof.
  apply (signature_keeps_smallest Z.le (λ e, e * 7 mod 5) [1; 2; 3] 2);
    apply (bool_decide_unpack _); vm_compute; exact I.
Defined.

Lemma union_signature_of_signatures_witness :
  Minhash.union_signature Z.le
    [Minhash.signature Z.le (λ e, e * 7 mod 5) [1; 2; 3] 2;
     Minhash.signature Z.le (λ e, e * 7 mod 5) [3; 4] 2] 2
  = Ok (Minhash.signature Z.le (λ e, e * 7 mod 5)
          (elements (list_to_set [1; 2; 3] ∪ list_to_set [3; 4] : gset Z)) 2).
Proof.
  apply (union_signature_of_signatures Z.le (λ e, e * 7 mod 5) [1; 2; 3] [3; 4] 2).
  - lia.
  - exact (bool_decide_unpack (NoDup [1; 2; 3]) I).
  - exact (bool_decide_unpack (NoDup [3; 4]) I).
Defined.

(** ** The interval functions: further properties *)

Section intervals_extra.
Import Intervals.

Lemma separated_covers_ge r u z :
  separated (r :: u) → covers (r :: u) z → start r ≤ z.
Proof.
  intros Hsep [Hz|Hz]%covers_cons; [unfold in_range in Hz; lia|].
  apply list.Exists_exists in Hz as (x & Hx & Hzx).
  pose proof (separated_elem _ _ _ Hsep Hx). destruct Hsep as (? & _).
  unfold in_range in Hzx. lia.
Qed.

Lemma separated_covers_tail r u z :
  separated (r :: u) → covers u z → stop r < z.
Proof.
  intros Hsep Hz. apply list.Exists_exists in Hz as (x & Hx & Hzx).
  pose proof (separated_elem _ _ _ Hsep Hx). unfold in_range in Hzx. lia.
Qed.

Lemma separated_stop_uncovered r u :
  separated (r :: u) → ¬ covers (r :: u) (stop r).
Proof.
  intros Hsep [Hz|Hz]%covers_cons; [unfold in_range in Hz; lia|].
  pose proof (separated_covers_tail _ _ _ Hsep Hz). lia.
Qed.

Lemma separated_head_eq r u r' u' :
  separated (r :: u) → separated (r' :: u') →
  (∀ z, covers (r :: u) z ↔ covers (r' :: u') z) →
  start r = start r' ∧ stop r ≤ stop r'.
Proof.
  intros Hsep Hsep' Hcov.
  pose proof Hsep as (Hne & _). pose proof Hsep' as (Hne' & _).
  assert (H1 : start r' ≤ start r).
  { apply (separated_covers_ge r' u'); [done|]. apply Hcov, covers_cons.
    left. unfold in_range. lia. }
  assert (H2 : start r ≤ start r').
  { apply (separated_covers_ge r u); [done|]. apply Hcov, covers_cons.
    left. unfold in_range. lia. }
  split; [lia|].
  destruct (decide (stop r ≤ stop r')) as [|Hgt]; [done|]. exfalso.
  apply (separated_stop_uncovered r' u' Hsep'). apply Hcov, covers_cons.
  left. unfold in_range. lia.
Qed.

(** A set of points has one separated list of ranges. *)
Lemma separated_unique u : ∀ u',
  separated u → separated u' →
  (∀ z, covers u z ↔ covers u' z) → u = u'.
Proof.
  induction u as [|r u IH]; intros [|r' u'] Hsep Hsep' Hcov.
  - done.
  - exfalso. destruct Hsep' as (Hne & _).
    apply (covers_nil (start r')), Hcov, covers_cons. left.
    unfold in_range. lia.
  - exfalso. destruct Hsep as (Hne & _).
    apply (covers_nil (start r)), Hcov, covers_cons. left.
    unfold in_range. lia.
  - destruct (separated_head_eq r u r' u' Hsep Hsep' Hcov) as [Hs Ht].
    destruct (separated_head_eq r' u' r u Hsep' Hsep) as [_ Ht'].
    { intros z. by rewrite Hcov. }
    assert (r = r') as <-.
    { destruct r, r'; simpl in *; f_equal; lia. }
    f_equal. apply IH.
    + by destruct Hsep as (_ & _ & ?).
    + by destruct Hsep' as (_ & _ & ?).
    + intros z. split; intros Hz.
      * pose proof (separated_covers_tail _ _ _ Hsep Hz).
        assert (Hc : covers (r :: u') z) by (apply Hcov, covers_cons; auto).
        apply covers_cons in Hc as [Hc|Hc]; [unfold in_range in Hc; lia|done].
      * pose proof (separated_covers_tail _ _ _ Hsep' Hz).
        assert (Hc : covers (r :: u) z) by (apply Hcov, covers_cons; auto).
        apply covers_cons in Hc as [Hc|Hc]; [unfold in_range in Hc; lia|done].
Qed.

End intervals_extra.

(** X12.  [_merge_ranges] keeps the covered points for every input, ranges
    of zero or negative length included: a point is in a range of the
    result exactly when it is in a range of the input. *)
Theorem merge_ranges_same_points (ranges : list Intervals.range) (z : Z) :
  Intervals.covers (Intervals._merge_ranges ranges) z
  ↔ Intervals.covers ranges z.
Proof. apply merge_ranges_covers. Qed.

(** X13.  The result of [_merge_ranges] does not depend on the order in
    which the ranges are given. *)
Theorem merge_ranges_order_independent (l1 l2 : list Intervals.range)
  (Hp : l1 ≡ₚ l2) :
  Intervals._merge_ranges l1 = Intervals._merge_ranges l2.
Proof. by apply merge_ranges_Permutation. Qed.

Lemma merge_ranges_order_independent_witness :
  Intervals._merge_ranges [Intervals.Range 8 10; Intervals.Range 0 5; Intervals.Range 3 6]
  = Intervals._merge_ranges [Intervals.Range 0 5; Intervals.Range 3 6; Intervals.Range 8 10].
Proof.
  apply (merge_ranges_order_independent
           [Intervals.Range 8 10; Intervals.Range 0 5; Intervals.Range 3 6]
           [Intervals.Range 0 5; Intervals.Range 3 6; Intervals.Range 8 10]).
  change ([Intervals.Range 8 10] ++ [Intervals.Range 0 5; Intervals.Range 3 6]
          ≡ₚ [Intervals.Range 0 5; Intervals.Range 3 6] ++ [Intervals.Range 8 10]).
  apply Permutation_app_comm.
Defined.

(** X14.  The result of [_merge_ranges] is a canonical form: two collections
    of non-empty ranges that cover the same points are merged into the same
    list. *)
Theorem merge_ranges_canonical (l1 l2 : list Intervals.range)
  (H1 : Forall (λ r, Intervals.start r < Intervals.stop r) l1)
  (H2 : Forall (λ r, Intervals.start r < Intervals.stop r) l2)
  (Hcov : ∀ z, Intervals.covers l1 z ↔ Intervals.covers l2 z) :
  Intervals._merge_ranges l1 = Intervals._merge_ranges l2.
Proof.
  apply separated_unique.
  - by apply merge_ranges_separated.
  - by apply merge_ranges_separated.
  - intros z. by rewrite !merge_ranges_covers.
Qed.

Lemma merge_ranges_canonical_witness :
  Intervals._merge_ranges [Intervals.Range 0 5; Intervals.Range 3 10]
  = Intervals._merge_ranges [Intervals.Range 0 2; Intervals.Range 2 10].
Proof.
  apply merge_ranges_canonical.
  - repeat constructor; simpl; lia.
  - repeat constructor; simpl; lia.
  - intros z. unfold Intervals.covers.
    rewrite !Exists_cons, !Exists_nil. unfold Intervals.in_range. simpl. lia.
Defined.

(** ** Family: regions and memo tables *)

Section family_extra.
Context {V : Type}.
Implicit Types (f : Family.Family V) (h : Family.Hashes V).

Lemma elem_of_regions f (p : string) (s e : Z) :
  (p, s, e) ∈ Family.regions V f ↔
  ∃ rs, Family._regions V f !! p = Some rs ∧ (s, e) ∈ rs.
Proof.
  unfold Family.regions. rewrite list_elem_of_bind. split.
  - intros ([k rs] & Hin & Hkv%elem_of_map_to_list).
    apply list_elem_of_fmap in Hin as ([s' e'] & [= -> -> ->] & Hr).
    by exists rs.
  - intros (rs & Hl & Hr). exists (p, rs). split.
    + apply list_elem_of_fmap. by exists (s, e).
    + by apply elem_of_map_to_list.
Qed.

(** The triples of one protein, then those of the other proteins. *)
Lemma regions_insert (d : gmap string (list (Z * Z))) (acc : string)
  (rs : list (Z * Z)) (sigs fhs : gmap positive V) (fin : bool) :
  Family.regions V {| Family._regions := <[acc := rs]> d;
                      Family._signatures := sigs; Family._fhashes := fhs;
                      Family._finalised := fin |}
  ≡ₚ ((λ r : Z * Z, (acc, r.1, r.2)) <$> rs)
     ++ Family.regions V {| Family._regions := delete acc d;
                            Family._signatures := sigs; Family._fhashes := fhs;
                            Family._finalised := fin |}.
Proof.
  unfold Family.regions. cbn [Family._regions].
  rewrite <-(insert_delete_eq d acc rs).
  rewrite map_to_list_insert by apply lookup_delete_eq.
  by rewrite bind_cons.
Qed.

(** X15.  [add_region] on a finalised family raises [RuntimeError].  On a
    family that is not finalised and was created by [Family()], whose
    [_regions] is a [defaultdict], it succeeds and leaves the family not
    finalised: the pair [(start, end)] is appended to the list of the
    protein (a new list for a new protein), the lists of the other
    proteins are left alone, and [regions()] yields the triples it yielded
    before, as often as before, and once more [(acc, start, end)].  On a
    family built from a plain [dict] the same happens when the protein is
    a key, and [KeyError] is raised when it is not. *)
Theorem add_region_regions f (acc : string) (start_ end_ : Z) :
  if Family._finalised V f
  then Family.add_region V f acc start_ end_ = Raise RuntimeError ∧
       Family.add_region_dict V f acc start_ end_ = Raise RuntimeError
  else (∃ f', Family.add_region V f acc start_ end_ = Ok f' ∧
              Family._finalised V f' = false ∧
              Family._regions V f' !! acc
                = Some (default [] (Family._regions V f !! acc)
                        ++ [(start_, end_)]) ∧
              (∀ p, p ≠ acc →
                    Family._regions V f' !! p = Family._regions V f !! p) ∧
              Family.regions V f'
                ≡ₚ Family.regions V f ++ [(acc, start_, end_)]) ∧
       Family.add_region_dict V f acc start_ end_
         = match Family._regions V f !! acc with
           | Some _ => Family.add_region V f acc start_ end_
           | None => Raise KeyError
           end.
Proof.
  unfold Family.add_region, Family.add_region_dict.
  destruct (Family._finalised V f) eqn:Hfin; [done|]. cbn [negb].
  split; [|by destruct (Family._regions V f !! acc)].
  eexists. split; [done|]. split; [done|]. cbn [Family._regions].
  split; [by rewrite lookup_insert_eq|].
  split; [by intros p Hp; rewrite lookup_insert_ne|].
  rewrite regions_insert, fmap_app. cbn [fmap list_fmap fst snd].
  assert (Hold : Family.regions V f
            ≡ₚ ((λ r : Z * Z, (acc, r.1, r.2))
                <$> default [] (Family._regions V f !! acc))
               ++ Family.regions V
                    {| Family._regions := delete acc (Family._regions V f);
                       Family._signatures := ∅;
                       Family._fhashes := Family._fhashes V f;
                       Family._finalised := false |}).
  { destruct (Family._regions V f !! acc) as [rs|] eqn:Hacc.
    - rewrite <-(regions_insert (Family._regions V f) acc rs).
      unfold Family.regions. cbn [Family._regions].
      by rewrite insert_id.
    - simpl. unfold Family.regions. cbn [Family._regions].
      by rewrite delete_id. }
  rewrite Hold. rewrite <-!app_assoc. apply Permutation_app_head.
  apply Permutation_app_comm.
Qed.

(** X16.  A memoized signature is computed once: a second call of
    [signature] with the same repository returns the same value and leaves
    the family as the first call left it, and the first call changes
    neither the regions, nor the memoized full hashes, nor the signatures
    memoized for other repositories. *)
Theorem signature_memoized f h :
  Family.signature V (Family.signature V f h).2 h = Family.signature V f h ∧
  Family._regions V (Family.signature V f h).2 = Family._regions V f ∧
  Family._fhashes V (Family.signature V f h).2 = Family._fhashes V f ∧
  ∀ h', Family.hashes_id V h' ≠ Family.hashes_id V h →
        Family._signatures V (Family.signature V f h).2 !! Family.hashes_id V h'
        = Family._signatures V f !! Family.hashes_id V h'.
Proof.
  unfold Family.signature.
  destruct (Family._signatures V f !! Family.hashes_id V h) eqn:Hl; simpl.
  - by rewrite Hl.
  - rewrite lookup_insert_eq. repeat split; try done.
    intros h' Hne. by rewrite lookup_insert_ne.
Qed.

(** X17.  After [finalise] the memo tables can no longer go stale: every
    later [add_region] raises, [full_hash] and [signature] keep returning
    what they returned first, and [finalise] is idempotent. *)
Theorem finalised_family_frozen f h acc (start_ end_ : Z) :
  let f0 := Family.finalise V f in
  Family.finalise V f0 = f0 ∧
  Family.add_region V f0 acc start_ end_ = Raise RuntimeError ∧
  Family.add_region V (Family.full_hash V f0 h).2 acc start_ end_
    = Raise RuntimeError ∧
  Family.full_hash V (Family.full_hash V f0 h).2 h = Family.full_hash V f0 h ∧
  (Family.full_hash V f0 h).1
    = match Family._fhashes V f !! Family.hashes_id V h with
      | Some v => v
      | None => Family.hashes_full_hash V h (Family._regions V f)
      end.
Proof.
  intros f0. unfold f0, Family.finalise, Family.add_region, Family.full_hash.
  cbn [Family._finalised Family._fhashes Family._regions].
  destruct (Family._fhashes V f !! Family.hashes_id V h) eqn:Hl;
    cbn [fst snd Family._finalised Family._fhashes Family._regions negb].
  - by rewrite Hl.
  - by rewrite lookup_insert_eq.
Qed.

End family_extra.

(** ** Family: what [union] and [overlap] cover *)

Section family_cover_extra.
Context {V : Type}.
Import Intervals.
Implicit Types (f : Family.Family V).

Lemma covers_elem (l : list range) z :
  covers l z ↔ ∃ r, r ∈ l ∧ in_range z r.
Proof. unfold covers. by rewrite list.Exists_exists. Qed.

(** A range that the set refuses is empty or already there: the points
    are kept. *)
Lemma covers_rangeset_add o s z :
  covers (rangeset_add o s) z ↔ in_range z o ∨ covers s z.
Proof.
  unfold rangeset_add. case_decide as Hex.
  - split; [auto|]. intros [Ho|?]; [|done].
    apply list.Exists_exists in Hex as (y & Hy & Heq).
    apply covers_elem. exists y. split; [done|].
    destruct Heq as [[H0 _] | <-]; [|done].
    unfold in_range, range_len in *. lia.
  - rewrite !covers_elem. setoid_rewrite elem_of_app.
    setoid_rewrite list_elem_of_singleton. split.
    + intros (r & [?| ->] & ?); eauto.
    + intros [?|(r & ? & ?)]; eauto.
Qed.

Lemma covers_range_set_acc (l : list (Z * Z)) z : ∀ acc,
  covers (foldl (λ rs '(s, e), rangeset_add (Range s (e + 1)) rs) acc l) z
  ↔ covers acc z ∨ ∃ p, p ∈ l ∧ p.1 ≤ z ≤ p.2.
Proof.
  induction l as [|[s e] l IH]; intros acc; simpl.
  - split; [auto|]. by intros [?|(p & ?%elem_of_nil & _)].
  - rewrite IH, covers_rangeset_add. setoid_rewrite elem_of_cons.
    unfold in_range; simpl. split.
    + intros [[?|?]|(p & ? & ?)]; eauto.
      right. exists (s, e). simpl. split; [auto|lia].
    + intros [?|(p & [->|?] & ?)]; eauto.
      simpl in *. left. left. lia.
Qed.

Lemma covers_range_set (l : list (Z * Z)) z :
  covers (Family.range_set l) z ↔ ∃ p, p ∈ l ∧ p.1 ≤ z ≤ p.2.
Proof.
  unfold Family.range_set. rewrite covers_range_set_acc.
  split; [|auto]. intros [H%covers_elem|?]; [|done].
  by destruct H as (? & ?%elem_of_nil & _).
Qed.

Lemma elem_of_regions_on protein f (p : Z * Z) :
  p ∈ Family.regions_on V protein f ↔ (protein, p.1, p.2) ∈ Family.regions V f.
Proof.
  rewrite elem_of_regions. unfold Family.regions_on.
  destruct (Family._regions V f !! protein) as [rs|].
  - rewrite elem_of_list_to_set. destruct p as [s e]. simpl. split.
    + intros ?. by exists rs.
    + by intros (? & [= <-] & ?).
  - split; [by intros ?%not_elem_of_empty|]. by intros (? & [=] & _).
Qed.

Lemma elem_of_proteins protein f :
  protein ∈ Family.proteins V f ↔ is_Some (Family._regions V f !! protein).
Proof. unfold Family.proteins. apply elem_of_dom. Qed.

Lemma union_covers_lemma (it : gset (Z * Z) → list (Z * Z))
  (self : Family.Family V) (others : list (Family.Family V))
  (protein : string) (z : Z) :
  (∀ X p, p ∈ it X ↔ p ∈ X) →
  (∃ u, Family.union V it self others !! protein = Some u ∧ covers u z) ↔
  ∃ f s e, f ∈ self :: others ∧ (protein, s, e) ∈ Family.regions V f ∧ s ≤ z ≤ e.
Proof.
  intros Hit. setoid_rewrite union_lookup. split.
  - intros (u & [_ ->] & Hc). rewrite merge_ranges_covers in Hc.
    apply covers_range_set in Hc as ([s e] & Hp & Hz).
    apply Hit, elem_of_union_all in Hp as (Y & HY & Hp).
    change (Y ∈ Family.regions_on V protein <$> (self :: others)) in HY.
    apply list_elem_of_fmap in HY as (f & -> & Hf).
    apply elem_of_regions_on in Hp. by exists f, s, e.
  - intros (f & s & e & Hf & Hr & Hz). eexists. split; [split; [|done]|].
    + apply elem_of_union_all. exists (Family.proteins V f). split.
      * change (Family.proteins V f ∈ Family.proteins V <$> (self :: others)).
        apply list_elem_of_fmap. by exists f.
      * apply elem_of_proteins. apply elem_of_regions in Hr as (rs & -> & _).
        by eexists.
    + rewrite merge_ranges_covers. apply covers_range_set. exists (s, e).
      split; [|done]. apply Hit, elem_of_union_all.
      exists (Family.regions_on V protein f). split.
      * change (Family.regions_on V protein f
                ∈ Family.regions_on V protein <$> (self :: others)).
        apply list_elem_of_fmap. by exists f.
      * by apply elem_of_regions_on.
Qed.

Lemma region_ranges_nonempty (rs : list (Z * Z)) :
  Forall (λ r : Z * Z, r.1 ≤ r.2) rs →
  Forall (λ r, start r < stop r) (Family.region_ranges rs).
Proof.
  intros Hv. unfold Family.region_ranges. apply list.Forall_fmap.
  eapply list.Forall_impl; [done|]. intros [s e]; simpl. lia.
Qed.

Lemma covers_region_ranges (rs : list (Z * Z)) z :
  covers (Family.region_ranges rs) z ↔ ∃ p, p ∈ rs ∧ p.1 ≤ z ≤ p.2.
Proof.
  rewrite covers_elem. unfold Family.region_ranges.
  setoid_rewrite list_elem_of_fmap. unfold in_range. split.
  - intros (r & (p & -> & Hp) & Hz). exists p. simpl in Hz. split; [done|lia].
  - intros (p & Hp & Hz). exists (Range p.1 (p.2 + 1)). split; [by exists p|].
    simpl. lia.
Qed.

(** On a valid family, [union()] without other families stores for each
    protein the merged ranges of its own regions. *)
Lemma union_self_lemma (it : gset (Z * Z) → list (Z * Z)) f :
  (∀ X, it X ≡ₚ elements X) →
  Family.valid V f →
  Family.union V it f []
  = (λ rs, _merge_ranges (Family.region_ranges rs)) <$> Family._regions V f.
Proof.
  intros Hit Hv. apply map_eq. intros protein. apply option_eq. intros u.
  rewrite union_lookup, lookup_fmap. simpl. unfold Family.union_all; simpl.
  rewrite elem_of_proteins. unfold Family.regions_on.
  destruct (Family._regions V f !! protein) as [rs|] eqn:Hrs; simpl.
  - assert (Heq : _merge_ranges (Family.range_set (it (list_to_set rs)))
                  = _merge_ranges (Family.region_ranges rs)).
    { apply separated_unique.
      - apply merge_ranges_separated. apply list.Forall_forall. intros x Hx.
        unfold Family.range_set in Hx. rewrite elem_of_range_set_acc in Hx.
        + destruct Hx as [?%elem_of_nil|Hx]; [done|].
          apply list_elem_of_fmap in Hx as (p & -> & Hp). simpl.
          rewrite Hit, elem_of_elements, elem_of_list_to_set in Hp.
          pose proof (proj1 (list.Forall_forall _ _) (Hv _ _ Hrs) _ Hp) as Hle.
          simpl in Hle. lia.
        + apply list.Forall_forall. intros p Hp.
          rewrite Hit, elem_of_elements, elem_of_list_to_set in Hp.
          by apply (proj1 (list.Forall_forall _ _) (Hv _ _ Hrs)).
      - apply merge_ranges_separated, region_ranges_nonempty, (Hv _ _ Hrs).
      - intros z. rewrite !merge_ranges_covers, covers_range_set,
          covers_region_ranges.
        by setoid_rewrite Hit; setoid_rewrite elem_of_elements;
          setoid_rewrite elem_of_list_to_set. }
    rewrite Heq. split.
    + by intros [_ ->].
    + intros [= <-]. split; [by eexists|done].
  - split; [by intros [[? [=]] _]|done].
Qed.

Lemma overlap_lookup (A B : Family.Family V) :
  ∃ m, Family.overlap V A B = Ok m ∧
       ∀ k, m !! k =
            if decide (k ∈ Family.proteins V A ∩ Family.proteins V B)
            then Some (_merge_ranges
                         (Family.overlap_regions
                            (default [] (Family._regions V A !! k))
                            (default [] (Family._regions V B !! k))))
            else None.
Proof.
  unfold Family.overlap, Family.proteins.
  destruct (decide (size (dom (Family._regions V A))
                    < size (dom (Family._regions V B)))%nat) as [Hlt|Hge].
  - rewrite !dict_slice_items
      by (apply intersection_subseteq_l || apply intersection_subseteq_r).
    rewrite overlap_loop_items. eexists. split; [done|]. intros k.
    rewrite lookup_foldl_insert.
    repeat case_decide; try done;
      rewrite merge_sort_Permutation, elem_of_elements in *; done.
  - rewrite !dict_slice_items
      by (apply intersection_subseteq_l || apply intersection_subseteq_r).
    rewrite overlap_loop_items. eexists. split; [done|]. intros k.
    rewrite lookup_foldl_insert.
    rewrite (comm_L (∩) (dom (Family._regions V A))).
    repeat case_decide; try done;
      try (rewrite merge_sort_Permutation, elem_of_elements in *; done).
    f_equal. apply merge_ranges_Permutation, overlap_regions_comm.
Qed.

Lemma covers_overlap_regions (r1 r2 : list (Z * Z)) z :
  covers (Family.overlap_regions r1 r2) z ↔
  (∃ p, p ∈ r1 ∧ p.1 ≤ z ≤ p.2) ∧ (∃ p, p ∈ r2 ∧ p.1 ≤ z ≤ p.2).
Proof.
  rewrite covers_elem. setoid_rewrite elem_of_overlap_regions. split.
  - intros (x & (p1 & p2 & H1 & H2 & -> & _) & Hz).
    unfold in_range, overlap in Hz. simpl in Hz.
    split; [exists p1|exists p2]; (split; [done|lia]).
  - intros [(p1 & H1 & Hz1) (p2 & H2 & Hz2)].
    exists (overlap p1.1 p1.2 p2.1 p2.2). split.
    + exists p1, p2. repeat split; try done.
      unfold range_len, overlap; simpl. lia.
    + unfold in_range, overlap; simpl. lia.
Qed.

Lemma lookup_regions_default f k (p : Z * Z) :
  p ∈ default [] (Family._regions V f !! k) ↔
  (k, p.1, p.2) ∈ Family.regions V f.
Proof.
  rewrite elem_of_regions. destruct p as [s e]. simpl.
  destruct (Family._regions V f !! k) as [rs|]; simpl.
  - split; [by exists rs|]. by intros (? & [= <-] & ?).
  - split; [by intros ?%elem_of_nil|]. by intros (? & [=] & _).
Qed.

End family_cover_extra.

(** X18.  What [union] covers: when the iteration of a set of tuples yields
    exactly its members, an integer [z] lies in a range that
    [self.union(others...)] stores for a protein exactly when one of the
    families has a region [(s, e)] of that protein with [s <= z <= e]
    (regions with [s > e] included: they cover nothing). *)
Theorem union_covers {V : Type} (it : gset (Z * Z) → list (Z * Z))
  (self : Family.Family V) (others : list (Family.Family V))
  (protein : string) (z : Z)
  (Hit : ∀ X p, p ∈ it X ↔ p ∈ X) :
  (∃ u, Family.union V it self others !! protein = Some u
        ∧ Intervals.covers u z) ↔
  ∃ f s e, f ∈ self :: others ∧ (protein, s, e) ∈ Family.regions V f
           ∧ s ≤ z ≤ e.
Proof. by apply union_covers_lemma. Qed.

Lemma union_covers_witness :
  let mk := λ d, {| Family._regions := d; Family._signatures := ∅;
                    Family._fhashes := ∅; Family._finalised := false |}
                 : Family.Family unit in
  let f1 := mk (<["a1" := [(10, 20)]]> ∅) in
  let f2 := mk (<["a1" := [(15, 20); (30, 40)]]> ∅) in
  (∃ u, Family.union unit elements f1 [f2] !! "a1" = Some u
        ∧ Intervals.covers u 35) ↔
  ∃ f s e, f ∈ [f1; f2] ∧ ("a1", s, e) ∈ Family.regions unit f ∧ s ≤ 35 ≤ e.
Proof.
  intros mk f1 f2.
  apply (union_covers elements f1 [f2] "a1" 35).
  intros X p. apply elem_of_elements.
Defined.

(** X19.  For a family whose regions satisfy [start <= end], [union()]
    without other families is the family's own merged coverage: the entry
    of each protein is [_merge_ranges] of the ranges of its regions, the
    lists whose lengths [residues_covered] adds up. *)
Theorem union_self_coverage {V : Type} (it : gset (Z * Z) → list (Z * Z))
  (f : Family.Family V)
  (Hit : ∀ X, it X ≡ₚ elements X) (Hv : Family.valid V f) :
  Family.union V it f []
  = (λ rs, Intervals._merge_ranges (Family.region_ranges rs))
      <$> Family._regions V f.
Proof. by apply union_self_lemma. Qed.

Lemma union_self_coverage_witness :
  let f := {| Family._regions := <["a1" := [(15, 20); (30, 40); (21, 25)]]> ∅;
              Family._signatures := ∅; Family._fhashes := ∅;
              Family._finalised := false |} : Family.Family unit in
  Family.union unit elements f []
  = (λ rs, Intervals._merge_ranges (Family.region_ranges rs))
      <$> Family._regions unit f.
Proof.
  intros f. apply (union_self_coverage elements f); [by intros X|].
  apply (bool_decide_unpack _); vm_compute; exact I.
Defined.

(** X20.  What [overlap] covers: [A.overlap(B)] returns without an error,
    for all families, and an integer [z] lies in a range stored for a
    protein exactly when both families have a region [(s, e)] of that
    protein with [s <= z <= e]; the early exit of the inner loop loses
    nothing. *)
Theorem overlap_covers {V : Type} (A B : Family.Family V) :
  ∃ m, Family.overlap V A B = Ok m ∧
       ∀ (protein : string) (z : Z),
         (∃ u, m !! protein = Some u ∧ Intervals.covers u z) ↔
         (∃ s e, (protein, s, e) ∈ Family.regions V A ∧ s ≤ z ≤ e) ∧
         (∃ s e, (protein, s, e) ∈ Family.regions V B ∧ s ≤ z ≤ e).
Proof.
  destruct (overlap_lookup A B) as (m & Hm & Hl). exists m. split; [done|].
  intros protein z. rewrite Hl. split.
  - intros (u & Hu & Hc). case_decide; [|done].
    injection Hu as <-. rewrite merge_ranges_covers in Hc.
    apply covers_overlap_regions in Hc as [(p1 & H1 & Hz1) (p2 & H2 & Hz2)].
    apply lookup_regions_default in H1, H2.
    split; [by exists p1.1, p1.2|by exists p2.1, p2.2].
  - intros [(s1 & e1 & H1 & Hz1) (s2 & e2 & H2 & Hz2)].
    rewrite decide_True.
    + eexists. split; [done|]. rewrite merge_ranges_covers.
      apply covers_overlap_regions.
      split; [exists (s1, e1)|exists (s2, e2)];
        (split; [by apply lookup_regions_default|done]).
    + apply elem_of_intersection. rewrite !elem_of_proteins.
      apply elem_of_regions in H1 as (? & -> & _).
      apply elem_of_regions in H2 as (? & -> & _). by split; eexists.
Qed.

(** X21.  The ranges [overlap] stores for a protein are, for all families,
    non-empty, sorted, pairwise disjoint and not adjacent; a protein that
    both families have but on which they share no residue is stored with
    an empty list rather than left out. *)
Theorem overlap_separated {V : Type} (A B : Family.Family V) :
  ∃ m, Family.overlap V A B = Ok m ∧
       ∀ (protein : string),
         if decide (protein ∈ Family.proteins V A ∩ Family.proteins V B)
         then ∃ u, m !! protein = Some u ∧ Intervals.separated u ∧
                   (u = [] ↔ ∀ z, ¬ ((∃ s e, (protein, s, e) ∈ Family.regions V A ∧ s ≤ z ≤ e) ∧
                                     (∃ s e, (protein, s, e) ∈ Family.regions V B ∧ s ≤ z ≤ e)))
         else m !! protein = None.
Proof.
  destruct (overlap_lookup A B) as (m & Hm & Hl). exists m. split; [done|].
  intros protein. rewrite Hl. case_decide; [|done].
  eexists. split; [done|].
  assert (Hsep : Intervals.separated
            (Intervals._merge_ranges
               (Family.overlap_regions
                  (default [] (Family._regions V A !! protein))
                  (default [] (Family._regions V B !! protein))))).
  { apply merge_ranges_separated. apply list.Forall_forall. intros x Hx.
    apply elem_of_overlap_regions in Hx as (_ & _ & _ & _ & _ & Hlen).
    unfold Intervals.range_len in Hlen. lia. }
  split; [done|]. split.
  - intros Hnil z [(s1 & e1 & H1 & Hz1) (s2 & e2 & H2 & Hz2)].
    assert (Hc : Intervals.covers
              (Intervals._merge_ranges
                 (Family.overlap_regions
                    (default [] (Family._regions V A !! protein))
                    (default [] (Family._regions V B !! protein)))) z).
    { rewrite merge_ranges_covers. apply covers_overlap_regions.
      split; [exists (s1, e1)|exists (s2, e2)];
        (split; [by apply lookup_regions_default|done]). }
    rewrite Hnil in Hc. by apply List.Exists_nil in Hc.
  - intros Hno.
    destruct (Intervals._merge_ranges _) as [|r u] eqn:Hu; [done|].
    exfalso. destruct Hsep as (Hr & _ & _).
    apply (Hno (Intervals.start r)).
    assert (Hc : Intervals.covers (r :: u) (Intervals.start r)).
    { apply List.Exists_cons. left. unfold Intervals.in_range. lia. }
    rewrite <-Hu, merge_ranges_covers in Hc.
    apply covers_overlap_regions in Hc as [(p1 & H1 & Hz1) (p2 & H2 & Hz2)].
    apply lookup_regions_default in H1, H2.
    split; [by exists p1.1, p1.2|by exists p2.1, p2.2].
Qed.

(** ** Family: [residues_covered] *)

Section residues_extra.
Context {V : Type}.
Import Intervals.

(** The integers of a list of ranges, as a set. *)
Abbreviation points l :=
  (⋃ ((λ r : range, list_to_set (seqZ (start r) (stop r - start r))) <$> l)
   : gset Z).

Lemma elem_of_points (l : list range) z : z ∈ points l ↔ covers l z.
Proof.
  rewrite elem_of_union_list, covers_elem. split.
  - intros (X & HX & Hz). apply list_elem_of_fmap in HX as (r & -> & Hr).
    apply elem_of_list_to_set, elem_of_seqZ in Hz. exists r.
    unfold in_range. split; [done|lia].
  - intros (r & Hr & Hz). eexists. split.
    + apply list_elem_of_fmap. by exists r.
    + apply elem_of_list_to_set, elem_of_seqZ. unfold in_range in Hz. lia.
Qed.

Lemma foldl_add_shift (l : list Z) : ∀ a, foldl Z.add a l = a + foldl Z.add 0 l.
Proof.
  induction l as [|x l IH]; intros a; simpl; [lia|].
  rewrite (IH (a + x)), (IH (0 + x)). lia.
Qed.

Lemma size_seqZ_set (a n : Z) :
  0 ≤ n → Z.of_nat (size (list_to_set (seqZ a n) : gset Z)) = n.
Proof.
  intros Hn. rewrite size_list_to_set by apply NoDup_seqZ.
  rewrite length_seqZ. lia.
Qed.

(** On a separated list the lengths add up to the number of integers. *)
Lemma separated_len_size (u : list range) :
  separated u →
  foldl Z.add 0 (range_len <$> u) = Z.of_nat (size (points u)).
Proof.
  induction u as [|r u IH]; [done|]. intros (Hr & Hf & Hs).
  rewrite fmap_cons. simpl foldl. rewrite foldl_add_shift, IH by done.
  rewrite fmap_cons, union_list_cons, size_union.
  - rewrite Nat2Z.inj_add, size_seqZ_set by lia. unfold range_len. lia.
  - intros z Hz1 Hz2. apply elem_of_list_to_set, elem_of_seqZ in Hz1.
    apply elem_of_points, covers_elem in Hz2 as (x & Hx & Hz2).
    apply (proj1 (list.Forall_forall _ _) Hf) in Hx.
    unfold in_range in Hz2. lia.
Qed.

Lemma points_merge_ranges (l : list range) :
  points (_merge_ranges l) = points l.
Proof.
  apply set_eq. intros z. by rewrite !elem_of_points, merge_ranges_covers.
Qed.

Lemma residues_covered_sum (L : list (string * list (Z * Z))) :
  foldl Z.add 0
    (range_len <$> (kv ← L; _merge_ranges (Family.region_ranges kv.2)))
  = foldl Z.add 0
      ((λ kv : string * list (Z * Z),
          foldl Z.add 0
            (range_len <$> _merge_ranges (Family.region_ranges kv.2))) <$> L).
Proof.
  induction L as [|kv L IH]; [done|].
  rewrite bind_cons, fmap_app, foldl_app, fmap_cons. simpl foldl at 3.
  rewrite foldl_add_shift, IH.
  rewrite (foldl_add_shift _
             (0 + foldl Z.add 0 (range_len <$> _merge_ranges (Family.region_ranges kv.2)))).
  lia.
Qed.

Lemma residues_covered_lemma (f : Family.Family V) :
  Family.valid V f →
  Family.residues_covered V f
  = foldl Z.add 0
      ((λ kv : string * list (Z * Z),
          Z.of_nat (size (points (Family.region_ranges kv.2))))
       <$> map_to_list (Family._regions V f)).
Proof.
  intros Hv. unfold Family.residues_covered. rewrite residues_covered_sum.
  f_equal. apply list.Forall_fmap_ext, list.Forall_forall.
  intros [k rs] Hin%elem_of_map_to_list. simpl.
  rewrite separated_len_size, points_merge_ranges; [done|].
  apply merge_ranges_separated, region_ranges_nonempty, (Hv _ _ Hin).
Qed.

End residues_extra.

(** X22.  For a family whose regions satisfy [start <= end],
    [residues_covered] is the number of residues covered: the sum, over
    the proteins, of the number of distinct integers that lie in a region
    of the protein, however the regions overlap or repeat. *)
Theorem residues_covered_counts {V : Type} (f : Family.Family V)
  (Hv : Family.valid V f) :
  Family.residues_covered V f
  = foldl Z.add 0
      ((λ kv : string * list (Z * Z),
          Z.of_nat (size (⋃ ((λ r : Z * Z,
                                list_to_set (seqZ r.1 (r.2 + 1 - r.1)))
                             <$> kv.2) : gset Z)))
       <$> map_to_list (Family._regions V f)).
Proof.
  rewrite residues_covered_lemma by done. f_equal.
  apply list.Forall_fmap_ext, list.Forall_forall. intros [k rs] _. simpl.
  unfold Family.region_ranges. by rewrite <-list_fmap_compose.
Qed.

Lemma residues_covered_counts_witness :
  let f := {| Family._regions :=
                <["a1" := [(10, 20); (15, 30); (10, 20)]]>
                  (<["a2" := [(1, 5)]]> ∅);
              Family._signatures := ∅; Family._fhashes := ∅;
              Family._finalised := false |} : Family.Family unit in
  Family.residues_covered unit f
  = foldl Z.add 0
      ((λ kv : string * list (Z * Z),
          Z.of_nat (size (⋃ ((λ r : Z * Z,
                                list_to_set (seqZ r.1 (r.2 + 1 - r.1)))
                             <$> kv.2) : gset Z)))
       <$> map_to_list (Family._regions unit f)).
Proof.
  intros f. apply (residues_covered_counts f).
  apply (bool_decide_unpack _); vm_compute; exact I.
Defined.

(** A region with [start > end] breaks the count: its empty range keeps
    two overlapping ranges apart, and their common residues are counted
    twice. *)
Lemma residues_covered_overcounts :
  let f := {| Family._regions := <["p" := [(0, 9); (3, 2); (3, 7)]]> ∅;
              Family._signatures := ∅; Family._fhashes := ∅;
              Family._finalised := false |} : Family.Family unit in
  Family.residues_covered unit f = 15 ∧
  size (⋃ ((λ r : Z * Z, list_to_set (seqZ r.1 (r.2 + 1 - r.1)))
           <$> [(0, 9); (3, 2); (3, 7)]) : gset Z) = 10%nat.
Proof. intros f. split; by vm_compute. Qed.

(** ** pfam.py: chunks and estimates *)

Section pfam_extra.
Variable _crc32_hash : string → Z.

Lemma mapM_result_Ok {A B} (f : A → result B) (g : A → B) (l : list A) :
  (∀ x, x ∈ l → f x = Ok (g x)) → mapM (M := result) f l = Ok (g <$> l).
Proof.
  induction l as [|x l IH]; intros Hf; [done|]. simpl.
  rewrite (Hf x) by list_in. change (mapM f l ≫= (λ k, mret (g x :: k)) = Ok (g x :: (g <$> l))).
  rewrite IH; [done|]. intros y Hy. apply Hf. list_in.
Qed.

Lemma elem_of_concat {A} (x : A) (ls : list (list A)) :
  x ∈ concat ls ↔ ∃ l, x ∈ l ∧ l ∈ ls.
Proof.
  induction ls as [|l ls IH]; simpl.
  - split; [by intros ?%elem_of_nil|]. by intros (? & _ & ?%elem_of_nil).
  - rewrite elem_of_app, IH. setoid_rewrite elem_of_cons. naive_solver.
Qed.

Lemma floordiv_Ok (a b : Z) : b ≠ 0 → Pfam.floordiv a b = Ok (a `div` b).
Proof. intros Hb. unfold Pfam.floordiv. by rewrite decide_False. Qed.

Lemma chunks_Ok (s e w : Z) :
  w ≠ 0 →
  Pfam.chunks_from_coordinates s e w
  = Ok (seqZ (s `div` w) (e `div` w + 1 - s `div` w)).
Proof.
  intros Hw. unfold Pfam.chunks_from_coordinates.
  by rewrite !floordiv_Ok.
Qed.

Lemma elem_of_chunks (s e w c : Z) :
  0 < w →
  c ∈ seqZ (s `div` w) (e `div` w + 1 - s `div` w)
  ↔ c * w ≤ e ∧ s < (c + 1) * w.
Proof.
  intros Hw. rewrite elem_of_seqZ.
  pose proof (Z.div_mod s w) as Hs. pose proof (Z.mod_pos_bound s w Hw) as Hs'.
  pose proof (Z.div_mod e w) as He. pose proof (Z.mod_pos_bound e w Hw) as He'.
  split; intros [? ?]; split; nia.
Qed.

Lemma chunk_iterator_Ok (regions : list (string * Z * Z)) (w : Z) :
  w ≠ 0 →
  Pfam._chunk_iterator regions w
  = Ok (concat ((λ r : string * Z * Z,
                   (λ chunk : Z, (r.1.1, chunk))
                   <$> seqZ (r.1.2 `div` w) (r.2 `div` w + 1 - r.1.2 `div` w))
                <$> regions)).
Proof.
  intros Hw. unfold Pfam._chunk_iterator.
  rewrite (mapM_result_Ok _
    (λ r : string * Z * Z,
       (λ chunk : Z, (r.1.1, chunk))
       <$> seqZ (r.1.2 `div` w) (r.2 `div` w + 1 - r.1.2 `div` w))); [done|].
  intros r _. by rewrite chunks_Ok.
Qed.






End pfam_extra.

(** X23.  [chunks_from_coordinates] with window [0] raises
    [ZeroDivisionError]; with a window [w > 0] it lists, once each, exactly
    the chunks [c] whose residues [c*w .. (c+1)*w - 1] start no later than
    [end] and end no earlier than [start]. *)
Theorem chunks_from_coordinates_spec (start_ end_ : Z) :
  Pfam.chunks_from_coordinates start_ end_ 0 = Raise ZeroDivisionError ∧
  ∀ w : positive,
    ∃ cs, Pfam.chunks_from_coordinates start_ end_ (Z.pos w) = Ok cs ∧
          NoDup cs ∧
          ∀ c, c ∈ cs ↔ c * Z.pos w ≤ end_ ∧ start_ < (c + 1) * Z.pos w.
Proof.
  split; [done|]. intros w. rewrite chunks_Ok by done.
  eexists. split; [done|]. split; [apply NoDup_seqZ|].
  intros c. apply elem_of_chunks. lia.
Qed.

(** X24.  [_chunk_iterator] with window [0] raises [ZeroDivisionError] as
    soon as there is a region (and yields nothing when there is none);
    with a window [w > 0] it yields the pair [(acc, c)] exactly when some
    region [(acc, s, e)] meets the chunk [c], that is [c*w <= e] and
    [s < (c+1)*w]. *)
Theorem chunk_iterator_spec (regions : list (string * Z * Z)) :
  Pfam._chunk_iterator regions 0
    = match regions with [] => Ok [] | _ :: _ => Raise ZeroDivisionError end ∧
  ∀ w : positive,
    ∃ l, Pfam._chunk_iterator regions (Z.pos w) = Ok l ∧
         ∀ (acc : string) (c : Z),
           (acc, c) ∈ l ↔
           ∃ s e, (acc, s, e) ∈ regions ∧
                  c * Z.pos w ≤ e ∧ s < (c + 1) * Z.pos w.
Proof.
  split; [by destruct regions|]. intros w.
  rewrite chunk_iterator_Ok by done. eexists. split; [done|].
  intros acc c. rewrite elem_of_concat. split.
  - intros (l & Hc & Hl). apply list_elem_of_fmap in Hl as ([[a s] e] & -> & Hr).
    apply list_elem_of_fmap in Hc as (c' & [= -> ->] & Hc). simpl in *.
    apply elem_of_chunks in Hc; [|lia]. by exists s, e.
  - intros (s & e & Hr & Hc).
    exists ((λ chunk : Z, (acc, chunk))
            <$> seqZ (s `div` Z.pos w)
                     (e `div` Z.pos w + 1 - s `div` Z.pos w)).
    split.
    + apply list_elem_of_fmap. exists c. split; [done|].
      apply elem_of_chunks; [lia|]. exact Hc.
    + apply list_elem_of_fmap. by exists (acc, s, e).
Qed.


(** ** The sifter pipeline: routing *)

Section sifter_extra.
Context {Search : Type}.
Import Sifter.

Lemma filter_length_pos {A} (P : A → Prop) `{!∀ x, Decision (P x)} (l : list A) :
  (0 < length (filter P l))%nat ↔ Exists P l.
Proof.
  induction l as [|x l IH].
  - split; [simpl; lia|]. by intros ?%List.Exists_nil.
  - rewrite filter_cons, List.Exists_cons. destruct (decide (P x)); simpl.
    + split; [auto|lia].
    + rewrite IH. tauto.
Qed.

(** [NewFamilySifter.sift] on a packet that carries the size of the query
    and the normalised scores. *)
Lemma NewFamilySifter_sift_routes (self : NewFamilySifter Search)
  (data : loc) (σ : state Search) d l xs z ns :
  heap Search σ !! data = Some (ODict Search d) →
  d !! SIFTS = Some (VRef Search l) →
  heap Search σ !! l = Some (OList Search xs) →
  d !! SEARCH_SIZE = Some (VInt Search z) →
  d !! NORMALISED_FAMILY_HASH_SCORES = Some (VScores Search ns) →
  let out_data := fresh (dom (heap Search σ)) in
  let σ' :=
    {| heap := <[l := OList Search (xs ++ [self_id Search (nf_base Search self)])]>
                 (<[out_data := ODict Search d]> (heap Search σ));
       results := results Search σ |} in
  NewFamilySifter_sift Search self data σ =
  match sinks Search (nf_base Search self)
          !! (if decide ((Qc_of_Z z < nf_abs_threshold Search self)%Qc
                         ∨ map_Exists (λ _ s, (nf_rel_threshold Search self < s)%Qc) ns)
              then "other_sink" else "new_sink") with
  | Some sift => sift out_data σ'
  | None => Raise KeyError
  end.
Proof.
  intros Hdata Hsifts Hl Hz Hns out_data σ'.
  assert (Hfresh : out_data ∉ dom (heap Search σ)) by apply is_fresh.
  assert (Hod : out_data ≠ data).
  { intros Heq. apply Hfresh. rewrite Heq. apply elem_of_dom. eauto. }
  assert (Hld : l ≠ data) by (intros ->; congruence).
  unfold NewFamilySifter_sift, mbind, M_bind.
  rewrite (Sifter_sift_store _ data σ d l xs) by done. fold out_data.
  unfold getitem, mbind, M_bind, get_dict. cbn [heap results].
  rewrite (lookup_insert_ne _ l data) by done.
  rewrite (lookup_insert_ne _ out_data data) by done. rewrite Hdata, Hz.
  unfold as_int, mret, M_ret. cbn [heap results].
  rewrite (lookup_insert_ne _ l data) by done.
  rewrite (lookup_insert_ne _ out_data data) by done. rewrite Hdata, Hns.
  unfold as_scores, mret, M_ret. fold σ'.
  destruct (decide (Qc_of_Z z < nf_abs_threshold Search self)%Qc) as [Hlt|Hge].
  - rewrite decide_True by auto. by rewrite distribute_results_single.
  - destruct (decide (0 < length (filter
        (λ s, (nf_rel_threshold Search self < s)%Qc) (values ns)))%nat)
      as [Hpos|Hnone].
    + rewrite decide_True; [by rewrite distribute_results_single|].
      right. apply (values_Exists (λ s, (nf_rel_threshold Search self < s)%Qc)).
      by apply (proj1 (filter_length_pos
                         (λ s, (nf_rel_threshold Search self < s)%Qc) _)).
    + rewrite decide_False; [by rewrite distribute_results_single|].
      intros [?|Hex]; [done|]. apply Hnone.
      apply (proj2 (filter_length_pos
                      (λ s, (nf_rel_threshold Search self < s)%Qc) _)).
      by apply (values_Exists (λ s, (nf_rel_threshold Search self < s)%Qc)).
Qed.

End sifter_extra.

(** X26.  [HashSifter.sift] on a well-formed packet, with a scoring method
    that scores at least one catalog entry: the copy [out_data], enriched
    with the strictly positive scores, is handed to exactly one sink,
    [low_sink] if every score is [<= low_threshold]; else [high_sink] if
    some score is [>= high_threshold] and exactly one score is
    [>= low_threshold]; else [other_sink].  Without a scoring method the
    constructor raises [RuntimeError]. *)
Theorem HashSifter_sift_routing {Search HashesT : Type}
  (hashes : HashesT) (low high : Qc) (id : positive)
  (low_sink high_sink other_sink : Sifter.loc → Sifter.M Search ())
  (m : Search → HashesT → gmap string Qc)
  (data : Sifter.loc) (σ : Sifter.state Search)
  (d : gmap string (Sifter.value Search)) (l : Sifter.loc)
  (xs : list positive) (q : Search)
  (Hdata : Sifter.heap Search σ !! data = Some (Sifter.ODict Search d))
  (Hsifts : d !! Sifter.SIFTS = Some (Sifter.VRef Search l))
  (Hl : Sifter.heap Search σ !! l = Some (Sifter.OList Search xs))
  (Hq : d !! Sifter.SEARCH = Some (Sifter.VSearch Search q))
  (Hne : m q hashes ≠ ∅) :
  Sifter.HashSifter_init Search HashesT hashes low high id
    low_sink high_sink other_sink None = Raise RuntimeError ∧
  ∃ self,
    Sifter.HashSifter_init Search HashesT hashes low high id
      low_sink high_sink other_sink (Some m) = Ok self ∧
    let scores := m q hashes in
    let out_data := fresh (dom (Sifter.heap Search σ)) in
    let σ' :=
      {| Sifter.heap :=
           <[out_data :=
               Sifter.ODict Search
                 (<[Sifter.FAMILY_HASH_SCORES :=
                      Sifter.VScores Search (filter (λ fs, (0 < fs.2)%Qc) scores)]> d)]>
             (<[l := Sifter.OList Search (xs ++ [id])]>
                (<[out_data := Sifter.ODict Search d]> (Sifter.heap Search σ)));
         Sifter.results := Sifter.results Search σ |} in
    Sifter.HashSifter_sift Search HashesT self data σ =
    (if decide (map_Forall (λ _ v, (v ≤ low)%Qc) scores) then low_sink
     else if decide (map_Exists (λ _ v, (high ≤ v)%Qc) scores
                     ∧ size (filter (λ fs, (low ≤ fs.2)%Qc) scores) = 1%nat)
     then high_sink
     else other_sink) out_data σ'.
Proof.
  split; [done|]. eexists. split; [done|]. intros scores out_data σ'.
  rewrite (HashSifter_sift_routes _ data σ d l xs q) by done.
  cbn [Sifter.hs_base Sifter.sinks Sifter.sift_method Sifter.hashes
       Sifter.low_threshold Sifter.high_threshold Sifter.self_id].
  fold scores out_data σ'. unfold Sifter.HashSifter_route_spec.
  repeat case_decide; done.
Qed.

Lemma HashSifter_sift_routing_witness :
  let low_sink := Sifter.Terminator_sift unit (Sifter.Terminator unit 1) in
  let high_sink := Sifter.Terminator_sift unit (Sifter.Terminator unit 2) in
  let other_sink := Sifter.Terminator_sift unit (Sifter.Terminator unit 3) in
  let m := λ (_ : unit) (_ : unit),
             ({[ "PF00042" := (Qc_of_Z 1 / Qc_of_Z 2)%Qc ]} : gmap string Qc) in
  let d := <[Sifter.SEARCH := Sifter.VSearch unit ()]>
             (<[Sifter.ID := Sifter.VId unit "query"]>
                (<[Sifter.SIFTS := Sifter.VRef unit 1%positive]> ∅)) in
  let σ := {| Sifter.heap := <[2%positive := Sifter.ODict unit d]>
                               (<[1%positive := Sifter.OList unit []]> ∅);
              Sifter.results := ∅ |} : Sifter.state unit in
  Sifter.HashSifter_init unit unit () (Qc_of_Z 0) (Qc_of_Z 1) 9
    low_sink high_sink other_sink None = Raise RuntimeError ∧
  ∃ self,
    Sifter.HashSifter_init unit unit () (Qc_of_Z 0) (Qc_of_Z 1) 9
      low_sink high_sink other_sink (Some m) = Ok self ∧
    let scores := m () () in
    let out_data := fresh (dom (Sifter.heap unit σ)) in
    let σ' :=
      {| Sifter.heap :=
           <[out_data :=
               Sifter.ODict unit
                 (<[Sifter.FAMILY_HASH_SCORES :=
                      Sifter.VScores unit (filter (λ fs, (0 < fs.2)%Qc) scores)]> d)]>
             (<[1%positive := Sifter.OList unit ([] ++ [9%positive])]>
                (<[out_data := Sifter.ODict unit d]> (Sifter.heap unit σ)));
         Sifter.results := Sifter.results unit σ |} in
    Sifter.HashSifter_sift unit unit self 2%positive σ =
    (if decide (map_Forall (λ _ v, (v ≤ Qc_of_Z 0)%Qc) scores) then low_sink
     else if decide (map_Exists (λ _ v, (Qc_of_Z 1 ≤ v)%Qc) scores
                     ∧ size (filter (λ fs, (Qc_of_Z 0 ≤ fs.2)%Qc) scores) = 1%nat)
     then high_sink
     else other_sink) out_data σ'.
Proof.
  intros low_sink high_sink other_sink m d σ.
  apply (HashSifter_sift_routing () (Qc_of_Z 0) (Qc_of_Z 1) 9%positive
           low_sink high_sink other_sink m 2%positive σ d 1%positive [] ()).
  - reflexivity.
  - reflexivity.
  - reflexivity.
  - reflexivity.
  - intros Hm. apply (f_equal (λ x : gmap string Qc, x !! "PF00042")) in Hm.
    vm_compute in Hm. discriminate Hm.
Defined.

(** X27.  [NewFamilySifter.sift] on a packet that carries the size of the
    query and the normalised scores hands the copy [out_data] to exactly
    one sink: [other_sink] if the size is below the absolute threshold or
    some normalised score is above the relative threshold, and [new_sink]
    otherwise. *)
Theorem NewFamilySifter_sift_routing {Search : Type} (id : positive)
  (new_sink other_sink : Sifter.loc → Sifter.M Search ())
  (abs_threshold rel_threshold : Qc)
  (data : Sifter.loc) (σ : Sifter.state Search)
  (d : gmap string (Sifter.value Search)) (l : Sifter.loc)
  (xs : list positive) (z : Z) (ns : gmap string Qc)
  (Hdata : Sifter.heap Search σ !! data = Some (Sifter.ODict Search d))
  (Hsifts : d !! Sifter.SIFTS = Some (Sifter.VRef Search l))
  (Hl : Sifter.heap Search σ !! l = Some (Sifter.OList Search xs))
  (Hz : d !! Sifter.SEARCH_SIZE = Some (Sifter.VInt Search z))
  (Hns : d !! Sifter.NORMALISED_FAMILY_HASH_SCORES
         = Some (Sifter.VScores Search ns)) :
  let out_data := fresh (dom (Sifter.heap Search σ)) in
  let σ' :=
    {| Sifter.heap := <[l := Sifter.OList Search (xs ++ [id])]>
                        (<[out_data := Sifter.ODict Search d]>
                           (Sifter.heap Search σ));
       Sifter.results := Sifter.results Search σ |} in
  Sifter.NewFamilySifter_sift Search
    (Sifter.NewFamilySifter_init Search id new_sink other_sink
       abs_threshold rel_threshold) data σ =
  (if decide ((Qc_of_Z z < abs_threshold)%Qc
              ∨ map_Exists (λ _ s, (rel_threshold < s)%Qc) ns)
   then other_sink else new_sink) out_data σ'.
Proof.
  intros out_data σ'.
  rewrite (NewFamilySifter_sift_routes _ data σ d l xs z ns) by done.
  cbn [Sifter.nf_base Sifter.sinks Sifter.nf_abs_threshold
       Sifter.nf_rel_threshold Sifter.NewFamilySifter_init Sifter.self_id].
  fold out_data σ'. by case_decide.
Qed.

Lemma NewFamilySifter_sift_routing_witness :
  let new_sink := Sifter.Terminator_sift unit (Sifter.Terminator unit 1) in
  let other_sink := Sifter.Terminator_sift unit (Sifter.Terminator unit 2) in
  let ns := ({[ "PF00042" := (Qc_of_Z 1 / Qc_of_Z 2)%Qc ]} : gmap string Qc) in
  let d := <[Sifter.SEARCH_SIZE := Sifter.VInt unit 30]>
             (<[Sifter.NORMALISED_FAMILY_HASH_SCORES := Sifter.VScores unit ns]>
                (<[Sifter.SIFTS := Sifter.VRef unit 1%positive]> ∅)) in
  let σ := {| Sifter.heap := <[2%positive := Sifter.ODict unit d]>
                               (<[1%positive := Sifter.OList unit []]> ∅);
              Sifter.results := ∅ |} : Sifter.state unit in
  let out_data := fresh (dom (Sifter.heap unit σ)) in
  let σ' :=
    {| Sifter.heap := <[1%positive := Sifter.OList unit ([] ++ [9%positive])]>
                        (<[out_data := Sifter.ODict unit d]>
                           (Sifter.heap unit σ));
       Sifter.results := Sifter.results unit σ |} in
  Sifter.NewFamilySifter_sift unit
    (Sifter.NewFamilySifter_init unit 9 new_sink other_sink
       (Qc_of_Z 10) (Qc_of_Z 1)) 2%positive σ =
  (if decide ((Qc_of_Z 30 < Qc_of_Z 10)%Qc
              ∨ map_Exists (λ _ s, (Qc_of_Z 1 < s)%Qc) ns)
   then other_sink else new_sink) out_data σ'.
Proof.
  intros new_sink other_sink ns d σ.
  apply (NewFamilySifter_sift_routing 9%positive new_sink other_sink
           (Qc_of_Z 10) (Qc_of_Z 1) 2%positive σ d 1%positive [] 30 ns);
    reflexivity.
Defined.

(** X28.  [SizeSifter.sift] never uses [smaller_sink]: for every size
    sifter, packet and store, replacing that sink by any other stage leaves
    the run as it is, whatever the sizes and thresholds. *)
Theorem SizeSifter_sift_never_smaller {Search : Type}
  (ss : Sifter.SizeSifter Search)
  (other : Sifter.loc → Sifter.M Search ())
  (data : Sifter.loc) (σ : Sifter.state Search) :
  Sifter.SizeSifter_sift Search
    {| Sifter.ss_base :=
         {| Sifter.self_id := Sifter.self_id Search (Sifter.ss_base Search ss);
            Sifter.sinks := <["smaller_sink" := other]>
                              (Sifter.sinks Search (Sifter.ss_base Search ss)) |};
       Sifter.abs_threshold := Sifter.abs_threshold Search ss;
       Sifter.rel_threshold := Sifter.rel_threshold Search ss;
       Sifter.ss_sizes := Sifter.ss_sizes Search ss |} data σ
  = Sifter.SizeSifter_sift Search ss data σ.
Proof. apply SizeSifter_sift_ignores_smaller_sink. Qed.

(** ** pfam.py: the signatures of the clans *)

Section clan_hashes_extra.
Implicit Types (c : Pfam.Catalog) (m : gmap string (gset (Z * string))).

(** The signatures of the members of a clan that the catalog knows. *)
Abbreviation member_hashes c members :=
  (omap (λ f : string, Pfam.cat_hashes c !! f) (members : list string)).

Lemma clan_hashes_step_Ok c m (cm : string * list string) :
  Pfam.clan_hashes_step c (Ok m) cm =
  Ok match member_hashes c cm.2 with
     | [] => m
     | [h] => <[cm.1 := h]> m
     | hs => <[cm.1 := list_to_set
                         (Py.slice_to
                            (Minhash.sorted String.le (elements (⋃ hs)))
                            (Pfam.cat_n c))]> m
     end.
Proof.
  unfold Pfam.clan_hashes_step. simpl.
  destruct (member_hashes c cm.2) as [|h [|h' hs]]; [done..|].
  by rewrite union_signature_cons.
Qed.

Lemma clan_hashes_lemma c (clans : list (string * list string)) :
  ∃ chs,
    Pfam._clan_hashes c clans = Ok chs ∧
    (∀ clan, is_Some (chs !! clan) ↔
             ∃ members, (clan, members) ∈ clans ∧ member_hashes c members ≠ []) ∧
    (∀ clan sig, chs !! clan = Some sig →
       ∃ members, (clan, members) ∈ clans ∧
                  match member_hashes c members with
                  | [] => False
                  | [h] => sig = h
                  | hs => Minhash.union_signature String.le hs (Pfam.cat_n c)
                          = Ok sig
                  end).
Proof.
  unfold Pfam._clan_hashes.
  induction clans as [|[clan' members'] clans IH] using rev_ind.
  - exists ∅. split; [done|]. split.
    + intros clan. rewrite lookup_empty. split; [by intros [? ?]|].
      by intros (? & ?%elem_of_nil & _).
    + intros clan sig. by rewrite lookup_empty.
  - destruct IH as (chs & Hchs & Hdom & Hval).
    rewrite foldl_app. cbn [foldl]. rewrite Hchs, clan_hashes_step_Ok.
    cbn [fst snd].
    eexists. split; [done|].
    destruct (member_hashes c members') as [|h [|h' hs]] eqn:Hhs.
    + split.
      * intros clan. rewrite Hdom. setoid_rewrite elem_of_app.
        setoid_rewrite list_elem_of_singleton. split.
        -- intros (ms & ? & ?). exists ms. auto.
        -- intros (ms & [?|[= -> ->]] & Hne); [by exists ms|].
           by rewrite Hhs in Hne.
      * intros clan sig Hsig. destruct (Hval clan sig Hsig) as (ms & ? & ?).
        exists ms. split; [list_in|done].
    + split.
      * intros clan. setoid_rewrite elem_of_app.
        setoid_rewrite list_elem_of_singleton.
        destruct (decide (clan = clan')) as [->|Hne].
        -- rewrite lookup_insert_eq. split; [|by eexists].
           intros _. exists members'. split; [auto|]. by rewrite Hhs.
        -- rewrite lookup_insert_ne by done. rewrite Hdom. split.
           ++ intros (ms & ? & ?). exists ms. auto.
           ++ intros (ms & [?|[= ? ?]] & ?); [by exists ms|done].
      * intros clan sig.
        destruct (decide (clan = clan')) as [->|Hne].
        -- rewrite lookup_insert_eq. intros [= <-]. exists members'.
           split; [list_in|]. by rewrite Hhs.
        -- rewrite lookup_insert_ne by done. intros Hsig.
           destruct (Hval clan sig Hsig) as (ms & ? & ?).
           exists ms. split; [list_in|done].
    + split.
      * intros clan. setoid_rewrite elem_of_app.
        setoid_rewrite list_elem_of_singleton.
        destruct (decide (clan = clan')) as [->|Hne].
        -- rewrite lookup_insert_eq. split; [|by eexists].
           intros _. exists members'. split; [auto|]. by rewrite Hhs.
        -- rewrite lookup_insert_ne by done. rewrite Hdom. split.
           ++ intros (ms & ? & ?). exists ms. auto.
           ++ intros (ms & [?|[= ? ?]] & ?); [by exists ms|done].
      * intros clan sig.
        destruct (decide (clan = clan')) as [->|Hne].
        -- rewrite lookup_insert_eq. intros [= <-]. exists members'.
           split; [list_in|]. rewrite Hhs. cbv beta iota.
           by rewrite union_signature_cons.
        -- rewrite lookup_insert_ne by done. intros Hsig.
           destruct (Hval clan sig Hsig) as (ms & ? & ?).
           exists ms. split; [list_in|done].
Qed.

End clan_hashes_extra.

(** X29.  [_clan_hashes] never raises, whatever clans and members the data
    source yields.  A clan gets a signature exactly when the catalog has a
    signature for at least one of its members; that signature is the
    member's own, unchanged, when the catalog knows one member, and the
    [union_signature] of length [n] of the known members' signatures when
    it knows two or more. *)
Theorem clan_hashes_spec (c : Pfam.Catalog)
  (clans : list (string * list string)) :
  ∃ chs,
    Pfam._clan_hashes c clans = Ok chs ∧
    (∀ clan, clan ∈ dom chs ↔
             ∃ members f, (clan, members) ∈ clans ∧ f ∈ members ∧
                          f ∈ dom (Pfam.cat_hashes c)) ∧
    (∀ clan sig, chs !! clan = Some sig →
       ∃ members, (clan, members) ∈ clans ∧
                  match omap (λ f, Pfam.cat_hashes c !! f) members with
                  | [] => False
                  | [h] => sig = h
                  | hs => Minhash.union_signature String.le hs (Pfam.cat_n c)
                          = Ok sig
                  end).
Proof.
  destruct (clan_hashes_lemma c clans) as (chs & Hchs & Hdom & Hval).
  exists chs. split; [done|]. split; [|done].
  intros clan. rewrite elem_of_dom, Hdom. split.
  - intros (ms & Hin & Hne). exists ms.
    destruct (omap _ ms) as [|h hs] eqn:Hhs; [done|].
    assert (Hh : h ∈ omap (λ f, Pfam.cat_hashes c !! f) ms)
      by (rewrite Hhs; list_in).
    apply list_elem_of_omap in Hh as (f & Hf & Hl).
    exists f. split; [done|]. split; [done|]. apply elem_of_dom. by eexists.
  - intros (ms & f & Hin & Hf & [h Hh]%elem_of_dom). exists ms. split; [done|].
    intros Hnil.
    assert (Hin' : h ∈ omap (λ f, Pfam.cat_hashes c !! f) ms)
      by (apply list_elem_of_omap; eauto).
    rewrite Hnil in Hin'. by apply elem_of_nil in Hin'.
Qed.

(** X30.  [BiggerBetterSifter.sift] drops the packet: on a well-formed
    packet it makes the copy and appends the stage to the audit trail, as
    every stage does, and then stops; no sink is called, whatever the
    sinks are, and no result is stored. *)
Theorem BiggerBetterSifter_sift_drops {Search : Type}
  (self : Sifter.Sifter Search) (data : Sifter.loc) (σ : Sifter.state Search)
  (d : gmap string (Sifter.value Search)) (l : Sifter.loc) (xs : list positive)
  (Hdata : Sifter.heap Search σ !! data = Some (Sifter.ODict Search d))
  (Hsifts : d !! Sifter.SIFTS = Some (Sifter.VRef Search l))
  (Hl : Sifter.heap Search σ !! l = Some (Sifter.OList Search xs)) :
  Sifter.BiggerBetterSifter_sift Search self data σ =
  Ok ((), {| Sifter.heap :=
               <[l := Sifter.OList Search (xs ++ [Sifter.self_id Search self])]>
                 (<[fresh (dom (Sifter.heap Search σ)) := Sifter.ODict Search d]>
                    (Sifter.heap Search σ));
             Sifter.results := Sifter.results Search σ |}).
Proof.
  unfold Sifter.BiggerBetterSifter_sift, mbind, Sifter.M_bind.
  by rewrite (Sifter_sift_store self data σ d l xs).
Qed.

Lemma BiggerBetterSifter_sift_drops_witness :
  let sink := Sifter.Terminator_sift unit (Sifter.Terminator unit 1) in
  let self := {| Sifter.self_id := 9%positive;
                 Sifter.sinks := <["bigger_better_sink" := sink]>
                                   (<["smaller_worse_sink" := sink]> ∅) |} in
  let d := <[Sifter.SEARCH := Sifter.VSearch unit ()]>
             (<[Sifter.ID := Sifter.VId unit "query"]>
                (<[Sifter.SIFTS := Sifter.VRef unit 1%positive]> ∅)) in
  let σ := {| Sifter.heap := <[2%positive := Sifter.ODict unit d]>
                               (<[1%positive := Sifter.OList unit []]> ∅);
              Sifter.results := ∅ |} : Sifter.state unit in
  Sifter.BiggerBetterSifter_sift unit self 2%positive σ =
  Ok ((), {| Sifter.heap :=
               <[1%positive := Sifter.OList unit ([] ++ [Sifter.self_id unit self])]>
                 (<[fresh (dom (Sifter.heap unit σ)) := Sifter.ODict unit d]>
                    (Sifter.heap unit σ));
             Sifter.results := Sifter.results unit σ |}).
Proof.
  intros sink self d σ.
  apply (BiggerBetterSifter_sift_drops self 2%positive σ d 1%positive []);
    reflexivity.
Defined.
